(** * Incremental Shopify sync engine: fetch client, watermark store,
      upsert engine and orchestrator

    A shallow embedding of [scripts/shopify_api.py], [scripts/database.py],
    [scripts/sync.py] and [scripts/main.py], and the properties of the
    incremental sync engine stated in the design document.

    Conventions of the embedding.
    - Python exceptions are values of [exn]; a computation that may raise
      returns a [pyres].  Code that also talks to the network or the store
      runs in the state monad [M] over an explicit state.
    - The remote API is a script: the list of outcomes the HTTP session
      will produce, in the order the requests are made.  Every request and
      every [time.sleep] is appended to a trace.
    - The SQLite file is a record of tables, each a finite map from the
      INTEGER PRIMARY KEY to the row.  A connection works on a private copy
      that [commit] publishes; a connection dropped by an exception
      publishes nothing.
    - Remote records are typed value objects with optional fields; the
      [raw_json] column holds the record itself.
    - Library functions whose grammar is not part of this repository
      ([datetime.fromisoformat], [float] on strings, the host's time zone,
      the shop name from the environment) are the fields of the class
      [Runtime]; every general theorem holds for every instance. *)

From Stdlib Require Import ZArith String Ascii List Lia Bool PrimFloat Uint63.
From stdpp Require Import base option gmap strings list fin_maps.
Import ListNotations.

Open Scope string_scope.
Open Scope Z_scope.

(* ===================================================================== *)
(** ** Python results and exceptions *)
(* ===================================================================== *)

(** The exception classes the modelled code can meet.  [Timeout],
    [ConnectionError] and [HTTPError] are the subclasses of
    [requests.exceptions.RequestException] that the session and
    [raise_for_status] raise.  [ScriptExhausted] is not a Python exception:
    it marks a run that asked the scripted API for more outcomes than the
    script holds. *)
Inductive exn : Type :=
  | KeyError
  | TypeError
  | ValueError
  | IndexError
  | RuntimeError
  | IntegrityError
  | InterfaceError
  | OverflowError
  | JSONDecodeError
  | Timeout
  | ConnectionError
  | HTTPError
  | ScriptExhausted.

Definition is_request_exception (e : exn) : bool :=
  match e with
  | Timeout | ConnectionError | HTTPError => true
  | _ => false
  end.

Inductive pyres (A : Type) : Type :=
  | Ok (a : A)
  | Raise (e : exn).
Arguments Ok {A} a.
Arguments Raise {A} e.

Definition pbind {A B} (r : pyres A) (k : A -> pyres B) : pyres B :=
  match r with
  | Ok a => k a
  | Raise e => Raise e
  end.

Declare Scope py_scope.
Delimit Scope py_scope with py.
Notation "x <~ r ;; k" := (pbind r (fun x => k))
  (at level 100, r at next level, right associativity) : py_scope.

(** [for x in l: body], threading the loop's variables [s]; an exception
    raised by the body leaves the loop. *)
Fixpoint for_each {A S} (body : A -> S -> pyres S) (l : list A) (s : S)
  : pyres S :=
  match l with
  | [] => Ok s
  | x :: l' => pbind (body x s) (for_each body l')
  end.

(** The state monad with exceptions: the state survives a raise. *)
Definition M (S A : Type) : Type := S -> pyres A * S.

Definition ret {S A} (a : A) : M S A := fun s => (Ok a, s).
Definition raise {S A} (e : exn) : M S A := fun s => (Raise e, s).
Definition bind {S A B} (m : M S A) (k : A -> M S B) : M S B :=
  fun s =>
    match m s with
    | (Ok a, s') => k a s'
    | (Raise e, s') => (Raise e, s')
    end.
Definition lift {S A} (r : pyres A) : M S A := fun s => (r, s).
Definition gets {S A} (f : S -> A) : M S A := fun s => (Ok (f s), s).
Definition modify {S} (f : S -> S) : M S unit := fun s => (Ok tt, f s).

(** [try: m  except requests.exceptions.RequestException: handler]. *)
Definition except_request_exception {S A} (m : M S A) (handler : exn -> M S A)
  : M S A :=
  fun s =>
    match m s with
    | (Raise e, s') =>
        if is_request_exception e then handler e s' else (Raise e, s')
    | r => r
    end.

(** Run a computation over a part of the state. *)
Definition zoom {S T A} (get : S -> T) (set : T -> S -> S) (m : M T A)
  : M S A :=
  fun s => let '(r, t) := m (get s) in (r, set t s).

Declare Scope m_scope.
Delimit Scope m_scope with m.
Notation "x <- m ;; k" := (bind m (fun x => k))
  (at level 100, m at next level, right associativity) : m_scope.
Notation "m ;; k" := (bind m (fun _ => k))
  (at level 100, right associativity) : m_scope.

(* ===================================================================== *)
(** ** Python strings *)
(* ===================================================================== *)

(** [s.split(sep)] for a one-character separator. *)
Fixpoint split (sep : ascii) (s : string) : list string :=
  match s with
  | EmptyString => [EmptyString]
  | String c s' =>
      if Ascii.eqb c sep then EmptyString :: split sep s'
      else match split sep s' with
           | [] => [String c EmptyString]
           | w :: ws => String c w :: ws
           end
  end.

Fixpoint lstrip (p : ascii -> bool) (s : string) : string :=
  match s with
  | EmptyString => EmptyString
  | String c s' => if p c then lstrip p s' else s
  end.

Fixpoint rstrip (p : ascii -> bool) (s : string) : string :=
  match s with
  | EmptyString => EmptyString
  | String c s' =>
      match rstrip p s' with
      | EmptyString => if p c then EmptyString else String c EmptyString
      | r => String c r
      end
  end.

(** [str.isspace] on the code points a header or a JSON string of this API
    can hold (0..255): tab to carriage return, the four separators
    0x1c..0x1f, space, NEL and no-break space. *)
Definition is_space (c : ascii) : bool :=
  let n := Z.of_nat (nat_of_ascii c) in
  ((9 <=? n) && (n <=? 13)) || ((28 <=? n) && (n <=? 32))
  || (n =? 133) || (n =? 160).

(** [s.strip()] and [s.strip(ch)]. *)
Definition strip (s : string) : string := rstrip is_space (lstrip is_space s).
Definition strip_char (ch : ascii) (s : string) : string :=
  rstrip (Ascii.eqb ch) (lstrip (Ascii.eqb ch) s).

(** The double quote character. *)
Definition dquote : ascii := "034"%char.

(** [s.find(ch)]: the first index of [ch], or -1. *)
Fixpoint find (ch : ascii) (s : string) : Z :=
  match s with
  | EmptyString => -1
  | String c s' =>
      if Ascii.eqb c ch then 0
      else let i := find ch s' in if i <? 0 then -1 else i + 1
  end.

Definition len (s : string) : Z := Z.of_nat (String.length s).

(** A slice bound as Python normalises it: negative bounds count from the
    end, and the result is clamped to [0, len]. *)
Definition slice_bound (n i : Z) : Z :=
  let j := if i <? 0 then i + n else i in
  Z.max 0 (Z.min n j).

(** [s[a:b]]. *)
Definition slice (s : string) (a b : Z) : string :=
  let n := len s in
  let a' := slice_bound n a in
  let b' := slice_bound n b in
  substring (Z.to_nat a') (Z.to_nat (b' - a')) s.

Definition is_digit (c : ascii) : bool :=
  let n := nat_of_ascii c in (48 <=? n)%nat && (n <=? 57)%nat.

Definition digit_value (c : ascii) : Z := Z.of_nat (nat_of_ascii c) - 48.

(** The digit part of an integer literal: decimal digits, single
    underscores allowed between two digits. *)
Fixpoint int_digits (acc : Z) (after_digit : bool) (s : string) : option Z :=
  match s with
  | EmptyString => if after_digit then Some acc else None
  | String c s' =>
      if is_digit c then int_digits (10 * acc + digit_value c) true s'
      else if Ascii.eqb c "_" && after_digit then int_digits acc false s'
      else None
  end.

(** [int(s)] on a string: surrounding whitespace, an optional sign, digits.
    [None] is [ValueError]. *)
Definition int_of_str (s : string) : option Z :=
  match strip s with
  | String "-" d => option_map Z.opp (int_digits 0 false d)
  | String "+" d => int_digits 0 false d
  | d => int_digits 0 false d
  end.

Definition lower_char (c : ascii) : ascii :=
  let n := nat_of_ascii c in
  if (65 <=? n)%nat && (n <=? 90)%nat then ascii_of_nat (n + 32) else c.

Fixpoint lower (s : string) : string :=
  match s with
  | EmptyString => EmptyString
  | String c s' => String (lower_char c) (lower s')
  end.

(** Truthiness of an optional string: [None] and [""] are falsy. *)
Definition truthy (o : option string) : option string :=
  match o with
  | Some EmptyString => None
  | _ => o
  end.

(** [s.replace(ch, t)]: every occurrence of the character is replaced. *)
Fixpoint replace (ch : ascii) (t : string) (s : string) : string :=
  match s with
  | EmptyString => EmptyString
  | String c s' =>
      if Ascii.eqb c ch then t ++ replace ch t s'
      else String c (replace ch t s')
  end.

(* ===================================================================== *)
(** ** [datetime] *)
(* ===================================================================== *)

(** A [datetime] is its wall-clock reading, counted in microseconds from
    1970-01-01T00:00:00 on the proleptic Gregorian calendar, and its
    [tzinfo]: [None] for a naive value, [Some off] for an aware value whose
    [utcoffset()] is [off] seconds.  Values are taken inside
    [datetime.min .. datetime.max]; the model does not raise
    [OverflowError] at the ends of that range. *)
Record datetime : Type := {
  wall : Z;
  utcoffset : option Z
}.

Definition us_per_second : Z := 1000000.

(** [dt - timedelta(seconds=n)]: wall-clock arithmetic, [tzinfo] kept. *)
Definition sub_seconds (dt : datetime) (n : Z) : datetime :=
  {| wall := wall dt - n * us_per_second; utcoffset := utcoffset dt |}.

(** [dt.replace(tzinfo=None)]. *)
Definition replace_tzinfo_none (dt : datetime) : datetime :=
  {| wall := wall dt; utcoffset := None |}.

(** [a > b]: naive with naive by wall clock, aware with aware by instant,
    [TypeError] for a naive and an aware operand. *)
Definition datetime_gt (a b : datetime) : pyres bool :=
  match utcoffset a, utcoffset b with
  | None, None => Ok (wall b <? wall a)
  | Some oa, Some ob =>
      Ok (wall b - ob * us_per_second <? wall a - oa * us_per_second)
  | _, _ => Raise TypeError
  end.

(** Days since 1970-01-01 to (year, month, day). *)
Definition civil_of_days (days : Z) : Z * Z * Z :=
  let z := days + 719468 in
  let era := z / 146097 in
  let doe := z mod 146097 in
  let yoe := (doe - doe / 1460 + doe / 36524 - doe / 146096) / 365 in
  let doy := doe - (365 * yoe + yoe / 4 - yoe / 100) in
  let mp := (5 * doy + 2) / 153 in
  let d := doy - (153 * mp + 2) / 5 + 1 in
  let m := if mp <? 10 then mp + 3 else mp - 9 in
  let y := yoe + era * 400 + (if m <=? 2 then 1 else 0) in
  (y, m, d).

Definition digit_char (n : Z) : ascii := ascii_of_nat (Z.to_nat (48 + n mod 10)).
Definition pad2 (n : Z) : string :=
  String (digit_char (n / 10)) (String (digit_char n) EmptyString).
Definition pad4 (n : Z) : string := pad2 (n / 100) ++ pad2 n.
Definition pad6 (n : Z) : string := pad2 (n / 10000) ++ pad4 n.

(** The [+HH:MM] (or [+HH:MM:SS]) suffix of an aware value. *)
Definition format_offset (off : Z) : string :=
  let sign := if off <? 0 then "-" else "+" in
  let a := Z.abs off in
  sign ++ pad2 (a / 3600) ++ ":" ++ pad2 (a mod 3600 / 60)
  ++ (if a mod 60 =? 0 then "" else ":" ++ pad2 (a mod 60)).

(** [dt.isoformat()]. *)
Definition isoformat (dt : datetime) : string :=
  let secs := wall dt / us_per_second in
  let us := wall dt mod us_per_second in
  let '(y, m, d) := civil_of_days (secs / 86400) in
  let sod := secs mod 86400 in
  pad4 y ++ "-" ++ pad2 m ++ "-" ++ pad2 d ++ "T"
  ++ pad2 (sod / 3600) ++ ":" ++ pad2 (sod mod 3600 / 60) ++ ":"
  ++ pad2 (sod mod 60)
  ++ (if us =? 0 then "" else "." ++ pad6 us)
  ++ match utcoffset dt with
     | None => ""
     | Some off => format_offset off
     end.

(* ===================================================================== *)
(** ** The runtime the scripts run on *)
(* ===================================================================== *)

(** What the scripts take from the interpreter and the environment:
    - [SHOPIFY_STORE], read from [.env] by [config.py];
    - [fromisoformat], [datetime.fromisoformat] ([None] is [ValueError]);
    - [float_of_str], [float] applied to a string ([None] is [ValueError]);
    - [float_of_int], [float] applied to an integer ([None] is
      [OverflowError]);
    - [local_utcoffset], the offset in seconds of the host's zone, which
      [astimezone] gives to a naive value; it is taken constant over a
      run. *)
Class Runtime : Type := {
  SHOPIFY_STORE : string;
  fromisoformat : string -> option datetime;
  float_of_str : string -> option float;
  float_of_int : Z -> option float;
  local_utcoffset : Z
}.

(* ===================================================================== *)
(** ** HTTP: the scripted API *)
(* ===================================================================== *)

(** A query-parameter value. *)
Inductive pval : Type :=
  | PInt (z : Z)
  | PStr (s : string).

(** What the process does to the outside world, in order. *)
Inductive event : Type :=
  | EvRequest (method url : string) (params : option (list (string * pval)))
  | EvSleep (seconds : Z).

(** A response: status, headers, and the decoded body, a JSON object that
    maps a key to an array of records ([None]: the body is not JSON). *)
Record response (A : Type) : Type := {
  status_code : Z;
  headers : list (string * string);
  json : option (list (string * list A))
}.
Arguments status_code {A} r.
Arguments headers {A} r.
Arguments json {A} r.

(** What one call of the session does: it returns a response or raises. *)
Inductive outcome (A : Type) : Type :=
  | Responds (r : response A)
  | Throws (e : exn).
Arguments Responds {A} r.
Arguments Throws {A} e.

Record http (A : Type) : Type := {
  script : list (outcome A);
  trace : list event
}.
Arguments script {A} h.
Arguments trace {A} h.

Definition log {A} (ev : event) (h : http A) : http A :=
  {| script := script h; trace := trace h ++ [ev] |}.

(** [REQUESTS_SESSION.get(url, params=params, timeout=30)] and
    [REQUESTS_SESSION.request(method, ...)]. *)
Definition session_request {A} (method url : string)
    (params : option (list (string * pval))) : M (http A) (response A) :=
  fun h =>
    let h' := log (EvRequest method url params) h in
    match script h' with
    | [] => (Raise ScriptExhausted, h')
    | Responds r :: rest => (Ok r, {| script := rest; trace := trace h' |})
    | Throws e :: rest => (Raise e, {| script := rest; trace := trace h' |})
    end.

(** [time.sleep(n)]. *)
Definition time_sleep {A} (n : Z) : M (http A) unit :=
  if n <? 0 then raise ValueError else modify (log (EvSleep n)).

(** [resp.headers.get(name)]: the header dictionary ignores case. *)
Fixpoint headers_get (name : string) (hs : list (string * string))
  : option string :=
  match hs with
  | [] => None
  | (k, v) :: hs' =>
      if String.eqb (lower k) (lower name) then Some v else headers_get name hs'
  end.

(** [resp.raise_for_status()]. *)
Definition raise_for_status {A} (resp : response A) : M (http A) unit :=
  if (400 <=? status_code resp) && (status_code resp <? 600)
  then raise HTTPError else ret tt.

(** [resp.json()]. *)
Definition resp_json {A} (resp : response A) : M (http A) (list (string * list A)) :=
  match json resp with
  | Some d => ret d
  | None => raise JSONDecodeError
  end.

(** [d.get(k, default)] on a dictionary kept in insertion order. *)
Fixpoint dict_get {V} (k : string) (d : list (string * V)) : option V :=
  match d with
  | [] => None
  | (k', v) :: d' => if String.eqb k' k then Some v else dict_get k d'
  end.

(** [d.setdefault(k, v)]. *)
Definition setdefault {V} (k : string) (v : V) (d : list (string * V))
  : list (string * V) :=
  match dict_get k d with
  | Some _ => d
  | None => d ++ [(k, v)]
  end.

(** *** [parse_link_header] *)

(** The body of [for p in parts]: [Ok links] unchanged is [continue]. *)
Definition parse_link_part (p : string) (links : gmap string string)
  : pyres (gmap string string) :=
  match split ";" (strip p) with
  | s0 :: s1 :: _ =>
      let url_part := strip s0 in
      let rel_part := strip s1 in
      let url := slice url_part (find "<" url_part + 1) (find ">" url_part) in
      match nth_error (split "=" rel_part) 1 with
      | Some r => Ok (<[strip_char dquote r := url]> links)
      | None => Raise IndexError
      end
  | _ => Ok links
  end.

Definition parse_link_header (header : string) : pyres (gmap string string) :=
  match header with
  | EmptyString => Ok ∅
  | _ => for_each parse_link_part (split "," header) ∅
  end.

(** *** [request_with_retries] *)

(** How the body of the [try] block ends: [return resp] or [continue]. *)
Inductive flow (A : Type) : Type :=
  | Return (a : A)
  | Continue.
Arguments Return {A} a.
Arguments Continue {A}.

(** [int(resp.headers.get("Retry-After", sleep_seconds))]. *)
Definition retry_after_of {A} (resp : response A) (sleep_seconds : Z)
  : pyres Z :=
  match headers_get "Retry-After" (headers resp) with
  | None => Ok sleep_seconds
  | Some s =>
      match int_of_str s with
      | Some n => Ok n
      | None => Raise ValueError
      end
  end.

Section RequestWithRetries.
Context {A : Type}.
Variables (url : string) (params : option (list (string * pval)))
          (method : string).

Open Scope m_scope.

(** The [try] block of one attempt. *)
Definition attempt (sleep_seconds : Z) : M (http A) (flow (response A)) :=
  resp <- session_request method url params ;;
  if status_code resp =? 429 then
    retry_after <- lift (retry_after_of resp sleep_seconds) ;;
    time_sleep retry_after ;;
    ret Continue
  else
    raise_for_status resp ;;
    ret (Return resp).

(** [for attempt in range(n)] with the current [sleep_seconds], then the
    [raise RuntimeError] after the loop. *)
Fixpoint retry_loop (n : nat) (sleep_seconds : Z) : M (http A) (response A) :=
  match n with
  | O => raise RuntimeError
  | S n' =>
      r <- except_request_exception (attempt sleep_seconds)
             (fun _ => time_sleep sleep_seconds ;; ret Continue) ;;
      match r with
      | Return resp => ret resp
      | Continue => retry_loop n' (sleep_seconds * 2)
      end
  end.

Definition request_with_retries (max_retries : nat) : M (http A) (response A) :=
  retry_loop max_retries 1.
End RequestWithRetries.

Definition default_max_retries : nat := 5.

(** *** [fetch_all_rest] *)

(** An element of [all_items]: a record taken from the array under
    [item_key], or the whole decoded body when no [item_key] is given. *)
Inductive fetched (A : Type) : Type :=
  | Item (a : A)
  | Document (d : list (string * list A)).
Arguments Item {A} a.
Arguments Document {A} d.

(** What one page adds to [all_items]:
    [all_items.extend(data.get(item_key, []))] or [all_items.append(data)]. *)
Definition page_items {A} (item_key : option string)
    (data : list (string * list A)) : list (fetched A) :=
  match truthy item_key with
  | Some k => map Item (default [] (dict_get k data))
  | None => [Document data]
  end.

(** [parse_link_header(resp.headers.get("Link", ""))]. *)
Definition response_links {A} (resp : response A) : pyres (gmap string string) :=
  parse_link_header (default "" (headers_get "Link" (headers resp))).

Definition API_VERSION : string := "2024-10".

(** [urljoin(base, endpoint)] for a base that ends in [/] and a relative
    endpoint such as [products.json]. *)
Definition urljoin (base endpoint : string) : string := base ++ endpoint.

Section FetchAllRest.
Context `{RT : Runtime} {A : Type}.
Open Scope m_scope.

Definition BASE_URL : string :=
  "https://" ++ SHOPIFY_STORE ++ ".myshopify.com/admin/api/" ++ API_VERSION ++ "/".

(** [while links.get("next"): ...].  Every turn consumes at least one
    scripted outcome, so the number of outcomes left bounds the number
    of turns: [fuel] is that bound.  A turn that starts at [fuel = 0]
    finds the script empty, and its request ends the run. *)
Fixpoint follow_next (fuel : nat) (item_key : option string)
    (all_items : list (fetched A)) (links : gmap string string)
  : M (http A) (list (fetched A)) :=
  match truthy (links !! "next") with
  | None => ret all_items
  | Some next_url =>
      match fuel with
      | O =>
          request_with_retries next_url None "GET" default_max_retries ;;
          raise ScriptExhausted
      | S fuel' =>
          resp <- request_with_retries next_url None "GET" default_max_retries ;;
          data <- resp_json resp ;;
          links' <- lift (response_links resp) ;;
          follow_next fuel' item_key (all_items ++ page_items item_key data) links'
      end
  end.

Definition fetch_all_rest (endpoint : string)
    (params : option (list (string * pval))) (item_key : option string)
  : M (http A) (list (fetched A)) :=
  let url := urljoin BASE_URL endpoint in
  let params := setdefault "limit" (PInt 250) (default [] params) in
  resp <- request_with_retries url (Some params) "GET" default_max_retries ;;
  data <- resp_json resp ;;
  links <- lift (response_links resp) ;;
  fuel <- gets (fun h => length (script h)) ;;
  follow_next fuel item_key (page_items item_key data) links.
End FetchAllRest.

(* ===================================================================== *)
(** ** Remote records *)
(* ===================================================================== *)

(** A key of a JSON object whose absence the code tells from [null]. *)
Inductive field (A : Type) : Type :=
  | Absent
  | Null
  | Val (a : A).
Arguments Absent {A}.
Arguments Null {A}.
Arguments Val {A} a.

(** [d[k]]: [KeyError] when the key is absent, [None] for [null]. *)
Definition getitem {A} (f : field A) : pyres (option A) :=
  match f with
  | Absent => Raise KeyError
  | Null => Ok None
  | Val a => Ok (Some a)
  end.

(** [d.get(k)]. *)
Definition get {A} (f : field A) : option A :=
  match f with
  | Val a => Some a
  | _ => None
  end.

(** [d.get(k, default)]: the default stands in for an absent key only. *)
Definition get_default {A} (f : field A) (d : A) : option A :=
  match f with
  | Absent => Some d
  | Null => None
  | Val a => Some a
  end.

(** A JSON scalar other than [null]. *)
Inductive scalar : Type :=
  | SInt (z : Z)
  | SFloat (f : float)
  | SStr (s : string)
  | SBool (b : bool).

Record variant : Type := {
  v_id : field Z;
  v_title : option string;
  v_sku : option string;
  v_price : option scalar;
  v_compare_at_price : option scalar;
  v_position : option Z;
  v_option1 : option string;
  v_option2 : option string;
  v_option3 : option string;
  v_created_at : option string;
  v_updated_at : option string
}.

Record product : Type := {
  p_id : field Z;
  p_title : option string;
  p_vendor : option string;
  p_product_type : option string;
  p_created_at : option string;
  p_updated_at : option string;
  p_variants : field (list variant)
}.

Record customer : Type := {
  c_id : field Z;
  c_first_name : option string;
  c_last_name : option string;
  c_email : option string;
  c_phone : option string;
  c_created_at : option string;
  c_updated_at : option string
}.

Record line_item : Type := {
  li_id : field Z;
  li_product_id : option Z;
  li_variant_id : option Z;
  li_title : option string;
  li_quantity : field Z;
  li_price : field scalar;
  li_sku : option string
}.

Record order : Type := {
  o_id : field Z;
  o_order_number : option Z;
  o_customer : option customer;
  o_email : option string;
  o_total_price : field scalar;
  o_currency : option string;
  o_created_at : option string;
  o_updated_at : option string;
  o_financial_status : option string;
  o_fulfillment_status : option string;
  o_line_items : field (list line_item)
}.

(* ===================================================================== *)
(** ** [database.py]: the store *)
(* ===================================================================== *)

(** The rows, one record per table of [init_db]; the key of the map that
    holds them is the [id INTEGER PRIMARY KEY] column.  A column declared
    [NOT NULL] has no [option]. *)
Record product_row : Type := {
  pr_title : option string;
  pr_vendor : option string;
  pr_product_type : option string;
  pr_created_at : option string;
  pr_updated_at : option string;
  pr_raw_json : product
}.

Record variant_row : Type := {
  vr_product_id : Z;
  vr_title : option string;
  vr_sku : option string;
  vr_price : option scalar;
  vr_compare_at_price : option scalar;
  vr_position : option Z;
  vr_option1 : option string;
  vr_option2 : option string;
  vr_option3 : option string;
  vr_created_at : option string;
  vr_updated_at : option string;
  vr_raw_json : variant
}.

Record customer_row : Type := {
  cr_first_name : option string;
  cr_last_name : option string;
  cr_email : option string;
  cr_phone : option string;
  cr_created_at : option string;
  cr_updated_at : option string;
  cr_raw_json : customer
}.

Record order_row : Type := {
  or_order_number : option Z;
  or_customer_id : option Z;
  or_email : option string;
  or_total_price : option float;
  or_currency : option string;
  or_created_at : option string;
  or_updated_at : option string;
  or_financial_status : option string;
  or_fulfillment_status : option string;
  or_raw_json : order
}.

Record line_item_row : Type := {
  lr_order_id : Z;
  lr_product_id : option Z;
  lr_variant_id : option Z;
  lr_title : option string;
  lr_quantity : option Z;
  lr_price : option float;
  lr_sku : option string;
  lr_raw_json : line_item
}.

Record database : Type := {
  products : gmap Z product_row;
  product_variants : gmap Z variant_row;
  customers : gmap Z customer_row;
  orders : gmap Z order_row;
  line_items : gmap Z line_item_row;
  metadata : gmap string string
}.

Definition empty_database : database :=
  {| products := ∅; product_variants := ∅; customers := ∅; orders := ∅;
     line_items := ∅; metadata := ∅ |}.

(** The largest rowid in use. *)
Definition max_rowid {R} (t : gmap Z R) : option Z :=
  map_fold (fun k _ acc => Some (from_option (Z.max k) k acc)) None t.

(** The rowid SQLite gives a row inserted with a [NULL] primary key: 1 in
    an empty table, else one more than the largest in use. *)
Definition next_rowid {R} (t : gmap Z R) : Z :=
  from_option (fun m => m + 1) 1 (max_rowid t).

(** [INSERT OR REPLACE INTO t (id, ...) VALUES (?, ...)]: the row replaces
    the row with the same [id]; a [NULL] id takes a fresh rowid. *)
Definition insert_or_replace {R} (id : option Z) (row : R) (t : gmap Z R)
  : gmap Z R :=
  <[default (next_rowid t) id := row]> t.

(** A [NULL] bound to a [NOT NULL] column without default: the statement
    fails with [sqlite3.IntegrityError]. *)
Definition not_null {A} (v : option A) : pyres A :=
  match v with
  | Some a => Ok a
  | None => Raise IntegrityError
  end.

Definition set_products (f : gmap Z product_row -> gmap Z product_row)
    (d : database) : database :=
  {| products := f (products d); product_variants := product_variants d;
     customers := customers d; orders := orders d;
     line_items := line_items d; metadata := metadata d |}.

Definition set_product_variants (f : gmap Z variant_row -> gmap Z variant_row)
    (d : database) : database :=
  {| products := products d; product_variants := f (product_variants d);
     customers := customers d; orders := orders d;
     line_items := line_items d; metadata := metadata d |}.

Definition set_customers (f : gmap Z customer_row -> gmap Z customer_row)
    (d : database) : database :=
  {| products := products d; product_variants := product_variants d;
     customers := f (customers d); orders := orders d;
     line_items := line_items d; metadata := metadata d |}.

Definition set_orders (f : gmap Z order_row -> gmap Z order_row)
    (d : database) : database :=
  {| products := products d; product_variants := product_variants d;
     customers := customers d; orders := f (orders d);
     line_items := line_items d; metadata := metadata d |}.

Definition set_line_items (f : gmap Z line_item_row -> gmap Z line_item_row)
    (d : database) : database :=
  {| products := products d; product_variants := product_variants d;
     customers := customers d; orders := orders d;
     line_items := f (line_items d); metadata := metadata d |}.

Definition set_metadata (f : gmap string string -> gmap string string)
    (d : database) : database :=
  {| products := products d; product_variants := product_variants d;
     customers := customers d; orders := orders d;
     line_items := line_items d; metadata := f (metadata d) |}.

(** The state of a run: the committed store, what each endpoint of the
    API will answer, and the trace of requests and sleeps. *)
Record world : Type := {
  db : database;
  products_api : list (outcome product);
  customers_api : list (outcome customer);
  orders_api : list (outcome order);
  events : list event
}.

Definition set_db (f : database -> database) (w : world) : world :=
  {| db := f (db w); products_api := products_api w;
     customers_api := customers_api w; orders_api := orders_api w;
     events := events w |}.

Definition products_http (w : world) : http product :=
  {| script := products_api w; trace := events w |}.
Definition set_products_http (h : http product) (w : world) : world :=
  {| db := db w; products_api := script h; customers_api := customers_api w;
     orders_api := orders_api w; events := trace h |}.

Definition customers_http (w : world) : http customer :=
  {| script := customers_api w; trace := events w |}.
Definition set_customers_http (h : http customer) (w : world) : world :=
  {| db := db w; products_api := products_api w; customers_api := script h;
     orders_api := orders_api w; events := trace h |}.

Definition orders_http (w : world) : http order :=
  {| script := orders_api w; trace := events w |}.
Definition set_orders_http (h : http order) (w : world) : world :=
  {| db := db w; products_api := products_api w;
     customers_api := customers_api w; orders_api := script h;
     events := trace h |}.

(** [init_db]: [CREATE TABLE IF NOT EXISTS] for the six tables, then
    [migrate_schema], which adds the columns an older file lacks.  None of
    these statements reads or writes a row, and the store of the model
    always has the six tables. *)
Definition init_db : M world unit := ret tt.

(** [db_set_metadata]: its own connection, one [INSERT OR REPLACE] keyed by
    [key], committed at once. *)
Definition db_set_metadata (key value : string) : M world unit :=
  modify (set_db (set_metadata (fun m => <[key := value]> m))).

(** [db_get_metadata]. *)
Definition db_get_metadata (key : string) : M world (option string) :=
  gets (fun w => metadata (db w) !! key).

(** [sqlite3.connect(DB_FILE)]: the connection sees the committed store. *)
Definition sqlite3_connect : M world database := gets db.

(** [conn.commit()]. *)
Definition commit (conn : database) : M world unit :=
  modify (set_db (fun _ => conn)).

(* ===================================================================== *)
(** ** [sync.py]: the three passes *)
(* ===================================================================== *)

(** [d[k] = v]. *)
Fixpoint dict_set {V} (k : string) (v : V) (d : list (string * V))
  : list (string * V) :=
  match d with
  | [] => [(k, v)]
  | (k', v') :: d' =>
      if String.eqb k' k then (k, v) :: d' else (k', v') :: dict_set k v d'
  end.

(** [try: r  except Exception: d]. *)
Definition except_exception {A} (r : pyres A) (d : A) : A :=
  match r with
  | Ok a => a
  | Raise _ => d
  end.

(** [for x in v] needs an iterable: [None] raises [TypeError]. *)
Definition iter {A} (v : option (list A)) : pyres (list A) :=
  match v with
  | Some l => Ok l
  | None => Raise TypeError
  end.

(** The variables of the [for] loop of a pass: the open connection with
    its uncommitted writes, the two counters, and [max_updated]. *)
Record loop_vars : Type := {
  conn : database;
  saved : Z;
  saved_children : Z;
  max_updated : option datetime
}.

Definition execute (f : database -> database) (st : loop_vars) : loop_vars :=
  {| conn := f (conn st); saved := saved st;
     saved_children := saved_children st; max_updated := max_updated st |}.

Definition count_saved (st : loop_vars) : loop_vars :=
  {| conn := conn st; saved := saved st + 1;
     saved_children := saved_children st; max_updated := max_updated st |}.

Definition count_child (st : loop_vars) : loop_vars :=
  {| conn := conn st; saved := saved st;
     saved_children := saved_children st + 1; max_updated := max_updated st |}.

Definition set_max_updated (m : option datetime) (st : loop_vars) : loop_vars :=
  {| conn := conn st; saved := saved st;
     saved_children := saved_children st; max_updated := m |}.

Definition loop_start (c : database) : loop_vars :=
  {| conn := c; saved := 0; saved_children := 0; max_updated := None |}.

Section Sync.
Context `{RT : Runtime}.

(** [dt.astimezone(timezone.utc)]: a naive value is read in the host's
    zone. *)
Definition astimezone_utc (dt : datetime) : datetime :=
  {| wall := wall dt - default local_utcoffset (utcoffset dt) * us_per_second;
     utcoffset := Some 0 |}.

Definition isoformat_for_api (dt : datetime) : string :=
  isoformat (replace_tzinfo_none (astimezone_utc dt)) ++ "Z".

(** [float(v)] on what [d.get(k, 0.0)] returned. *)
Definition py_float (v : option scalar) : pyres float :=
  match v with
  | None => Raise TypeError
  | Some (SFloat f) => Ok f
  | Some (SInt z) =>
      match float_of_int z with
      | Some f => Ok f
      | None => Raise OverflowError
      end
  | Some (SBool b) => Ok (if b then 1%float else 0%float)
  | Some (SStr s) =>
      match float_of_str s with
      | Some f => Ok f
      | None => Raise ValueError
      end
  end.

(** [try: price = float(d.get(k, 0.0))  except Exception: price = None]. *)
Definition coerce_price (f : field scalar) : option float :=
  except_exception
    (pbind (py_float (get_default f (SFloat 0%float))) (fun x => Ok (Some x)))
    None.

(** The block that opens every pass:
    [if incremental and last_sync: ... params["updated_at_min"] = ...]. *)
Definition with_updated_at_min (incremental : bool)
    (last_sync : option string) (params : list (string * pval))
  : pyres (list (string * pval)) :=
  match (if incremental then truthy last_sync else None) with
  | Some s =>
      match fromisoformat s with
      | Some last_dt =>
          let last_dt := sub_seconds last_dt 60 in
          Ok (dict_set "updated_at_min" (PStr (isoformat_for_api last_dt)) params)
      | None => Raise ValueError
      end
  | None => Ok params
  end.

(** The block that closes every turn of the loop:
    [if updated_at: try: dt = ...; if not max_updated or dt > max_updated:
     max_updated = dt  except Exception: pass]. *)
Definition track_max_updated (updated_at : option string)
    (max_updated : option datetime) : option datetime :=
  match truthy updated_at with
  | None => max_updated
  | Some s =>
      match fromisoformat (replace "Z" "+00:00" s) with
      | None => max_updated
      | Some dt =>
          match max_updated with
          | None => Some dt
          | Some m =>
              match datetime_gt dt m with
              | Ok true => Some dt
              | _ => max_updated
              end
          end
      end
  end.

Open Scope py_scope.

(** *** Products and variants *)

Definition store_variant (pid : option Z) (v : variant) (st : loop_vars)
  : pyres loop_vars :=
  let st := count_child st in
  vid <~ getitem (v_id v) ;;
  product_id <~ not_null pid ;;
  Ok (execute (set_product_variants (insert_or_replace vid
        {| vr_product_id := product_id;
           vr_title := v_title v;
           vr_sku := v_sku v;
           vr_price := v_price v;
           vr_compare_at_price := v_compare_at_price v;
           vr_position := v_position v;
           vr_option1 := v_option1 v;
           vr_option2 := v_option2 v;
           vr_option3 := v_option3 v;
           vr_created_at := v_created_at v;
           vr_updated_at := v_updated_at v;
           vr_raw_json := v |})) st).

Definition store_product (p : product) (st : loop_vars) : pyres loop_vars :=
  let st := count_saved st in
  pid <~ getitem (p_id p) ;;
  let updated_at := p_updated_at p in
  let st := execute (set_products (insert_or_replace pid
        {| pr_title := p_title p;
           pr_vendor := p_vendor p;
           pr_product_type := p_product_type p;
           pr_created_at := p_created_at p;
           pr_updated_at := updated_at;
           pr_raw_json := p |})) st in
  variants <~ iter (get_default (p_variants p) []) ;;
  st <~ for_each (store_variant pid) variants st ;;
  Ok (set_max_updated (track_max_updated updated_at (max_updated st)) st).

(** *** Customers *)

Definition store_customer (c : customer) (st : loop_vars) : pyres loop_vars :=
  let st := count_saved st in
  cid <~ getitem (c_id c) ;;
  let updated_at := c_updated_at c in
  let st := execute (set_customers (insert_or_replace cid
        {| cr_first_name := c_first_name c;
           cr_last_name := c_last_name c;
           cr_email := c_email c;
           cr_phone := c_phone c;
           cr_created_at := c_created_at c;
           cr_updated_at := updated_at;
           cr_raw_json := c |})) st in
  Ok (set_max_updated (track_max_updated updated_at (max_updated st)) st).

(** *** Orders and line items *)

Definition store_line_item (oid : option Z) (li : line_item) (st : loop_vars)
  : pyres loop_vars :=
  let st := count_child st in
  let li_id := get (li_id li) in
  let product_id := li_product_id li in
  let variant_id := li_variant_id li in
  let quantity := get_default (li_quantity li) 0 in
  let price := coerce_price (li_price li) in
  order_id <~ not_null oid ;;
  Ok (execute (set_line_items (insert_or_replace li_id
        {| lr_order_id := order_id;
           lr_product_id := product_id;
           lr_variant_id := variant_id;
           lr_title := li_title li;
           lr_quantity := quantity;
           lr_price := price;
           lr_sku := li_sku li;
           lr_raw_json := li |})) st).

(** [customer = o.get("customer"); if customer: customer_id =
    customer.get("id")]: an embedded customer without keys is falsy and
    has no [id] either. *)
Definition order_customer_id (o : order) : option Z :=
  match o_customer o with
  | Some customer => get (c_id customer)
  | None => None
  end.

Definition store_order (o : order) (st : loop_vars) : pyres loop_vars :=
  let st := count_saved st in
  oid <~ getitem (o_id o) ;;
  let updated_at := o_updated_at o in
  let customer_id := order_customer_id o in
  let total_price := coerce_price (o_total_price o) in
  let st := execute (set_orders (insert_or_replace oid
        {| or_order_number := o_order_number o;
           or_customer_id := customer_id;
           or_email := o_email o;
           or_total_price := total_price;
           or_currency := o_currency o;
           or_created_at := o_created_at o;
           or_updated_at := updated_at;
           or_financial_status := o_financial_status o;
           or_fulfillment_status := o_fulfillment_status o;
           or_raw_json := o |})) st in
  line_items <~ iter (get_default (o_line_items o) []) ;;
  st <~ for_each (store_line_item oid) line_items st ;;
  Ok (set_max_updated (track_max_updated updated_at (max_updated st)) st).

(** One turn of [for p in items].  With an [item_key] every element is a
    record; the whole body of a response, which [fetch_all_rest] returns
    only without [item_key], has no integer [id] to store. *)
Definition store_item {A} (store : A -> loop_vars -> pyres loop_vars)
    (x : fetched A) (st : loop_vars) : pyres loop_vars :=
  match x with
  | Item a => store a st
  | Document d =>
      match dict_get "id" d with
      | None => Raise KeyError
      | Some _ => Raise InterfaceError
      end
  end.

Close Scope py_scope.
Open Scope m_scope.

(** The part of a pass after the fetch: connect, the loop over [items],
    [conn.commit()], the watermark, the count. *)
Definition store_pass {A} (store : A -> loop_vars -> pyres loop_vars)
    (key : string) (items : list (fetched A)) : M world Z :=
  c <- sqlite3_connect ;;
  st <- lift (for_each (store_item store) items (loop_start c)) ;;
  commit (conn st) ;;
  match max_updated st with
  | Some m => db_set_metadata key (isoformat m)
  | None => ret tt
  end ;;
  ret (saved st).

Definition store_products : list (fetched product) -> M world Z :=
  store_pass store_product "products_last_sync".
Definition store_customers : list (fetched customer) -> M world Z :=
  store_pass store_customer "customers_last_sync".
Definition store_orders : list (fetched order) -> M world Z :=
  store_pass store_order "orders_last_sync".

(** The part of a pass before the store step: the stored watermark, the
    query parameters, the fetch. *)
Definition fetch_products (incremental : bool)
  : M world (list (fetched product)) :=
  last_sync <- db_get_metadata "products_last_sync" ;;
  params <- lift (with_updated_at_min incremental last_sync
                    [("limit", PInt 250)]) ;;
  zoom products_http set_products_http
    (fetch_all_rest "products.json" (Some params) (Some "products")).

Definition fetch_and_store_products (incremental : bool) : M world Z :=
  items <- fetch_products incremental ;;
  store_products items.

Definition fetch_customers (incremental : bool)
  : M world (list (fetched customer)) :=
  last_sync <- db_get_metadata "customers_last_sync" ;;
  params <- lift (with_updated_at_min incremental last_sync
                    [("limit", PInt 250)]) ;;
  zoom customers_http set_customers_http
    (fetch_all_rest "customers.json" (Some params) (Some "customers")).

Definition fetch_and_store_customers (incremental : bool) : M world Z :=
  items <- fetch_customers incremental ;;
  store_customers items.

Definition fetch_orders (incremental : bool) (status : string)
  : M world (list (fetched order)) :=
  last_sync <- db_get_metadata "orders_last_sync" ;;
  params <- lift (with_updated_at_min incremental last_sync
                    [("limit", PInt 250); ("status", PStr status)]) ;;
  zoom orders_http set_orders_http
    (fetch_all_rest "orders.json" (Some params) (Some "orders")).

Definition fetch_and_store_orders (incremental : bool) (status : string)
  : M world Z :=
  items <- fetch_orders incremental status ;;
  store_orders items.

(* =================================================================== *)
(** ** [main.py]: the orchestrator *)
(* =================================================================== *)

(** [run_full_sync]: schema, then the three passes in order; the
    [except Exception] clause logs and re-raises.  The steps after the
    passes (CSV export, analytics, the spreadsheet push) read the
    committed store and write outside it.  The result is the three
    counts of the closing log line. *)
Definition run_full_sync (incremental : bool) : M world (Z * Z * Z) :=
  init_db ;;
  products_count <- fetch_and_store_products incremental ;;
  customers_count <- fetch_and_store_customers incremental ;;
  orders_count <- fetch_and_store_orders incremental "any" ;;
  ret (products_count, customers_count, orders_count).
End Sync.

(* ===================================================================== *)
(** ** A reference runtime *)
(* ===================================================================== *)

(** A runtime to run the model on concrete inputs.  It agrees with CPython
    on the inputs the examples use: timestamps written
    [YYYY-MM-DDTHH:MM:SS], optionally followed by [.ffffff] and by
    [+HH:MM] or [-HH:MM]; decimal literals [digits] or [digits.digits] of
    at most fifteen digits; integers below 2^53; a host on UTC. *)

Fixpoint digits (acc : Z) (s : string) : option Z :=
  match s with
  | EmptyString => Some acc
  | String c s' =>
      if is_digit c then digits (10 * acc + digit_value c) s' else None
  end.

(** A run of exactly [n] digits starting at [i]. *)
Definition number_at (i n : nat) (s : string) : option Z :=
  let t := substring i n s in
  if (String.length t =? n)%nat then digits 0 t else None.

Definition char_at (i : nat) (s : string) : option ascii := String.get i s.

Definition in_range (lo hi v : Z) : option Z :=
  if (lo <=? v) && (v <=? hi) then Some v else None.

(** (year, month, day) to days since 1970-01-01. *)
Definition days_of_civil (y m d : Z) : Z :=
  let y' := if m <=? 2 then y - 1 else y in
  let era := y' / 400 in
  let yoe := y' mod 400 in
  let mp := (m + 9) mod 12 in
  let doy := (153 * mp + 2) / 5 + d - 1 in
  let doe := yoe * 365 + yoe / 4 - yoe / 100 + doy in
  era * 146097 + doe - 719468.

(** The [+HH:MM] suffix, or nothing. *)
Definition parse_offset (s : string) : option (option Z) :=
  match s with
  | EmptyString => Some None
  | String c t =>
      sign ← (if Ascii.eqb c "+" then Some 1
              else if Ascii.eqb c "-" then Some (-1) else None);
      hh ← number_at 0 2 t ≫= in_range 0 23;
      _ ← (if char_at 2 t is Some ":"%char then Some tt else None);
      mm ← number_at 3 2 t ≫= in_range 0 59;
      if (String.length t =? 5)%nat
      then Some (Some (sign * (hh * 3600 + mm * 60))) else None
  end.

(** The optional [.ffffff] and the offset. *)
Definition parse_fraction_offset (s : string) : option (Z * option Z) :=
  match s with
  | String "." t =>
      us ← number_at 0 6 t;
      off ← parse_offset (substring 6 (String.length t - 6) t);
      Some (us, off)
  | _ => off ← parse_offset s; Some (0, off)
  end.

Definition reference_fromisoformat (s : string) : option datetime :=
  y ← number_at 0 4 s ≫= in_range 1 9999;
  _ ← (if char_at 4 s is Some "-"%char then Some tt else None);
  m ← number_at 5 2 s ≫= in_range 1 12;
  _ ← (if char_at 7 s is Some "-"%char then Some tt else None);
  d ← number_at 8 2 s ≫= in_range 1 31;
  _ ← (if char_at 10 s is Some "T"%char then Some tt else None);
  hh ← number_at 11 2 s ≫= in_range 0 23;
  _ ← (if char_at 13 s is Some ":"%char then Some tt else None);
  mm ← number_at 14 2 s ≫= in_range 0 59;
  _ ← (if char_at 16 s is Some ":"%char then Some tt else None);
  ss ← number_at 17 2 s ≫= in_range 0 59;
  '(us, off) ← parse_fraction_offset (substring 19 (String.length s - 19) s);
  _ ← (let '(y', m', d') := civil_of_days (days_of_civil y m d) in
       if (y' =? y) && (m' =? m) && (d' =? d) then Some tt else None);
  Some {| wall := ((days_of_civil y m d * 86400 + hh * 3600 + mm * 60 + ss)
                   * us_per_second + us);
          utcoffset := off |}.

Definition float_of_Z (z : Z) : float :=
  if z <? 0 then PrimFloat.opp (PrimFloat.of_uint63 (Uint63.of_Z (- z)))
  else PrimFloat.of_uint63 (Uint63.of_Z z).

Definition reference_float_of_int (z : Z) : option float :=
  if Z.abs z <? 2 ^ 53 then Some (float_of_Z z) else None.

(** [digits] or [digits.digits], with an optional sign. *)
Definition reference_float_of_str (s : string) : option float :=
  let t := strip s in
  let '(neg, t) := match t with
                   | String "-" r => (true, r)
                   | String "+" r => (false, r)
                   | _ => (false, t)
                   end in
  parts ← (match split "." t with
           | [a] => Some (a, "")
           | [a; b] => Some (a, b)
           | _ => None
           end);
  let '(a, b) := parts in
  if ((String.length a + String.length b =? 0)
      || (15 <? String.length a + String.length b))%nat then None
  else
    n ← digits 0 (a ++ b);
    let v := PrimFloat.div (float_of_Z n)
               (float_of_Z (10 ^ Z.of_nat (String.length b))) in
    Some (if neg then PrimFloat.opp v else v).

Definition reference_runtime : Runtime :=
  {| SHOPIFY_STORE := "example-store";
     fromisoformat := reference_fromisoformat;
     float_of_str := reference_float_of_str;
     float_of_int := reference_float_of_int;
     local_utcoffset := 0 |}.

(* ===================================================================== *)
(** ** Vocabulary of the properties *)
(* ===================================================================== *)

(** A status that [request_with_retries] returns to its caller: neither
    429 nor one that [raise_for_status] rejects.  Every 2xx status is one. *)
Definition status_ok (st : Z) : bool :=
  negb (st =? 429) && negb ((400 <=? st) && (st <? 600)).

(** The sleep an outcome causes when the loop retries after it, with the
    backoff value [ss] current at that attempt; [None] when the loop does
    not retry after it. *)
Definition retried {A} (o : outcome A) (ss : Z) : option Z :=
  match o with
  | Throws e => if is_request_exception e then Some ss else None
  | Responds r =>
      if status_code r =? 429 then
        match headers_get "Retry-After" (headers r) with
        | None => Some ss
        | Some s =>
            match int_of_str s with
            | Some k => if 0 <=? k then Some k else None
            | None => None
            end
        end
      else if status_ok (status_code r) then None else Some ss
  end.

(** The sleeps of a run of retried outcomes, the backoff starting at [ss]
    and doubling after each of them. *)
Fixpoint retry_sleeps {A} (fails : list (outcome A)) (ss : Z)
  : option (list Z) :=
  match fails with
  | [] => Some []
  | o :: fails' =>
      k ← retried o ss;
      ks ← retry_sleeps fails' (ss * 2);
      Some (k :: ks)
  end.

(** The trace of these attempts: a request, then its sleep. *)
Definition retry_events (method url : string)
    (params : option (list (string * pval))) (sleeps : list Z) : list event :=
  flat_map (fun k => [EvRequest method url params; EvSleep k]) sleeps.

(** [ch in s]. *)
Fixpoint occurs (ch : ascii) (s : string) : bool :=
  match s with
  | EmptyString => false
  | String c s' => Ascii.eqb c ch || occurs ch s'
  end.

(** A URL as a [Link] header carries it between [<] and [>]: not empty,
    and free of the characters that end the URL or separate the links. *)
Definition link_url (u : string) : bool :=
  negb (String.eqb u "") && negb (occurs "," u) && negb (occurs ";" u)
  && negb (occurs ">" u).

(** One link of the header, [<url>; rel="name"]. *)
Definition link_value (u rel : string) : string :=
  "<" ++ u ++ ">; rel=" ++ String dquote (rel ++ String dquote "").

(** The [Link] header of a page that has the given previous and next
    pages, as the API writes it; a page without neighbours has none. *)
Definition link_header (prev next : option string) : option string :=
  match prev, next with
  | None, None => None
  | Some v, None => Some (link_value v "previous")
  | None, Some u => Some (link_value u "next")
  | Some v, Some u =>
      Some (link_value v "previous" ++ ", " ++ link_value u "next")
  end.

(** A page of a paginated answer: a 2xx response with a JSON body whose
    [Link] header names the given neighbours. *)
Definition is_page {A} (r : response A) (prev next : option string) : Prop :=
  200 <= status_code r < 300
  /\ is_Some (json r)
  /\ from_option (fun v => link_url v = true) True prev
  /\ from_option (fun u => link_url u = true) True next
  /\ headers_get "Link" (headers r) = link_header prev next.

(** The records of a page: the array under [key]. *)
Definition items_of {A} (key : string) (r : response A) : list A :=
  default [] (json r ≫= dict_get key).

(** The record of a JSON field that holds one. *)
Definition has_id (f : field Z) : bool :=
  match f with
  | Val _ => true
  | _ => false
  end.

Definition not_null_id (f : field Z) : bool :=
  match f with
  | Null => false
  | _ => true
  end.

Definition is_null {A} (f : field A) : bool :=
  match f with
  | Null => true
  | _ => false
  end.

(** The nested records of a parent: the array, or none. *)
Definition children {A} (f : field (list A)) : list A :=
  match f with
  | Val l => l
  | _ => []
  end.

(** A property of the records among the fetched items. *)
Definition item_holds {A} (P : A -> bool) (x : fetched A) : bool :=
  match x with
  | Item a => P a
  | Document _ => true
  end.

(** A record that carries its identity: the parent's [id] is not null,
    and neither is the [id] of any variant; a line item, whose [id] is read
    with [get], has one. *)
Definition product_identified (p : product) : bool :=
  not_null_id (p_id p)
  && forallb (fun v => not_null_id (v_id v)) (children (p_variants p)).

Definition customer_identified (c : customer) : bool := not_null_id (c_id c).

Definition order_identified (o : order) : bool :=
  not_null_id (o_id o)
  && forallb (fun li => has_id (li_id li)) (children (o_line_items o)).

(** The rows of [d1] laid over the store [d2], table by table. *)
Definition db_union (d1 d2 : database) : database :=
  {| products := products d1 ∪ products d2;
     product_variants := product_variants d1 ∪ product_variants d2;
     customers := customers d1 ∪ customers d2;
     orders := orders d1 ∪ orders d2;
     line_items := line_items d1 ∪ line_items d2;
     metadata := metadata d1 ∪ metadata d2 |}.

(** The loop variables of a run that started on [c] instead of on the
    empty store. *)
Definition overlay (c : database) (st : loop_vars) : loop_vars :=
  execute (fun d => db_union d c) st.

Definition overlay_res (c : database) (r : pyres loop_vars) : pyres loop_vars :=
  match r with
  | Ok st => Ok (overlay c st)
  | Raise e => Raise e
  end.

(** The position of a value on the time line by which [datetime_gt]
    compares it with a value of its kind: the instant for an aware value,
    the wall clock for a naive one. *)
Definition sort_key (d : datetime) : Z :=
  wall d - default 0 (utcoffset d) * us_per_second.

(** Both aware or both naive: the values [datetime_gt] can compare. *)
Definition same_kind (a b : datetime) : bool :=
  match utcoffset a, utcoffset b with
  | Some _, Some _ | None, None => true
  | _, _ => false
  end.

(** [max_updated] after one more usable timestamp [t]. *)
Definition newer (m : option datetime) (t : datetime) : option datetime :=
  match m with
  | None => Some t
  | Some m0 =>
      if same_kind t m0 && (sort_key m0 <? sort_key t) then Some t else Some m0
  end.

Section WatermarkVocabulary.
Context `{RT : Runtime}.

(** The timestamp the loop takes from an [updated_at] field, when it
    takes one: the field is a non-empty string that parses. *)
Definition usable_timestamp (updated_at : option string) : option datetime :=
  match truthy updated_at with
  | Some s => fromisoformat (replace "Z" "+00:00" s)
  | None => None
  end.

(** The usable timestamps of the fetched records, in fetch order. *)
Definition usable_timestamps {A} (updated_at : A -> option string)
    (items : list (fetched A)) : list datetime :=
  omap (fun x => match x with
                 | Item a => usable_timestamp (updated_at a)
                 | Document _ => None
                 end) items.

(** The watermark under [key] after a pass that took the timestamps [ts]
    from its records and went from [w] to [w']: unchanged when there is
    none; else the text of one of them that none of those comparable
    with it exceeds. *)
Definition watermark_after_pass (key : string) (ts : list datetime)
    (w w' : world) : Prop :=
  match ts with
  | [] => metadata (db w') !! key = metadata (db w) !! key
  | _ :: _ =>
      exists m,
        metadata (db w') !! key = Some (isoformat m)
        /\ In m ts
        /\ forall t, In t ts -> same_kind t m = true ->
                     sort_key t <= sort_key m
  end.

(** What a turn of a loop does to the variables the watermark depends
    on. *)
Definition tracks {A} (store : A -> loop_vars -> pyres loop_vars)
    (updated_at : A -> option string) : Prop :=
  forall a st st',
    store a st = Ok st' ->
    max_updated st' = track_max_updated (updated_at a) (max_updated st)
    /\ metadata (conn st') = metadata (conn st).

(** The instant of a value, in microseconds from the epoch, a naive
    value being read in the host's zone as [astimezone] reads it. *)
Definition utc_instant (d : datetime) : Z :=
  wall d - default local_utcoffset (utcoffset d) * us_per_second.
End WatermarkVocabulary.

(** The UTC ISO 8601 text of an instant, with the [Z] designator. *)
Definition utc_iso8601 (instant : Z) : string :=
  isoformat {| wall := instant; utcoffset := None |} ++ "Z".

Section LookbackVocabulary.
Context `{RT : Runtime}.

(** The first thing a fetch that goes from [w] to [w1] does is a GET of
    the endpoint with the parameters [base], followed by the
    [updated_at_min] filter when there is one. *)
Definition sends_filter (w w1 : world) (endpoint : string)
    (base : list (string * pval)) (filter : option string) : Prop :=
  exists evs,
    events w1
    = (events w
       ++ EvRequest "GET" (urljoin BASE_URL endpoint)
            (Some match filter with
                  | Some f => (base ++ [("updated_at_min", PStr f)])%list
                  | None => base
                  end)
          :: evs)%list.

(** What the fetch of a pass sends, by the mode and the stored
    watermark: with a watermark and in incremental mode, the filter is
    the watermark minus 60 seconds, written in UTC; a stored text that is
    not a timestamp is a [ValueError] before any request; without a
    watermark, or in full mode, no filter is sent. *)
Definition lookback_request {A} (incremental : bool)
    (last_sync : option string) (endpoint : string)
    (base : list (string * pval)) (w w1 : world) (r : pyres A) : Prop :=
  match (if incremental then truthy last_sync else None) with
  | Some s =>
      match fromisoformat s with
      | Some d =>
          sends_filter w w1 endpoint base
            (Some (utc_iso8601 (utc_instant d - 60 * us_per_second)))
      | None => r = Raise ValueError /\ w1 = w
      end
  | None => sends_filter w w1 endpoint base None
  end.
End LookbackVocabulary.

Section RowsWritten.
Context `{RT : Runtime}.

(** The row [store_order] writes for an order. *)
Definition order_row_of (o : order) : order_row :=
  {| or_order_number := o_order_number o;
     or_customer_id := order_customer_id o;
     or_email := o_email o;
     or_total_price := coerce_price (o_total_price o);
     or_currency := o_currency o;
     or_created_at := o_created_at o;
     or_updated_at := o_updated_at o;
     or_financial_status := o_financial_status o;
     or_fulfillment_status := o_fulfillment_status o;
     or_raw_json := o |}.

(** The row [store_line_item] writes for a line item of order [oid]. *)
Definition line_item_row_of (oid : Z) (li : line_item) : line_item_row :=
  {| lr_order_id := oid;
     lr_product_id := li_product_id li;
     lr_variant_id := li_variant_id li;
     lr_title := li_title li;
     lr_quantity := get_default (li_quantity li) 0;
     lr_price := coerce_price (li_price li);
     lr_sku := li_sku li;
     lr_raw_json := li |}.

(** An order the loop can store: one that carries its [id] and whose
    [line_items], when present, is an array. *)
Definition order_storable (o : order) : bool :=
  has_id (o_id o) && negb (is_null (o_line_items o)).
End RowsWritten.

(** *** Data of the examples *)

Definition an_order (id : field Z) (total_price : field scalar)
    (updated_at : option string) (lis : field (list line_item)) : order :=
  {| o_id := id; o_order_number := None; o_customer := None;
     o_email := None; o_total_price := total_price; o_currency := Some "USD";
     o_created_at := None; o_updated_at := updated_at;
     o_financial_status := None; o_fulfillment_status := None;
     o_line_items := lis |}.

Definition a_line_item (id : field Z) (price : field scalar) : line_item :=
  {| li_id := id; li_product_id := None; li_variant_id := None;
     li_title := Some "item"; li_quantity := Val 1; li_price := price;
     li_sku := None |}.

Definition a_product (id : field Z) (updated_at : option string) : product :=
  {| p_id := id; p_title := Some "product"; p_vendor := None;
     p_product_type := None; p_created_at := None;
     p_updated_at := updated_at; p_variants := Absent |}.

(** A page of a paginated answer: status 200, the records under [key],
    and the [Link] header when the page has one. *)
Definition page_of {A} (key : string) (items : list A) (link : option string)
  : response A :=
  {| status_code := 200;
     headers := match link with
                | Some l => [("Link", l)]
                | None => []
                end;
     json := Some [(key, items)] |}.

(** Products numbered [first .. first + n - 1], all updated at the same
    time. *)
Definition products_numbered (first n : Z) (updated_at : string)
  : list product :=
  map (fun i => a_product (Val i) (Some updated_at)) (seqZ first n).

(** The feed of the end-to-end scenario of the design document: a first
    page of 250 products that names a next page, and a last page of 10,
    one of which is the most recently updated of the 260. *)
Definition two_page_feed : list (outcome product) :=
  let next :=
    "https://example-store.myshopify.com/admin/api/2024-10/products.json?limit=250&page_info=p2" in
  [Responds (page_of "products"
               (products_numbered 1 250 "2024-03-01T10:00:00-05:00")
               (link_header None (Some next)));
   Responds (page_of "products"
               (products_numbered 251 9 "2024-03-01T09:00:00-05:00"
                ++ [a_product (Val 260) (Some "2024-03-02T08:30:00Z")])
               (link_header (Some next) None))].

Definition empty_world : world :=
  {| db := empty_database; products_api := []; customers_api := [];
     orders_api := []; events := [] |}.

(** *** Further vocabulary of the fetch client *)

Definition is_request (ev : event) : bool :=
  match ev with
  | EvRequest _ _ _ => true
  | EvSleep _ => false
  end.

(** The requests and the sleeps among the events of a run, and the time
    the run has slept in all. *)
Definition count_requests (evs : list event) : nat :=
  length (List.filter is_request evs).

Definition count_sleeps (evs : list event) : nat :=
  length (List.filter (fun ev => negb (is_request ev)) evs).

Fixpoint slept (evs : list event) : Z :=
  match evs with
  | [] => 0
  | EvSleep k :: evs' => k + slept evs'
  | EvRequest _ _ _ :: evs' => slept evs'
  end.

(** An event of one call of [request_with_retries]: the request of the
    call, or a sleep. *)
Definition retry_event (method url : string)
    (params : option (list (string * pval))) (ev : event) : Prop :=
  match ev with
  | EvRequest m u p => m = method /\ u = url /\ p = params
  | EvSleep k => 0 <= k
  end.

(** An outcome after which the loop sleeps the current backoff value: a
    transport error, or an error status other than 429. *)
Definition plain_failure {A} (o : outcome A) : bool :=
  match o with
  | Throws e => is_request_exception e
  | Responds r =>
      negb (status_code r =? 429) && negb (status_ok (status_code r))
  end.

(** The backoff values of [n] retries in a row: each the double of the
    one before. *)
Fixpoint backoff (ss : Z) (n : nat) : list Z :=
  match n with
  | O => []
  | S n' => ss :: backoff (ss * 2) n'
  end.

(** What the fetch loop reads off a response it goes on from: a 2xx
    status, a JSON body, and a [Link] header that parses, with the given
    next URL ([None]: no next relation, or an empty URL). *)
Definition advertises {A} (r : response A) (next : option string) : Prop :=
  200 <= status_code r < 300
  /\ is_Some (json r)
  /\ exists links,
       response_links r = Ok links /\ truthy (links !! "next") = next.

(** The error a 2xx response makes the fetch loop raise, if any: its body
    is not JSON, or its [Link] header does not parse. *)
Definition page_error {A} (r : response A) : option exn :=
  match json r with
  | None => Some JSONDecodeError
  | Some _ =>
      match response_links r with
      | Raise e => Some e
      | Ok _ => None
      end
  end.

(** The elements a page adds to the result. *)
Definition page_elements {A} (key : option string) (r : response A)
  : list (fetched A) :=
  page_items key (default [] (json r)).

(** The URLs the loop requests while it goes through [pages], starting
    from the next URL [u], and the URL it is left with. *)
Fixpoint requested {A} (u : string) (pages : list (response A * string))
  : list string :=
  match pages with
  | [] => []
  | p :: ps => u :: requested p.2 ps
  end.

Fixpoint pending {A} (u : string) (pages : list (response A * string))
  : string :=
  match pages with
  | [] => u
  | p :: ps => pending p.2 ps
  end.

(** An event of one call of [fetch_all_rest] after its first request: a
    [GET] without query parameters, a repetition of the first request,
    or a sleep. *)
Definition fetch_event (url : string) (sent : list (string * pval))
    (ev : event) : Prop :=
  match ev with
  | EvRequest m u p => m = "GET" /\ (p = None \/ (u = url /\ p = Some sent))
  | EvSleep k => 0 <= k
  end.

(** *** [database.py]: the schema *)

(** The statements of [init_db] and of [migrate_schema] act on the schema
    of the file, which the passes never change: it is modelled on its own,
    a table name mapped to the names of its columns in their order.  The
    scripts write every table name in lower case, so names of tables are
    compared as they are. *)
Module Schema.

Abbreviation schema := (gmap string (list string)).

(** SQLite compares column names without regard to ASCII case. *)
Definition same_column (a b : string) : bool := String.eqb (lower a) (lower b).

(** [t in s] for strings. *)
Fixpoint contains (t s : string) : bool :=
  String.prefix t s
  || match s with
     | EmptyString => false
     | String _ s' => contains t s'
     end.

(** [PRAGMA table_info(table_name)]: one row per column, its name at
    index 1; no row when there is no such table. *)
Definition table_info (conn : schema) (table_name : string) : list string :=
  default [] (conn !! table_name).

Definition column_exists (conn : schema) (table_name column_name : string)
  : bool :=
  existsb (String.eqb column_name) (table_info conn table_name).

(** [ALTER TABLE t ADD COLUMN c definition]; [None] is the
    [sqlite3.OperationalError] of a statement SQLite refuses: no such
    table, a column of that name (up to case) is there already, or the
    new column would be a [PRIMARY KEY]. *)
Definition alter_table_add_column (table_name column_name
    column_definition : string) (conn : schema) : option schema :=
  match conn !! table_name with
  | None => None
  | Some cols =>
      if existsb (same_column column_name) cols then None
      else if contains "primary key" (lower column_definition) then None
      else Some (<[table_name := (cols ++ [column_name])%list]> conn)
  end.

Definition add_column_if_missing (table_name column_name
    column_definition : string) (conn : schema) : bool * schema :=
  if negb (column_exists conn table_name column_name) then
    match alter_table_add_column table_name column_name column_definition
            conn with
    | Some conn' => (true, conn')
    | None => (false, conn)
    end
  else (true, conn).

(** The calls of [migrate_schema], in their order: table, column,
    definition. *)
Definition migrations : list (string * string * string) :=
  [("products", "id", "INTEGER PRIMARY KEY");
   ("products", "title", "TEXT");
   ("products", "vendor", "TEXT");
   ("products", "product_type", "TEXT");
   ("products", "created_at", "TEXT");
   ("products", "updated_at", "TEXT");
   ("products", "raw_json", "TEXT");
   ("customers", "id", "INTEGER PRIMARY KEY");
   ("customers", "first_name", "TEXT");
   ("customers", "last_name", "TEXT");
   ("customers", "email", "TEXT");
   ("customers", "phone", "TEXT");
   ("customers", "created_at", "TEXT");
   ("customers", "updated_at", "TEXT");
   ("customers", "raw_json", "TEXT");
   ("orders", "id", "INTEGER PRIMARY KEY");
   ("orders", "order_number", "TEXT");
   ("orders", "customer_id", "INTEGER");
   ("orders", "email", "TEXT");
   ("orders", "total_price", "REAL");
   ("orders", "currency", "TEXT");
   ("orders", "created_at", "TEXT");
   ("orders", "updated_at", "TEXT");
   ("orders", "financial_status", "TEXT");
   ("orders", "fulfillment_status", "TEXT");
   ("orders", "raw_json", "TEXT")].

(** One call of [migrate_schema]; the returned flag is dropped. *)
Definition migrate (m : string * string * string) (conn : schema) : schema :=
  (add_column_if_missing m.1.1 m.1.2 m.2 conn).2.

(** Calls made one after the other. *)
Definition migrate_all (l : list (string * string * string)) (conn : schema)
  : schema :=
  foldl (fun c m => migrate m c) conn l.

Definition migrate_schema (conn : schema) : schema :=
  migrate_all migrations conn.

(** [CREATE TABLE IF NOT EXISTS name (...)]. *)
Definition create_table_if_not_exists (name : string) (cols : list string)
    (conn : schema) : schema :=
  match conn !! name with
  | Some _ => conn
  | None => <[name := cols]> conn
  end.

(** The tables of [init_db], in the order of its statements. *)
Definition tables : list (string * list string) :=
  [("metadata", ["key"; "value"]);
   ("products",
    ["id"; "title"; "vendor"; "product_type"; "created_at"; "updated_at";
     "raw_json"]);
   ("product_variants",
    ["id"; "product_id"; "title"; "sku"; "price"; "compare_at_price";
     "position"; "option1"; "option2"; "option3"; "created_at"; "updated_at";
     "raw_json"]);
   ("customers",
    ["id"; "first_name"; "last_name"; "email"; "phone"; "created_at";
     "updated_at"; "raw_json"]);
   ("orders",
    ["id"; "order_number"; "customer_id"; "email"; "total_price"; "currency";
     "created_at"; "updated_at"; "financial_status"; "fulfillment_status";
     "raw_json"]);
   ("line_items",
    ["id"; "order_id"; "product_id"; "variant_id"; "title"; "quantity";
     "price"; "sku"; "raw_json"])].

Definition create_all (l : list (string * list string)) (conn : schema)
  : schema :=
  foldl (fun c t => create_table_if_not_exists t.1 t.2 c) conn l.

Definition create_tables (conn : schema) : schema := create_all tables conn.

Definition init_db (conn : schema) : schema :=
  migrate_schema (create_tables conn).

(** A call of [migrate_schema] that has nothing left to do. *)
Definition settled (m : string * string * string) (conn : schema) : Prop :=
  migrate m conn = conn.

(** The table of the call is there, with a column of the name of the
    call, up to case. *)
Definition has_column (conn : schema) (table_name column_name : string)
  : bool :=
  existsb (same_column column_name) (table_info conn table_name).

End Schema.

(** *** Further vocabulary of the passes *)

(** The rows [store_product], [store_variant] and [store_customer]
    write. *)
Definition product_row_of (p : product) : product_row :=
  {| pr_title := p_title p;
     pr_vendor := p_vendor p;
     pr_product_type := p_product_type p;
     pr_created_at := p_created_at p;
     pr_updated_at := p_updated_at p;
     pr_raw_json := p |}.

Definition variant_row_of (pid : Z) (v : variant) : variant_row :=
  {| vr_product_id := pid;
     vr_title := v_title v;
     vr_sku := v_sku v;
     vr_price := v_price v;
     vr_compare_at_price := v_compare_at_price v;
     vr_position := v_position v;
     vr_option1 := v_option1 v;
     vr_option2 := v_option2 v;
     vr_option3 := v_option3 v;
     vr_created_at := v_created_at v;
     vr_updated_at := v_updated_at v;
     vr_raw_json := v |}.

Definition customer_row_of (c : customer) : customer_row :=
  {| cr_first_name := c_first_name c;
     cr_last_name := c_last_name c;
     cr_email := c_email c;
     cr_phone := c_phone c;
     cr_created_at := c_created_at c;
     cr_updated_at := c_updated_at c;
     cr_raw_json := c |}.

(** Every key of [t] is a key of [t']. *)
Definition keeps_rows {K} `{Countable K} {R} (t t' : gmap K R) : Prop :=
  forall k : K, is_Some (t !! k) -> is_Some (t' !! k).

Definition keeps_all_rows (d d' : database) : Prop :=
  keeps_rows (products d) (products d')
  /\ keeps_rows (product_variants d) (product_variants d')
  /\ keeps_rows (customers d) (customers d')
  /\ keeps_rows (orders d) (orders d')
  /\ keeps_rows (line_items d) (line_items d')
  /\ keeps_rows (metadata d) (metadata d').

(** What a store step leaves alone outside the tables: the watermarks of
    the other passes, what the API will answer, and the trace. *)
Definition store_step_frame (key : string) (w w' : world) : Prop :=
  (forall k : string,
     k <> key -> metadata (db w') !! k = metadata (db w) !! k)
  /\ products_api w' = products_api w
  /\ customers_api w' = customers_api w
  /\ orders_api w' = orders_api w
  /\ events w' = events w.


(** The field holds the integer [k]. *)
Definition has_key (k : Z) (f : field Z) : bool :=
  match f with
  | Val z => z =? k
  | _ => false
  end.

(* ===================================================================== *)
(** ** Strings and the [Link] header *)
(* ===================================================================== *)

Lemma append_cons (c : ascii) (s t : string) :
  String c s ++ t = String c (s ++ t).
Proof. reflexivity. Qed.

Lemma append_nil_l (t : string) : "" ++ t = t.
Proof. reflexivity. Qed.

Lemma append_assoc (a b c : string) : (a ++ b) ++ c = a ++ (b ++ c).
Proof.
  induction a as [|x a IH]; [reflexivity|].
  rewrite !append_cons, IH. reflexivity.
Qed.

Lemma occurs_app (ch : ascii) (a b : string) :
  occurs ch (a ++ b) = occurs ch a || occurs ch b.
Proof.
  induction a as [|x a IH]; [reflexivity|].
  rewrite append_cons. cbn. rewrite IH, orb_assoc. reflexivity.
Qed.

Lemma split_no_sep (sep : ascii) (s : string) :
  occurs sep s = false -> split sep s = [s].
Proof.
  induction s as [|c s IH]; [reflexivity|].
  cbn. intros H. apply orb_false_elim in H as [Hc Hs].
  rewrite Hc, (IH Hs). reflexivity.
Qed.

Lemma split_app_sep (sep : ascii) (a b : string) :
  occurs sep a = false ->
  split sep (a ++ String sep b) = a :: split sep b.
Proof.
  induction a as [|c a IH]; intros H.
  - rewrite append_nil_l. cbn. rewrite Ascii.eqb_refl. reflexivity.
  - cbn in H. apply orb_false_elim in H as [Hc Ha].
    rewrite append_cons. cbn [split]. rewrite Hc, (IH Ha). reflexivity.
Qed.

Lemma rstrip_app_keep (p : ascii -> bool) (a b : string) :
  rstrip p b = b -> b <> "" -> rstrip p (a ++ b) = a ++ b.
Proof.
  intros Hb Hne. induction a as [|c a IH]; [exact Hb|].
  rewrite append_cons. cbn [rstrip]. rewrite IH.
  destruct (a ++ b) eqn:E; [|reflexivity].
  destruct a; [rewrite append_nil_l in E; contradiction|discriminate].
Qed.

Lemma find_app (ch : ascii) (a b : string) :
  occurs ch a = false -> find ch (a ++ String ch b) = len a.
Proof.
  induction a as [|c a IH]; intros H.
  - rewrite append_nil_l. cbn. rewrite Ascii.eqb_refl. reflexivity.
  - cbn in H. apply orb_false_elim in H as [Hc Ha].
    rewrite append_cons. cbn [find]. rewrite Hc, (IH Ha).
    unfold len. cbn [String.length].
    destruct (Z.of_nat (String.length a) <? 0) eqn:E; lia.
Qed.

Lemma substring_prefix (u v : string) :
  substring 0 (String.length u) (u ++ v) = u.
Proof.
  induction u as [|c u IH].
  - destruct v; reflexivity.
  - rewrite append_cons. cbn. rewrite IH. reflexivity.
Qed.

Lemma length_append (a b : string) :
  String.length (a ++ b) = (String.length a + String.length b)%nat.
Proof.
  induction a as [|c a IH]; [reflexivity|].
  rewrite append_cons. cbn. rewrite IH. reflexivity.
Qed.

(** The URL between the angle brackets. *)
Lemma slice_between_brackets (u : string) :
  occurs ">" u = false ->
  let url_part := "<" ++ u ++ ">" in
  slice url_part (find "<" url_part + 1) (find ">" url_part) = u.
Proof.
  intros Hu url_part. subst url_part.
  rewrite append_cons, append_nil_l.
  assert (Hf : find ">" (String "<" (u ++ ">")) = len u + 1).
  { cbn [find]. replace (Ascii.eqb "<" ">") with false by reflexivity.
    rewrite (find_app ">" u "" Hu). unfold len.
    destruct (Z.of_nat (String.length u) <? 0) eqn:E; lia. }
  rewrite Hf. cbn [find]. rewrite Ascii.eqb_refl.
  unfold slice, slice_bound, len. cbn [String.length].
  rewrite length_append. cbn [String.length].
  replace (0 + 1 <? 0) with false by reflexivity.
  replace (Z.of_nat (String.length u) + 1 <? 0) with false
    by (symmetry; apply Z.ltb_ge; lia).
  set (n := Z.of_nat (S (String.length u + 1))).
  assert (Hn : n = Z.of_nat (String.length u) + 2) by (subst n; lia).
  replace (Z.to_nat (Z.max 0 (Z.min n (0 + 1)))) with 1%nat by lia.
  replace (Z.to_nat (Z.max 0 (Z.min n (Z.of_nat (String.length u) + 1))
                     - Z.max 0 (Z.min n (0 + 1))))
    with (String.length u) by lia.
  cbn [substring]. apply substring_prefix.
Qed.

(** One link of the canonical form, with or without the space that
    follows the comma, adds its relation to the dictionary. *)
Lemma parse_link_part_value (sp u rel : string) (links : gmap string string) :
  sp = "" \/ sp = " " ->
  rel = "next" \/ rel = "previous" ->
  occurs ";" u = false -> occurs ">" u = false ->
  parse_link_part (sp ++ link_value u rel) links = Ok (<[rel := u]> links).
Proof.
  intros Hsp Hrel Hsemi Hgt. unfold parse_link_part.
  assert (Hstrip : strip (sp ++ link_value u rel) = link_value u rel).
  { unfold strip.
    assert (Hl : lstrip is_space (sp ++ link_value u rel) = link_value u rel)
      by (destruct Hsp as [-> | ->]; reflexivity).
    rewrite Hl. unfold link_value.
    rewrite <- (append_assoc "<" u).
    destruct Hrel as [-> | ->];
      (apply rstrip_app_keep; [reflexivity|discriminate]). }
  rewrite Hstrip. unfold link_value.
  replace ("<" ++ u ++ ">; rel=" ++ String dquote (rel ++ String dquote ""))
    with (("<" ++ u ++ ">")
          ++ String ";" (" rel=" ++ String dquote (rel ++ String dquote ""))).
  2:{ rewrite !append_cons, !append_nil_l, append_assoc. reflexivity. }
  rewrite split_app_sep.
  2:{ rewrite append_cons, append_nil_l. cbn [occurs].
      rewrite occurs_app, Hsemi. reflexivity. }
  assert (Hs0 : strip ("<" ++ u ++ ">") = "<" ++ u ++ ">").
  { unfold strip. rewrite append_cons, append_nil_l.
    cbn [lstrip]. replace (is_space "<") with false by reflexivity.
    change (String "<" (u ++ ">")) with (String "<" u ++ ">") at 1.
    rewrite rstrip_app_keep; [reflexivity|reflexivity|discriminate]. }
  destruct Hrel as [-> | ->].
  - match goal with |- context [split ";" ?t] =>
      let l := eval vm_compute in (split ";" t) in
      change (split ";" t) with l
    end.
    rewrite Hs0, (slice_between_brackets u Hgt). reflexivity.
  - match goal with |- context [split ";" ?t] =>
      let l := eval vm_compute in (split ";" t) in
      change (split ";" t) with l
    end.
    rewrite Hs0, (slice_between_brackets u Hgt). reflexivity.
Qed.

Lemma link_value_cons (u rel : string) :
  link_value u rel
  = String "<" (u ++ ">; rel=" ++ String dquote (rel ++ String dquote "")).
Proof. reflexivity. Qed.

Lemma occurs_link_value_comma (u rel : string) :
  rel = "next" \/ rel = "previous" ->
  occurs "," u = false -> occurs "," (link_value u rel) = false.
Proof.
  intros Hrel Hu. rewrite link_value_cons. cbn [occurs].
  rewrite occurs_app, Hu. destruct Hrel as [-> | ->]; reflexivity.
Qed.

Lemma link_url_spec (u : string) :
  link_url u = true ->
  u <> "" /\ occurs "," u = false /\ occurs ";" u = false
  /\ occurs ">" u = false.
Proof.
  unfold link_url. intros H.
  repeat (apply andb_prop in H as [H ?]).
  repeat match goal with
         | X : negb _ = true |- _ => apply negb_true_iff in X
         end.
  repeat split; try assumption.
  intros ->. discriminate.
Qed.

Lemma parse_link_header_value (u rel : string) :
  parse_link_header (link_value u rel)
  = for_each parse_link_part (split "," (link_value u rel)) ∅.
Proof. reflexivity. Qed.

Lemma parse_link_header_value_app (u rel t : string) :
  parse_link_header (link_value u rel ++ t)
  = for_each parse_link_part (split "," (link_value u rel ++ t)) ∅.
Proof. reflexivity. Qed.

(** The dictionary [parse_link_header] builds from a header of the API
    holds the next URL under ["next"] exactly when the page has one. *)
Lemma parse_link_header_canonical (prev next : option string) :
  from_option (fun v => link_url v = true) True prev ->
  from_option (fun u => link_url u = true) True next ->
  exists links,
    parse_link_header (default "" (link_header prev next)) = Ok links
    /\ truthy (links !! "next") = next.
Proof.
  intros Hp Hn.
  destruct prev as [v|], next as [u|]; cbn in Hp, Hn.
  - apply link_url_spec in Hp as (_ & Hvc & Hvs & Hvg).
    apply link_url_spec in Hn as (Hune & Huc & Hus & Hug).
    exists (<["next" := u]> (<["previous" := v]> ∅)). split.
    + change (default "" (link_header (Some v) (Some u)))
        with (link_value v "previous"
              ++ String "," (" " ++ link_value u "next")).
      rewrite parse_link_header_value_app.
      rewrite split_app_sep by (apply occurs_link_value_comma; auto).
      rewrite split_no_sep.
      2:{ change (" " ++ link_value u "next")
            with (String " " (link_value u "next")).
          cbn [occurs]. rewrite occurs_link_value_comma; auto. }
      cbn [for_each pbind].
      rewrite (parse_link_part_value "" v "previous") by auto.
      cbn [pbind].
      rewrite (parse_link_part_value " " u "next") by auto.
      reflexivity.
    + rewrite lookup_insert_eq. destruct u; [contradiction|reflexivity].
  - apply link_url_spec in Hp as (_ & Hvc & Hvs & Hvg).
    exists (<["previous" := v]> ∅). split.
    + change (default "" (link_header (Some v) None))
        with (link_value v "previous").
      rewrite parse_link_header_value.
      rewrite split_no_sep by (apply occurs_link_value_comma; auto).
      cbn [for_each pbind].
      rewrite (parse_link_part_value "" v "previous") by auto.
      reflexivity.
    + rewrite lookup_insert_ne by discriminate. rewrite lookup_empty.
      reflexivity.
  - apply link_url_spec in Hn as (Hune & Huc & Hus & Hug).
    exists (<["next" := u]> ∅). split.
    + change (default "" (link_header None (Some u)))
        with (link_value u "next").
      rewrite parse_link_header_value.
      rewrite split_no_sep by (apply occurs_link_value_comma; auto).
      cbn [for_each pbind].
      rewrite (parse_link_part_value "" u "next") by auto.
      reflexivity.
    + rewrite lookup_insert_eq. destruct u; [contradiction|reflexivity].
  - exists ∅. split; [reflexivity|]. rewrite lookup_empty. reflexivity.
Qed.

(* ===================================================================== *)
(** ** The retry loop *)
(* ===================================================================== *)

(** Unfold the monad operations and compute the run as far as it goes. *)
Ltac run_m :=
  repeat (unfold bind, ret, raise, lift, gets, modify, log,
            except_request_exception, zoom in *;
          cbn beta iota zeta delta [fst snd script trace] in *).

Section RetryLoopFacts.
Context {A : Type}.
Variables (url : string) (params : option (list (string * pval)))
          (method : string).

Lemma retry_loop_step (o : outcome A) (rest : list (outcome A))
    (tr : list event) (n : nat) (ss k : Z) :
  0 <= ss ->
  retried o ss = Some k ->
  retry_loop url params method (S n) ss {| script := o :: rest; trace := tr |}
  = retry_loop url params method n (ss * 2)
      {| script := rest;
         trace := tr ++ [EvRequest method url params; EvSleep k] |}.
Proof.
  intros Hss Hr.
  cbn [retry_loop].
  unfold attempt, session_request, time_sleep, retry_after_of,
    raise_for_status.
  replace (ss <? 0) with false by lia.
  destruct o as [r|e]; cbn [retried] in Hr; run_m.
  - destruct (status_code r =? 429) eqn:E429.
    + destruct (headers_get "Retry-After" (headers r)) as [s|].
      * destruct (int_of_str s) as [j|]; [|discriminate].
        destruct (0 <=? j) eqn:Ej; [|discriminate].
        injection Hr as <-.
        replace (j <? 0) with false by lia.
        cbn [script trace]. rewrite <- app_assoc. reflexivity.
      * injection Hr as <-.
        replace (ss <? 0) with false by lia.
        cbn [script trace]. rewrite <- app_assoc. reflexivity.
    + destruct (status_ok (status_code r)) eqn:Eok; [discriminate|].
      injection Hr as <-.
      unfold status_ok in Eok. rewrite E429 in Eok. cbn in Eok.
      apply negb_false_iff in Eok.
      rewrite Eok. cbn.
      cbn [script trace]. rewrite <- app_assoc. reflexivity.
  - destruct (is_request_exception e) eqn:Ee; [|discriminate].
    injection Hr as <-.
    cbn [script trace]. rewrite <- app_assoc. reflexivity.
Qed.

(** A run of retried outcomes consumes one attempt each and leaves the
    backoff doubled as many times. *)
Lemma retry_loop_retries (fails : list (outcome A)) :
  forall (rest : list (outcome A)) (tr : list event) (n : nat) (ss : Z)
         (sleeps : list Z),
    0 <= ss ->
    retry_sleeps fails ss = Some sleeps ->
    retry_loop url params method (length fails + n) ss
      {| script := fails ++ rest; trace := tr |}
    = retry_loop url params method n (ss * 2 ^ Z.of_nat (length fails))
        {| script := rest;
           trace := tr ++ retry_events method url params sleeps |}.
Proof.
  induction fails as [|o fails IH]; intros rest tr n ss sleeps Hss Hs.
  - injection Hs as <-. cbn. rewrite app_nil_r. f_equal. lia.
  - cbn [retry_sleeps] in Hs.
    destruct (retried o ss) as [k|] eqn:Hk; [|discriminate].
    destruct (retry_sleeps fails (ss * 2)) as [ks|] eqn:Hks; [|discriminate].
    cbn in Hs. injection Hs as <-.
    cbn [length Nat.add app].
    rewrite (retry_loop_step o _ _ _ ss k Hss Hk).
    rewrite (IH rest _ n (ss * 2) ks) by (lia || assumption).
    unfold retry_events. cbn [flat_map]. rewrite <- app_assoc.
    replace (ss * 2 ^ Z.of_nat (S (length fails)))
      with (ss * 2 * 2 ^ Z.of_nat (length fails)); [reflexivity|].
    rewrite Nat2Z.inj_succ, Z.pow_succ_r by lia. lia.
Qed.

(** An attempt answered with a status that is not an error returns. *)
Lemma retry_loop_returns (r : response A) (rest : list (outcome A))
    (tr : list event) (n : nat) (ss : Z) :
  status_ok (status_code r) = true ->
  retry_loop url params method (S n) ss
    {| script := Responds r :: rest; trace := tr |}
  = (Ok r, {| script := rest; trace := tr ++ [EvRequest method url params] |}).
Proof.
  intros Hok. unfold status_ok in Hok.
  apply andb_prop in Hok as [H1 H2].
  apply negb_true_iff in H1, H2.
  cbn [retry_loop]. unfold attempt, session_request, raise_for_status.
  run_m. rewrite H1, H2. reflexivity.
Qed.

(** Whatever the script, a response that is returned is not an error. *)
Lemma retry_loop_ok_status (n : nat) :
  forall (ss : Z) (h h' : http A) (r : response A),
    retry_loop url params method n ss h = (Ok r, h') ->
    status_ok (status_code r) = true.
Proof.
  induction n as [|n IH]; intros ss h h' r.
  - cbn. run_m. discriminate.
  - cbn [retry_loop].
    unfold attempt, session_request, time_sleep, retry_after_of,
      raise_for_status.
    run_m.
    destruct (script h) as [|[r0|e] rest].
    + cbn. discriminate.
    + destruct (status_code r0 =? 429) eqn:E429.
      * destruct (headers_get "Retry-After" (headers r0)) as [s|];
          [destruct (int_of_str s) as [j|]|].
        -- destruct (j <? 0); cbn; [discriminate|]. apply IH.
        -- cbn. discriminate.
        -- destruct (ss <? 0); cbn; [discriminate|]. apply IH.
      * destruct ((400 <=? status_code r0) && (status_code r0 <? 600)) eqn:E.
        -- cbn. destruct (ss <? 0); cbn; [discriminate|]. apply IH.
        -- cbn. intros [= <- <-]. unfold status_ok. rewrite E429, E.
           reflexivity.
    + destruct (is_request_exception e) eqn:Ee; cbn; rewrite ?Ee.
      * destruct (ss <? 0); cbn; [discriminate|]. apply IH.
      * discriminate.
Qed.

(** A 429 whose [Retry-After] is not an integer literal: [int] raises,
    and nothing in the loop catches a [ValueError]. *)
Lemma retry_loop_bad_retry_after (r : response A) (rest : list (outcome A))
    (tr : list event) (n : nat) (ss : Z) (s : string) :
  status_code r = 429 ->
  headers_get "Retry-After" (headers r) = Some s ->
  int_of_str s = None ->
  retry_loop url params method (S n) ss
    {| script := Responds r :: rest; trace := tr |}
  = (Raise ValueError,
     {| script := rest; trace := tr ++ [EvRequest method url params] |}).
Proof.
  intros H429 Hh Hs.
  cbn [retry_loop]. unfold attempt, session_request, retry_after_of.
  run_m. rewrite H429, Hh, Hs. reflexivity.
Qed.

(** An attempt takes its outcome from the script. *)
Lemma attempt_consumes (ss : Z) (h h' : http A)
    (r : pyres (flow (response A))) :
  except_request_exception (attempt url params method ss)
    (fun _ => bind (time_sleep ss) (fun _ => ret Continue)) h = (r, h') ->
  match script h with
  | [] => r = Raise ScriptExhausted /\ script h' = []
  | _ :: rest => script h' = rest
  end.
Proof.
  unfold attempt, session_request, time_sleep, retry_after_of,
    raise_for_status.
  run_m.
  destruct (script h) as [|[r0|e] rest].
  - cbn. intros [= <- <-]. split; reflexivity.
  - destruct (status_code r0 =? 429).
    + destruct (headers_get "Retry-After" (headers r0)) as [s|];
        [destruct (int_of_str s) as [j|]|].
      * destruct (j <? 0); cbn; intros [= _ <-]; reflexivity.
      * cbn. intros [= _ <-]. reflexivity.
      * destruct (ss <? 0); cbn; intros [= _ <-]; reflexivity.
    + destruct ((400 <=? status_code r0) && (status_code r0 <? 600)); cbn.
      * destruct (ss <? 0); cbn; intros [= _ <-]; reflexivity.
      * intros [= _ <-]. reflexivity.
  - destruct (is_request_exception e) eqn:Ee; cbn; rewrite ?Ee.
    + destruct (ss <? 0); cbn; intros [= _ <-]; reflexivity.
    + intros [= _ <-]. reflexivity.
Qed.

(** The loop never gives outcomes back, and a response it returns was
    taken from the script. *)
Lemma retry_loop_consumes (n : nat) :
  forall (ss : Z) (h h' : http A) (r : pyres (response A)),
    retry_loop url params method n ss h = (r, h') ->
    (length (script h') <= length (script h))%nat
    /\ (forall resp, r = Ok resp ->
                     (length (script h') < length (script h))%nat).
Proof.
  induction n as [|n IH]; intros ss h h' r.
  - cbn. unfold raise. intros [= <- <-]. split; [lia|discriminate].
  - cbn [retry_loop]. unfold bind at 1.
    destruct (except_request_exception _ _ h) as [[[resp|]|e] h1] eqn:Hstep;
      pose proof (attempt_consumes _ _ _ _ Hstep) as Hc.
    + unfold ret. intros [= <- <-].
      destruct (script h) as [|o rest]; [destruct Hc; discriminate|].
      rewrite Hc. cbn. split; [lia|intros; lia].
    + intros H. destruct (IH _ _ _ _ H) as [Hle Hlt].
      destruct (script h) as [|o rest]; [destruct Hc; discriminate|].
      rewrite Hc in *. cbn. split; [lia|].
      intros resp Hr. specialize (Hlt resp Hr). lia.
    + intros [= <- <-].
      destruct (script h) as [|o rest].
      * destruct Hc as [_ ->]. split; [cbn; lia|discriminate].
      * rewrite Hc. cbn. split; [lia|discriminate].
Qed.

(** On an empty script the first request ends the run. *)
Lemma retry_loop_empty_script (n : nat) (ss : Z) (tr : list event) :
  retry_loop url params method (S n) ss
    {| script := @nil (outcome A); trace := tr |}
  = (Raise ScriptExhausted,
     {| script := []; trace := tr ++ [EvRequest method url params] |}).
Proof. reflexivity. Qed.
End RetryLoopFacts.

(* ===================================================================== *)
(** ** Pagination *)
(* ===================================================================== *)

Section PaginationFacts.
Context `{RT : Runtime} {A : Type}.

Lemma page_request (r : response A) (prev next : option string)
    (url : string) (params : option (list (string * pval)))
    (rest : list (outcome A)) (tr : list event) :
  is_page r prev next ->
  request_with_retries url params "GET" default_max_retries
    {| script := Responds r :: rest; trace := tr |}
  = (Ok r, {| script := rest; trace := tr ++ [EvRequest "GET" url params] |}).
Proof.
  intros (Hst & _). unfold request_with_retries, default_max_retries.
  apply retry_loop_returns. unfold status_ok.
  replace (status_code r =? 429) with false by lia.
  replace (400 <=? status_code r) with false by lia. reflexivity.
Qed.

Lemma page_links (r : response A) (prev next : option string) :
  is_page r prev next ->
  exists links,
    response_links r = Ok links /\ truthy (links !! "next") = next.
Proof.
  intros (_ & _ & Hp & Hn & Hh). unfold response_links. rewrite Hh.
  apply parse_link_header_canonical; assumption.
Qed.

Lemma page_items_key (key : string) (r : response A)
    (data : list (string * list A)) :
  key <> "" -> json r = Some data ->
  page_items (Some key) data = map Item (items_of key r).
Proof.
  intros Hk Hd. unfold page_items, items_of. rewrite Hd.
  destruct key; [contradiction|reflexivity].
Qed.

(** The loop follows the chain of next links through all the pages that
    remain. *)
Lemma follow_next_pages (key : string)
    (pages : list (response A * option string * string))
    (last : response A) (last_prev : option string) :
  key <> "" ->
  Forall (fun p => is_page p.1.1 p.1.2 (Some p.2)) pages ->
  is_page last last_prev None ->
  forall (u : string) (links : gmap string string)
         (acc : list (fetched A)) (fuel : nat) (tr : list event),
    truthy (links !! "next") = Some u ->
    (length pages < fuel)%nat ->
    follow_next fuel (Some key) acc links
      {| script := map Responds (map (fun p => p.1.1) pages ++ [last]);
         trace := tr |}
    = (Ok (acc ++ map Item (flat_map (items_of key)
                              (map (fun p => p.1.1) pages ++ [last])))%list,
       {| script := [];
          trace := tr ++ map (fun v => EvRequest "GET" v None)
                           (u :: map (fun p => p.2) pages) |}).
Proof.
  intros Hk Hpages Hlast.
  induction Hpages as [|[[r prev] next] pages Hr _ IH];
    intros u links acc fuel tr Hu Hfuel.
  - destruct fuel as [|fuel]; [cbn in Hfuel; lia|].
    cbn [follow_next map app]. rewrite Hu.
    destruct (page_links _ _ _ Hlast) as (links' & Hl & Hn).
    destruct Hlast as (Hst & [data Hd] & Hrest).
    unfold bind at 1.
    rewrite (page_request last last_prev None)
      by (split; [exact Hst|split; [eexists; exact Hd|exact Hrest]]).
    unfold resp_json. rewrite Hd, Hl. run_m.
    destruct fuel; cbn [follow_next]; rewrite Hn; run_m;
      rewrite (page_items_key key last data Hk Hd);
      cbn [flat_map]; rewrite app_nil_r; reflexivity.
  - destruct fuel as [|fuel]; [cbn in Hfuel; lia|].
    cbn [follow_next map app]. rewrite Hu.
    cbn [fst snd] in Hr.
    destruct (page_links _ _ _ Hr) as (links' & Hl & Hn).
    unfold bind at 1. rewrite (page_request r prev (Some next) _ _ _ _ Hr).
    destruct Hr as (Hst & [data Hd] & Hrest).
    unfold resp_json. rewrite Hd, Hl. run_m.
    rewrite (IH next links' _ fuel _ Hn) by (cbn in Hfuel; lia).
    rewrite (page_items_key key r data Hk Hd).
    cbn [flat_map map fst snd]. rewrite map_app, <- !app_assoc.
    reflexivity.
Qed.

(** The bound on the turns of the loop is never the reason a fetch ends:
    with as much fuel as outcomes left, one more unit changes nothing. *)
Lemma follow_next_fuel (fuel : nat) :
  forall (key : option string) (acc : list (fetched A))
         (links : gmap string string) (h : http A),
    (length (script h) <= fuel)%nat ->
    follow_next fuel key acc links h = follow_next (S fuel) key acc links h.
Proof.
  induction fuel as [|fuel IH]; intros key acc links h Hlen.
  - destruct h as [sc tr]. cbn [script] in Hlen.
    destruct sc; [|cbn in Hlen; lia].
    cbn [follow_next]. destruct (truthy (links !! "next")); reflexivity.
  - cbn [follow_next]. destruct (truthy (links !! "next")) as [u|];
      [|reflexivity].
    unfold bind at 1 4.
    destruct (request_with_retries u None "GET" default_max_retries h)
      as [[resp|e] h1] eqn:Hreq; [|reflexivity].
    destruct (retry_loop_consumes _ _ _ _ _ _ _ _ Hreq) as [_ Hlt].
    specialize (Hlt resp eq_refl).
    unfold resp_json, response_links. run_m.
    destruct (json resp); [|reflexivity].
    destruct (parse_link_header _); [|reflexivity].
    apply IH. lia.
Qed.
End PaginationFacts.

(* ===================================================================== *)
(** ** Properties of the fetch client *)
(* ===================================================================== *)

(** C5.  Retry exhaustion is fatal.  When each of the [max_retries]
    attempts ends in a retry (a 429, a transport error or an error
    status), [request_with_retries] raises [RuntimeError]: it does not
    return.  When fewer than [max_retries] attempts end in a retry and the
    next is answered with a 2xx status, it returns that response.  A
    response it returns never carries an error status, whatever the API
    does.  And [fetch_all_rest] drops no page: when the request of its
    first page or of a later page raises, the fetch raises the same error
    and returns no list. *)
Theorem retry_exhaustion_is_fatal `{RT : Runtime} {A} (url method : string)
    (params : option (list (string * pval))) (max_retries : nat)
    (fails rest : list (outcome A)) (sleeps : list Z) (tr : list event) :
  retry_sleeps fails 1 = Some sleeps ->
  (length fails = max_retries ->
   request_with_retries url params method max_retries
     {| script := fails ++ rest; trace := tr |}
   = (Raise RuntimeError,
      {| script := rest;
         trace := tr ++ retry_events method url params sleeps |}))
  /\ (forall r : response A,
        (length fails < max_retries)%nat ->
        200 <= status_code r < 300 ->
        request_with_retries url params method max_retries
          {| script := fails ++ Responds r :: rest; trace := tr |}
        = (Ok r,
           {| script := rest;
              trace := tr ++ retry_events method url params sleeps
                       ++ [EvRequest method url params] |}))
  /\ (forall (h h' : http A) (r : response A),
        request_with_retries url params method max_retries h = (Ok r, h') ->
        status_ok (status_code r) = true)
  /\ (forall (endpoint : string) (query : option (list (string * pval)))
             (key : option string) (h h' : http A) (e : exn),
        request_with_retries (urljoin BASE_URL endpoint)
          (Some (setdefault "limit" (PInt 250) (default [] query))) "GET"
          default_max_retries h = (Raise e, h') ->
        fetch_all_rest endpoint query key h = (Raise e, h'))
  /\ (forall (fuel : nat) (key : option string) (acc : list (fetched A))
             (links : gmap string string) (next_url : string)
             (h h' : http A) (e : exn),
        truthy (links !! "next") = Some next_url ->
        request_with_retries next_url None "GET" default_max_retries h
        = (Raise e, h') ->
        follow_next fuel key acc links h = (Raise e, h')).
Proof.
  intros Hs. unfold request_with_retries. repeat split.
  - intros <-.
    replace (length fails) with (length fails + 0)%nat at 1 by lia.
    rewrite (retry_loop_retries url params method fails rest tr 0 1 sleeps)
      by (lia || assumption).
    reflexivity.
  - intros r Hlen Hst.
    replace max_retries
      with (length fails + S (max_retries - length fails - 1))%nat by lia.
    rewrite (retry_loop_retries url params method fails _ tr _ 1 sleeps)
      by (lia || assumption).
    rewrite retry_loop_returns.
    + rewrite <- app_assoc. reflexivity.
    + unfold status_ok.
      replace (status_code r =? 429) with false by lia.
      replace (400 <=? status_code r) with false by lia. reflexivity.
  - intros h h' r. apply retry_loop_ok_status.
  - intros endpoint query key h h' e Hreq.
    unfold fetch_all_rest, bind at 1, request_with_retries.
    rewrite Hreq. reflexivity.
  - intros fuel key acc links next_url h h' e Hnext Hreq.
    destruct fuel; cbn [follow_next]; rewrite Hnext;
      unfold bind at 1, request_with_retries; rewrite Hreq; reflexivity.
Qed.

(** C5, at the default budget: five timeouts, then the error. *)
Lemma retry_exhaustion_is_fatal_witness :
  request_with_retries "u" None "GET" default_max_retries
    {| script := repeat (@Throws Z Timeout) 5 ++ []; trace := [] |}
  = (Raise RuntimeError,
     {| script := [];
        trace := [] ++ retry_events "GET" "u" None [1; 2; 4; 8; 16] |}).
Proof.
  apply (proj1 (retry_exhaustion_is_fatal (RT := reference_runtime)
                  "u" "GET" None default_max_retries
                  (repeat (Throws Timeout) 5) [] [1; 2; 4; 8; 16] []
                  eq_refl)).
  reflexivity.
Defined.

(** C8.  A 429 makes the client sleep exactly the [Retry-After] seconds,
    or the current backoff value when the header is absent; it uses up one
    attempt, and the backoff value is doubled afterwards, as it is after
    every retry whatever its cause. *)
Theorem rate_limit_honours_retry_after {A} (url method : string)
    (params : option (list (string * pval))) (rest : list (outcome A))
    (tr : list event) (n : nat) (ss : Z) :
  0 < ss ->
  (forall (r : response A) (k : Z),
     status_code r = 429 ->
     match headers_get "Retry-After" (headers r) with
     | Some s => int_of_str s
     | None => Some ss
     end = Some k ->
     0 <= k ->
     retry_loop url params method (S n) ss
       {| script := Responds r :: rest; trace := tr |}
     = retry_loop url params method n (ss * 2)
         {| script := rest;
            trace := tr ++ [EvRequest method url params; EvSleep k] |})
  /\ (forall (o : outcome A) (k : Z),
        retried o ss = Some k ->
        retry_loop url params method (S n) ss
          {| script := o :: rest; trace := tr |}
        = retry_loop url params method n (ss * 2)
            {| script := rest;
               trace := tr ++ [EvRequest method url params; EvSleep k] |}).
Proof.
  intros Hss. split.
  - intros r k H429 Hk Hk0. apply retry_loop_step; [lia|].
    cbn [retried]. rewrite H429. cbn.
    destruct (headers_get "Retry-After" (headers r)) as [s|].
    + rewrite Hk. replace (0 <=? k) with true by lia. reflexivity.
    + exact Hk.
  - intros o k Hk. apply retry_loop_step; [lia|exact Hk].
Qed.

(** C8, for [Retry-After: 3] on the first attempt: the sleep is 3 seconds,
    not the backoff value 1, and the next attempt runs with backoff 2. *)
Lemma rate_limit_honours_retry_after_witness :
  retry_loop "u" None "GET" 5 1
    {| script := [Responds {| status_code := 429;
                              headers := [("Retry-After", "3")];
                              json := @None (list (string * list Z)) |}];
       trace := [] |}
  = retry_loop "u" None "GET" 4 (1 * 2)
      {| script := [];
         trace := [] ++ [EvRequest "GET" "u" None; EvSleep 3] |}.
Proof.
  apply (proj1 (rate_limit_honours_retry_after "u" "GET" None [] [] 4 1
                  ltac:(lia))); [reflexivity|reflexivity|lia].
Defined.

(** C10.  A 429 whose [Retry-After] is not an integer literal, such as an
    HTTP date, makes [request_with_retries] raise the [ValueError] of the
    conversion at once: the request is the last event of the trace (no
    sleep), the rest of the script is not consumed (no retry), and this
    happens on any attempt, before the budget is used up. *)
Theorem non_numeric_retry_after_raises {A} (url method : string)
    (params : option (list (string * pval))) (r : response A)
    (rest : list (outcome A)) (tr : list event) (n : nat) (s : string) :
  status_code r = 429 ->
  headers_get "Retry-After" (headers r) = Some s ->
  int_of_str s = None ->
  request_with_retries url params method (S n)
    {| script := Responds r :: rest; trace := tr |}
  = (Raise ValueError,
     {| script := rest; trace := tr ++ [EvRequest method url params] |}).
Proof.
  intros. unfold request_with_retries.
  eapply retry_loop_bad_retry_after; eassumption.
Qed.

(** C10, for the HTTP-date form of the header. *)
Lemma non_numeric_retry_after_raises_witness :
  request_with_retries "u" None "GET" default_max_retries
    {| script := [Responds {| status_code := 429;
                              headers := [("Retry-After",
                                           "Wed, 21 Oct 2015 07:28:00 GMT")];
                              json := @None (list (string * list Z)) |};
                  Responds {| status_code := 200; headers := [];
                              json := Some [] |}];
       trace := [] |}
  = (Raise ValueError,
     {| script := [Responds {| status_code := 200; headers := [];
                               json := Some [] |}];
        trace := [] ++ [EvRequest "GET" "u" None] |}).
Proof.
  apply (non_numeric_retry_after_raises "u" "GET" None _ _ [] 4
           "Wed, 21 Oct 2015 07:28:00 GMT"); reflexivity.
Defined.

(** C3.  Pagination completeness.  Let the API answer with N pages, every
    page but the last carrying a [Link] header with [rel="next"].  Then
    [fetch_all_rest] returns the records of the N pages, in page order;
    it has consumed the N answers, and it has requested the endpoint and
    then each next URL in turn. *)
Theorem pagination_completeness `{RT : Runtime} {A : Type}
    (endpoint key : string) (params : option (list (string * pval)))
    (pages : list (response A * option string * string))
    (last : response A) (last_prev : option string) (tr : list event) :
  key <> "" ->
  Forall (fun p => is_page p.1.1 p.1.2 (Some p.2)) pages ->
  is_page last last_prev None ->
  fetch_all_rest endpoint params (Some key)
    {| script := map Responds (map (fun p => p.1.1) pages ++ [last]);
       trace := tr |}
  = (Ok (map Item (flat_map (items_of key)
                     (map (fun p => p.1.1) pages ++ [last]))),
     {| script := [];
        trace := tr
                 ++ EvRequest "GET" (urljoin BASE_URL endpoint)
                      (Some (setdefault "limit" (PInt 250) (default [] params)))
                 :: map (fun p => EvRequest "GET" p.2 None) pages |}).
Proof.
  intros Hk Hpages Hlast. unfold fetch_all_rest.
  destruct Hpages as [|[[r prev] next] pages Hr Hpages].
  - cbn [map app].
    destruct (page_links _ _ _ Hlast) as (links & Hl & Hn).
    unfold bind at 1. rewrite (page_request last last_prev None _ _ _ _ Hlast).
    destruct Hlast as (Hst & [data Hd] & Hrest).
    unfold resp_json. rewrite Hd, Hl. run_m.
    cbn [length follow_next]. rewrite Hn. run_m.
    rewrite (page_items_key key last data Hk Hd).
    cbn [flat_map]. rewrite app_nil_r. reflexivity.
  - cbn [map app fst snd] in *.
    destruct (page_links _ _ _ Hr) as (links & Hl & Hn).
    unfold bind at 1. rewrite (page_request r prev (Some next) _ _ _ _ Hr).
    destruct Hr as (Hst & [data Hd] & Hrest).
    unfold resp_json. rewrite Hd, Hl. run_m.
    rewrite (follow_next_pages key pages last last_prev Hk Hpages Hlast
               next links _ _ _ Hn).
    2:{ rewrite length_map, length_app, length_map. cbn. lia. }
    rewrite (page_items_key key r data Hk Hd).
    cbn [flat_map map]. rewrite map_app, map_map, <- !app_assoc. reflexivity.
Qed.

(** C3, on three pages of product ids: the first names its successor, the
    second its predecessor and its successor, the last its predecessor. *)
Lemma pagination_completeness_witness :
  let u2 := "https://example-store.myshopify.com/admin/api/2024-10/products.json?limit=250&page_info=b" in
  let u3 := "https://example-store.myshopify.com/admin/api/2024-10/products.json?limit=250&page_info=c" in
  let r1 := page_of "products" [1; 2] (link_header None (Some u2)) in
  let r2 := page_of "products" [3; 4] (link_header (Some u2) (Some u3)) in
  let r3 := page_of "products" [5] (link_header (Some u2) None) in
  fetch_all_rest (RT := reference_runtime) "products.json" None
    (Some "products")
    {| script := map Responds
                   (map (fun p => p.1.1) [(r1, None, u2); (r2, Some u2, u3)]
                    ++ [r3]);
       trace := [] |}
  = (Ok (map Item (flat_map (items_of "products")
                     (map (fun p => p.1.1) [(r1, None, u2); (r2, Some u2, u3)]
                      ++ [r3]))),
     {| script := [];
        trace := []
                 ++ EvRequest "GET"
                      (urljoin (BASE_URL (RT := reference_runtime))
                         "products.json")
                      (Some (setdefault "limit" (PInt 250) (default [] None)))
                 :: map (fun p => EvRequest "GET" p.2 None)
                      [(r1, None, u2); (r2, Some u2, u3)] |}).
Proof.
  cbv zeta.
  apply (pagination_completeness (RT := reference_runtime) "products.json"
           "products" None _ _
           (Some "https://example-store.myshopify.com/admin/api/2024-10/products.json?limit=250&page_info=b")).
  - discriminate.
  - repeat constructor; cbn; try lia; try reflexivity; eexists; reflexivity.
  - unfold is_page. cbn.
    repeat split; try lia; try reflexivity. eexists; reflexivity.
Defined.

(* ===================================================================== *)
(** ** The store step of a pass *)
(* ===================================================================== *)

Lemma for_each_app {A S} (body : A -> S -> pyres S) (l1 l2 : list A) (s : S) :
  for_each body (l1 ++ l2) s = pbind (for_each body l1 s) (for_each body l2).
Proof.
  revert s. induction l1 as [|x l1 IH]; intros s; [reflexivity|].
  cbn. destruct (body x s); [apply IH|reflexivity].
Qed.

Section StoreFacts.
Context `{RT : Runtime}.

(** What [store_pass] does, by the outcome of its loop: the writes and
    the watermark are committed when the loop ends; a loop left by an
    exception commits nothing. *)
Lemma store_pass_run {A} (store : A -> loop_vars -> pyres loop_vars)
    (key : string) (items : list (fetched A)) (w : world) :
  store_pass store key items w
  = match for_each (store_item store) items (loop_start (db w)) with
    | Ok st =>
        (Ok (saved st),
         set_db (fun _ =>
                   match max_updated st with
                   | Some m =>
                       set_metadata (fun md => <[key := isoformat m]> md)
                         (conn st)
                   | None => conn st
                   end) w)
    | Raise e => (Raise e, w)
    end.
Proof.
  unfold store_pass, sqlite3_connect, commit, db_set_metadata. run_m.
  destruct (for_each (store_item store) items (loop_start (db w)))
    as [st|e]; [|reflexivity].
  destruct (max_updated st); reflexivity.
Qed.

Lemma coerce_price_absent : coerce_price Absent = Some 0%float.
Proof. reflexivity. Qed.

Lemma coerce_price_null : coerce_price Null = None.
Proof. reflexivity. Qed.

Lemma coerce_price_str (s : string) :
  coerce_price (Val (SStr s)) = float_of_str s.
Proof.
  unfold coerce_price. cbn. destruct (float_of_str s); reflexivity.
Qed.

(** The line items of an order that has an [id] are all written. *)
Lemma store_line_items_run (oid : Z) (lis : list line_item) :
  forall st : loop_vars,
    exists st',
      for_each (store_line_item (Some oid)) lis st = Ok st'
      /\ line_items (conn st')
         = foldl (fun t li => insert_or_replace (get (li_id li))
                                (line_item_row_of oid li) t)
             (line_items (conn st)) lis
      /\ orders (conn st') = orders (conn st)
      /\ saved st' = saved st
      /\ max_updated st' = max_updated st.
Proof.
  induction lis as [|li lis IH]; intros st.
  - exists st. repeat split; reflexivity.
  - cbn [for_each]. unfold store_line_item at 1. cbn [not_null pbind].
    match goal with |- context [for_each _ lis ?s] =>
      destruct (IH s) as (st' & Hrun & Hli & Hor & Hsv & Hmx)
    end.
    exists st'. rewrite Hrun, Hli, Hor, Hsv, Hmx. repeat split; reflexivity.
Qed.

(** An order that has an [id] is written with all its line items,
    whatever its price fields hold. *)
Lemma store_order_run (o : order) (oid : Z) (lis : list line_item)
    (st : loop_vars) :
  o_id o = Val oid ->
  get_default (o_line_items o) [] = Some lis ->
  exists st',
    store_order o st = Ok st'
    /\ orders (conn st') = <[oid := order_row_of o]> (orders (conn st))
    /\ line_items (conn st')
       = foldl (fun t li => insert_or_replace (get (li_id li))
                              (line_item_row_of oid li) t)
           (line_items (conn st)) lis
    /\ saved st' = saved st + 1.
Proof.
  intros Hid Hlis. unfold store_order. rewrite Hid, Hlis.
  cbn [getitem pbind iter].
  match goal with |- context [for_each _ lis ?s] =>
    destruct (store_line_items_run oid lis s)
      as (st' & Hrun & Hli & Hor & Hsv & Hmx)
  end.
  rewrite Hrun. cbn [pbind].
  eexists. split; [reflexivity|].
  cbn [conn set_max_updated saved]. rewrite Hli, Hor, Hsv.
  repeat split; reflexivity.
Qed.

Lemma order_storable_spec (o : order) :
  order_storable o = true ->
  exists oid lis,
    o_id o = Val oid /\ get_default (o_line_items o) [] = Some lis.
Proof.
  unfold order_storable. intros H. apply andb_prop in H as [H1 H2].
  destruct (o_id o) as [| |oid]; try discriminate.
  destruct (o_line_items o) as [| |lis]; try discriminate;
    eexists _, _; split; reflexivity.
Qed.

Lemma store_orders_loop_run (os : list order) :
  Forall (fun o => order_storable o = true) os ->
  forall st : loop_vars,
    exists st',
      for_each (store_item store_order) (map Item os) st = Ok st'
      /\ saved st' = saved st + Z.of_nat (length os).
Proof.
  induction 1 as [|o os Ho _ IH]; intros st.
  - exists st. split; [reflexivity|cbn; lia].
  - destruct (order_storable_spec o Ho) as (oid & lis & Hid & Hlis).
    destruct (store_order_run o oid lis st Hid Hlis)
      as (st1 & Hrun & _ & _ & Hsv).
    destruct (IH st1) as (st' & Hrun' & Hsv').
    exists st'. cbn [map for_each store_item]. rewrite Hrun. cbn [pbind].
    split; [exact Hrun'|]. rewrite Hsv', Hsv. cbn [length]. lia.
Qed.
End StoreFacts.

(* ===================================================================== *)
(** ** Properties of the upsert engine: prices and storage faults *)
(* ===================================================================== *)

(** C7, as stated, fails for a missing price: an order without a
    [total_price] key is stored with the price 0.0, not with null, and so
    is a line item without a [price] key. *)
Lemma missing_price_is_stored_as_zero :
  let o := an_order (Val 7) Absent None (Val [a_line_item (Val 1) Absent]) in
  let w' := (store_orders (RT := reference_runtime) [Item o] empty_world).2 in
  (or_total_price <$> orders (db w') !! 7) = Some (Some 0%float)
  /\ (lr_price <$> line_items (db w') !! 1) = Some (Some 0%float)
  /\ (or_total_price <$> orders (db w') !! 7) <> Some None.
Proof. vm_compute. repeat split. discriminate. Qed.

(** C7, amended.  A price field never aborts the pass.  A price that is
    JSON null or a string that [float] rejects is stored as null; a price
    whose key is absent is stored as 0.0.  Whatever the price fields hold,
    an order that carries its [id] is written, and so is every one of its
    line items, each with its price coerced in the same way; a pass over
    such orders commits and returns their number. *)
Theorem price_coercion_never_aborts `{RT : Runtime} :
  (coerce_price Null = None
   /\ (forall s, float_of_str s = None -> coerce_price (Val (SStr s)) = None)
   /\ coerce_price Absent = Some 0%float)
  /\ (forall (o : order) (oid : Z) (lis : list line_item) (st : loop_vars),
        o_id o = Val oid ->
        get_default (o_line_items o) [] = Some lis ->
        exists st',
          store_order o st = Ok st'
          /\ orders (conn st') = <[oid := order_row_of o]> (orders (conn st))
          /\ line_items (conn st')
             = foldl (fun t li => insert_or_replace (get (li_id li))
                                    (line_item_row_of oid li) t)
                 (line_items (conn st)) lis)
  /\ (forall (os : list order) (w : world),
        Forall (fun o => order_storable o = true) os ->
        exists w',
          store_orders (map Item os) w = (Ok (Z.of_nat (length os)), w')).
Proof.
  repeat split.
  - intros s Hs. rewrite coerce_price_str. exact Hs.
  - intros o oid lis st Hid Hlis.
    destruct (store_order_run o oid lis st Hid Hlis)
      as (st' & Hrun & Hor & Hli & _).
    exists st'. repeat split; assumption.
  - intros os w Hos. unfold store_orders. rewrite store_pass_run.
    destruct (store_orders_loop_run os Hos (loop_start (db w)))
      as (st' & Hrun & Hsv).
    rewrite Hrun. eexists. f_equal. f_equal. rewrite Hsv. cbn. lia.
Qed.

(** C7, amended, on the order of the design document: [total_price] is
    ["abc"]; the order is written with a null price and its two line items
    are written. *)
Lemma price_coercion_never_aborts_witness :
  let o := an_order (Val 7) (Val (SStr "abc")) None
             (Val [a_line_item (Val 1) (Val (SStr "9.50"));
                   a_line_item (Val 2) Null]) in
  or_total_price (order_row_of (RT := reference_runtime) o) = None
  /\ exists st',
       store_order (RT := reference_runtime) o (loop_start empty_database)
       = Ok st'
       /\ orders (conn st')
          = <[7 := order_row_of (RT := reference_runtime) o]> ∅
       /\ line_items (conn st')
          = foldl (fun t li => insert_or_replace (get (li_id li))
                     (line_item_row_of (RT := reference_runtime) 7 li) t)
              ∅ [a_line_item (Val 1) (Val (SStr "9.50"));
                 a_line_item (Val 2) Null].
Proof.
  split; [reflexivity|].
  apply (proj1 (proj2 (price_coercion_never_aborts (RT := reference_runtime))));
    reflexivity.
Defined.

(** C9, as stated, fails: the write of a line item of the second order
    fails (its [order_id] would be null), and the pass neither skips that
    row nor goes on; it raises, nothing is committed, and the orders
    before and after the failing one are not in the store. *)
Lemma failed_row_write_is_not_skipped :
  let items := [Item (an_order (Val 1) Absent None Absent);
                Item (an_order Null Absent None
                        (Val [a_line_item (Val 10) Absent]));
                Item (an_order (Val 3) Absent None Absent)] in
  let run := store_orders (RT := reference_runtime) items empty_world in
  run.1 = Raise IntegrityError
  /\ run.2 = empty_world
  /\ orders (db run.2) !! 1 = None
  /\ orders (db run.2) !! 3 = None.
Proof. vm_compute. repeat split. Qed.

(** C9, amended.  A pass in which the write of a row fails is aborted:
    when the loop reaches an order (a product) whose child row cannot be
    written, because the parent's [id] is null and the child's foreign key
    is declared [NOT NULL], the pass raises [IntegrityError], and the
    store is left as it was before the pass: no row of the pass is
    committed, not even those written before the fault, the watermark is
    not advanced, and the records after the fault are not reached. *)
Theorem failed_row_write_aborts_pass `{RT : Runtime} (w : world)
    (st : loop_vars) :
  (forall (pre post : list (fetched order)) (bad : order) (li : line_item)
          (lis : list line_item),
     for_each (store_item store_order) pre (loop_start (db w)) = Ok st ->
     o_id bad = Null ->
     o_line_items bad = Val (li :: lis) ->
     store_orders (pre ++ Item bad :: post) w = (Raise IntegrityError, w))
  /\ (forall (pre post : list (fetched product)) (bad : product) (v : variant)
             (vs : list variant),
        for_each (store_item store_product) pre (loop_start (db w)) = Ok st ->
        p_id bad = Null ->
        p_variants bad = Val (v :: vs) ->
        v_id v <> Absent ->
        store_products (pre ++ Item bad :: post) w = (Raise IntegrityError, w)).
Proof.
  split.
  - intros pre post bad li lis Hpre Hid Hlis.
    unfold store_orders. rewrite store_pass_run, for_each_app, Hpre.
    cbn [pbind for_each store_item]. unfold store_order.
    rewrite Hid, Hlis. reflexivity.
  - intros pre post bad v vs Hpre Hid Hvs Hv.
    unfold store_products. rewrite store_pass_run, for_each_app, Hpre.
    cbn [pbind for_each store_item]. unfold store_product.
    rewrite Hid, Hvs. cbn [getitem pbind get_default iter for_each].
    unfold store_variant. destruct (v_id v); [contradiction| |]; reflexivity.
Qed.

(** C9, amended, on three orders of which the second cannot be written. *)
Lemma failed_row_write_aborts_pass_witness :
  store_orders (RT := reference_runtime)
    ([Item (an_order (Val 1) Absent None Absent)]
     ++ Item (an_order Null Absent None (Val [a_line_item (Val 10) Absent]))
        :: [Item (an_order (Val 3) Absent None Absent)])
    empty_world
  = (Raise IntegrityError, empty_world).
Proof.
  eapply (proj1 (failed_row_write_aborts_pass (RT := reference_runtime)
                   empty_world _)); reflexivity.
Defined.

(* ===================================================================== *)
(** ** Replace by identity *)
(* ===================================================================== *)

Lemma union_absorb `{Countable K} {V} (m1 m2 : gmap K V) :
  m1 ∪ (m1 ∪ m2) = m1 ∪ m2.
Proof.
  apply map_eq. intros i. rewrite !lookup_union.
  destruct (m1 !! i), (m2 !! i); reflexivity.
Qed.

Lemma insert_union_absorb `{Countable K} {V} (k : K) (v : V) (m1 m2 : gmap K V) :
  <[k := v]> (m1 ∪ <[k := v]> (m1 ∪ m2)) = <[k := v]> (m1 ∪ m2).
Proof.
  apply map_eq. intros i. destruct (decide (k = i)) as [->|Hne].
  - rewrite !lookup_insert_eq. reflexivity.
  - rewrite !lookup_insert_ne, !lookup_union, lookup_insert_ne,
      lookup_union by assumption.
    destruct (m1 !! i), (m2 !! i); reflexivity.
Qed.

Lemma insert_or_replace_union {R} (k : Z) (row : R) (t1 t2 : gmap Z R) :
  insert_or_replace (Some k) row (t1 ∪ t2)
  = insert_or_replace (Some k) row t1 ∪ t2.
Proof. unfold insert_or_replace. cbn. apply insert_union_l. Qed.

Lemma db_union_empty (c : database) : db_union empty_database c = c.
Proof.
  destruct c. unfold db_union, empty_database. cbn.
  rewrite !(left_id_L ∅ (∪)). reflexivity.
Qed.

Lemma db_union_absorb (d c : database) :
  db_union d (db_union d c) = db_union d c.
Proof. unfold db_union. cbn. rewrite !union_absorb. reflexivity. Qed.

Lemma db_union_set_metadata_absorb (key v : string) (d c : database) :
  set_metadata (fun md => <[key := v]> md)
    (db_union d (set_metadata (fun md => <[key := v]> md) (db_union d c)))
  = set_metadata (fun md => <[key := v]> md) (db_union d c).
Proof.
  unfold set_metadata, db_union. cbn.
  rewrite !union_absorb, insert_union_absorb. reflexivity.
Qed.

Lemma loop_start_overlay (c : database) :
  loop_start c = overlay c (loop_start empty_database).
Proof.
  unfold overlay, execute, loop_start. cbn. rewrite db_union_empty.
  reflexivity.
Qed.

Lemma for_each_overlay {A} (body : A -> loop_vars -> pyres loop_vars)
    (c : database) (l : list A) :
  Forall (fun x => forall st, body x (overlay c st) = overlay_res c (body x st)) l ->
  forall st, for_each body l (overlay c st) = overlay_res c (for_each body l st).
Proof.
  induction 1 as [|x l Hx _ IH]; intros st; [reflexivity|].
  cbn [for_each]. rewrite Hx. destruct (body x st) as [st'|e]; cbn.
  - apply IH.
  - reflexivity.
Qed.

(** Reduce the projections of the records of the store. *)
Ltac rows :=
  cbn [conn saved saved_children max_updated products product_variants
       customers orders line_items metadata overlay_res pbind getitem
       not_null].

Section IdempotenceFacts.
Context `{RT : Runtime}.

Lemma store_variant_overlay (c : database) (pid : option Z) (v : variant)
    (st : loop_vars) :
  not_null_id (v_id v) = true ->
  store_variant pid v (overlay c st)
  = overlay_res c (store_variant pid v st).
Proof.
  intros Hv. unfold store_variant.
  destruct (v_id v) as [| |vid]; [reflexivity|discriminate|].
  destruct pid as [pid|]; [|reflexivity].
  cbn [not_null pbind].
  unfold overlay, execute, count_child, set_product_variants, db_union.
  rows. rewrite insert_or_replace_union. reflexivity.
Qed.

Lemma store_product_overlay (c : database) (p : product) (st : loop_vars) :
  product_identified p = true ->
  store_product p (overlay c st) = overlay_res c (store_product p st).
Proof.
  unfold product_identified. intros H. apply andb_prop in H as [Hid Hvs].
  unfold store_product.
  destruct (p_id p) as [| |pid]; [reflexivity|discriminate|].
  cbn [getitem pbind].
  destruct (p_variants p) as [| |vs]; cbn [get_default iter pbind children] in *.
  - cbn [for_each pbind].
    unfold overlay, overlay_res, execute, count_saved, set_max_updated,
      set_products, db_union.
    rows. rewrite insert_or_replace_union. reflexivity.
  - reflexivity.
  - match goal with |- context [for_each _ vs (execute ?f (count_saved (overlay c st)))] =>
      replace (execute f (count_saved (overlay c st)))
        with (overlay c (execute f (count_saved st)))
    end.
    2:{ unfold overlay, execute, count_saved, set_products, db_union. rows.
        rewrite insert_or_replace_union. reflexivity. }
    rewrite for_each_overlay.
    + destruct (for_each _ vs _); reflexivity.
    + apply Forall_forall. intros v Hin st'.
      apply store_variant_overlay.
      rewrite forallb_forall in Hvs. apply Hvs.
      apply list_elem_of_In. exact Hin.
Qed.

Lemma store_customer_overlay (c : database) (cu : customer) (st : loop_vars) :
  customer_identified cu = true ->
  store_customer cu (overlay c st) = overlay_res c (store_customer cu st).
Proof.
  unfold customer_identified, store_customer. intros Hid.
  destruct (c_id cu) as [| |cid]; [reflexivity|discriminate|].
  cbn [getitem pbind].
  unfold overlay, overlay_res, execute, count_saved, set_max_updated,
    set_customers, db_union.
  rows. rewrite insert_or_replace_union. reflexivity.
Qed.

Lemma store_line_item_overlay (c : database) (oid : option Z) (li : line_item)
    (st : loop_vars) :
  has_id (li_id li) = true ->
  store_line_item oid li (overlay c st)
  = overlay_res c (store_line_item oid li st).
Proof.
  intros Hli. unfold store_line_item.
  destruct (li_id li) as [| |k]; try discriminate.
  destruct oid as [oid|]; [|reflexivity].
  cbn [not_null pbind get].
  unfold overlay, execute, count_child, set_line_items, db_union.
  rows. rewrite insert_or_replace_union. reflexivity.
Qed.

Lemma store_order_overlay (c : database) (o : order) (st : loop_vars) :
  order_identified o = true ->
  store_order o (overlay c st) = overlay_res c (store_order o st).
Proof.
  unfold order_identified. intros H. apply andb_prop in H as [Hid Hlis].
  unfold store_order.
  destruct (o_id o) as [| |oid]; [reflexivity|discriminate|].
  cbn [getitem pbind].
  destruct (o_line_items o) as [| |lis]; cbn [get_default iter pbind children] in *.
  - cbn [for_each pbind].
    unfold overlay, overlay_res, execute, count_saved, set_max_updated,
      set_orders, db_union.
    rows. rewrite insert_or_replace_union. reflexivity.
  - reflexivity.
  - match goal with |- context [for_each _ lis (execute ?f (count_saved (overlay c st)))] =>
      replace (execute f (count_saved (overlay c st)))
        with (overlay c (execute f (count_saved st)))
    end.
    2:{ unfold overlay, execute, count_saved, set_orders, db_union. rows.
        rewrite insert_or_replace_union. reflexivity. }
    rewrite for_each_overlay.
    + destruct (for_each _ lis _); reflexivity.
    + apply Forall_forall. intros li Hin st'.
      apply store_line_item_overlay.
      rewrite forallb_forall in Hlis. apply Hlis.
      apply list_elem_of_In. exact Hin.
Qed.

(** A loop whose turns write under the keys the records carry does on
    any store what it does on the empty store, laid over that store. *)
Lemma store_loop_overlay {A} (store : A -> loop_vars -> pyres loop_vars)
    (P : A -> bool) (items : list (fetched A)) (c : database) :
  (forall a st, P a = true ->
                store a (overlay c st) = overlay_res c (store a st)) ->
  forallb (item_holds P) items = true ->
  for_each (store_item store) items (loop_start c)
  = overlay_res c (for_each (store_item store) items
                     (loop_start empty_database)).
Proof.
  intros Hstore Hitems. rewrite (loop_start_overlay c).
  apply for_each_overlay. apply Forall_forall. intros x Hin st.
  rewrite forallb_forall in Hitems.
  specialize (Hitems x (proj1 (list_elem_of_In _ _) Hin)).
  destruct x as [a|d]; cbn [store_item item_holds] in *.
  - apply Hstore, Hitems.
  - destruct (dict_get "id" d); reflexivity.
Qed.

(** Running the store step again, on the same items, from the state the
    first run left, returns the same count and leaves that state. *)
Lemma store_pass_idempotent {A} (store : A -> loop_vars -> pyres loop_vars)
    (P : A -> bool) (key : string) (items : list (fetched A)) (w : world) :
  (forall c a st, P a = true ->
                  store a (overlay c st) = overlay_res c (store a st)) ->
  forallb (item_holds P) items = true ->
  store_pass store key items (store_pass store key items w).2
  = store_pass store key items w.
Proof.
  intros Hstore Hitems.
  rewrite (store_pass_run store key items w).
  rewrite (store_loop_overlay store P items (db w) (Hstore (db w)) Hitems).
  destruct (for_each (store_item store) items (loop_start empty_database))
    as [st0|e] eqn:Hrun; cbn [overlay_res snd].
  - rewrite store_pass_run. cbn [db set_db].
    rewrite (store_loop_overlay store P items _ (Hstore _) Hitems), Hrun.
    cbn [overlay_res overlay execute conn saved max_updated].
    unfold set_db. cbn.
    destruct (max_updated st0) as [m|].
    + rewrite db_union_set_metadata_absorb. reflexivity.
    + rewrite db_union_absorb. reflexivity.
  - rewrite store_pass_run.
    rewrite (store_loop_overlay store P items (db w) (Hstore (db w)) Hitems).
    rewrite Hrun. reflexivity.
Qed.
End IdempotenceFacts.

(** C1, as stated, fails on a record without identity: a line item that
    has no [id] takes a fresh rowid at every run, so the second run of the
    store step on the same order adds a second row for it. *)
Lemma upsert_twice_duplicates_unidentified_line_item :
  let items := [Item (an_order (Val 1) Absent None
                        (Val [a_line_item Absent Absent]))] in
  let once := (store_orders (RT := reference_runtime) items empty_world).2 in
  let twice := (store_orders (RT := reference_runtime) items once).2 in
  size (line_items (db once)) = 1%nat
  /\ size (line_items (db twice)) = 2%nat
  /\ twice <> once.
Proof.
  cbv zeta. split; [vm_compute; reflexivity|].
  split; [vm_compute; reflexivity|].
  intros H. apply (f_equal (fun w => size (line_items (db w)))) in H.
  vm_compute in H. discriminate.
Qed.

(** C1, amended.  Upsert idempotence, for records that carry their
    identity.  For every fetched set of products with nested variants, of
    customers, and of orders with nested line items, in which no [id] is
    null and every line item has an [id], running the store step a second
    time on the same set, from the store the first run left, returns the
    same count and leaves the store (tables and watermark) as the first
    run left it. *)
Theorem upsert_is_idempotent `{RT : Runtime} (w : world) :
  (forall items : list (fetched product),
     forallb (item_holds product_identified) items = true ->
     store_products items (store_products items w).2 = store_products items w)
  /\ (forall items : list (fetched customer),
        forallb (item_holds customer_identified) items = true ->
        store_customers items (store_customers items w).2
        = store_customers items w)
  /\ (forall items : list (fetched order),
        forallb (item_holds order_identified) items = true ->
        store_orders items (store_orders items w).2 = store_orders items w).
Proof.
  repeat split; intros items Hitems.
  - apply (store_pass_idempotent store_product product_identified);
      [|exact Hitems].
    intros c a st. apply store_product_overlay.
  - apply (store_pass_idempotent store_customer customer_identified);
      [|exact Hitems].
    intros c a st. apply store_customer_overlay.
  - apply (store_pass_idempotent store_order order_identified);
      [|exact Hitems].
    intros c a st. apply store_order_overlay.
Qed.

(** C1, amended, on an order with two identified line items, one of them
    fetched twice. *)
Lemma upsert_is_idempotent_witness :
  let items := [Item (an_order (Val 1) (Val (SStr "19.99"))
                        (Some "2024-01-01T00:00:30-05:00")
                        (Val [a_line_item (Val 10) Absent;
                              a_line_item (Val 11) Null;
                              a_line_item (Val 10) (Val (SStr "5"))]))] in
  store_orders (RT := reference_runtime) items
    (store_orders (RT := reference_runtime) items empty_world).2
  = store_orders (RT := reference_runtime) items empty_world.
Proof.
  apply (proj2 (proj2 (upsert_is_idempotent (RT := reference_runtime)
                         empty_world))).
  reflexivity.
Defined.

(* ===================================================================== *)
(** ** The watermark *)
(* ===================================================================== *)

Lemma same_kind_refl (a : datetime) : same_kind a a = true.
Proof. unfold same_kind. destruct (utcoffset a); reflexivity. Qed.

Lemma same_kind_sym (a b : datetime) : same_kind a b = same_kind b a.
Proof. unfold same_kind. destruct (utcoffset a), (utcoffset b); reflexivity. Qed.

Lemma same_kind_trans (a b c : datetime) :
  same_kind a b = true -> same_kind b c = true -> same_kind a c = true.
Proof.
  unfold same_kind.
  destruct (utcoffset a), (utcoffset b), (utcoffset c); auto; discriminate.
Qed.

Lemma datetime_gt_spec (a b : datetime) :
  datetime_gt a b
  = if same_kind a b then Ok (sort_key b <? sort_key a) else Raise TypeError.
Proof.
  unfold datetime_gt, same_kind, sort_key, us_per_second.
  destruct (utcoffset a), (utcoffset b); cbn; try reflexivity.
  do 2 f_equal; lia.
Qed.

(** The fold of [newer] from a value [m0] ends on a value of the kind of
    [m0] that is [m0] or one of the timestamps, and that no timestamp of
    that kind exceeds. *)
Lemma foldl_newer_some (ts : list datetime) :
  forall m0 : datetime,
    exists m,
      foldl newer (Some m0) ts = Some m
      /\ (m = m0 \/ In m ts)
      /\ same_kind m m0 = true
      /\ sort_key m0 <= sort_key m
      /\ forall t, In t ts -> same_kind t m0 = true -> sort_key t <= sort_key m.
Proof.
  induction ts as [|t ts IH]; intros m0.
  - exists m0. repeat split; auto using same_kind_refl; try lia.
    intros t [].
  - cbn [foldl newer].
    destruct (same_kind t m0 && (sort_key m0 <? sort_key t)) eqn:E.
    + apply andb_prop in E as [Hk Hlt]. apply Z.ltb_lt in Hlt.
      destruct (IH t) as (m & Hm & Hin & Hkm & Hle & Hall).
      exists m. split; [exact Hm|]. split; [|split; [|split]].
      * right. destruct Hin as [->|Hin]; [left; reflexivity|right; exact Hin].
      * eapply same_kind_trans; eassumption.
      * lia.
      * intros t' [<-|Hin'] Hk'; [lia|].
        apply Hall; [exact Hin'|].
        rewrite same_kind_sym in Hk. eapply same_kind_trans; eassumption.
    + destruct (IH m0) as (m & Hm & Hin & Hkm & Hle & Hall).
      exists m. split; [exact Hm|]. split; [|split; [|split]].
      * destruct Hin as [->|Hin]; [left; reflexivity|right; right; exact Hin].
      * exact Hkm.
      * exact Hle.
      * intros t' [<-|Hin'] Hk'; [|apply Hall; assumption].
        rewrite Hk' in E. cbn in E. apply Z.ltb_ge in E. lia.
Qed.

Section WatermarkFacts.
Context `{RT : Runtime}.

Lemma track_max_updated_spec (updated_at : option string)
    (m : option datetime) :
  track_max_updated updated_at m
  = match usable_timestamp updated_at with
    | Some t => newer m t
    | None => m
    end.
Proof.
  unfold track_max_updated, usable_timestamp.
  destruct (truthy updated_at) as [s|]; [|reflexivity].
  destruct (fromisoformat (replace "Z" "+00:00" s)) as [t|]; [|reflexivity].
  destruct m as [m0|]; [|reflexivity].
  cbn [newer]. rewrite datetime_gt_spec.
  destruct (same_kind t m0); [|reflexivity].
  destruct (sort_key m0 <? sort_key t); reflexivity.
Qed.

Lemma store_variants_max (pid : option Z) (vs : list variant) :
  forall st st',
    for_each (store_variant pid) vs st = Ok st' ->
    max_updated st' = max_updated st.
Proof.
  induction vs as [|v vs IH]; intros st st'; cbn [for_each].
  - intros [= <-]. reflexivity.
  - unfold store_variant at 1.
    destruct (getitem (v_id v)) as [vid|]; [|discriminate].
    destruct (not_null pid) as [k|]; [|discriminate].
    cbn [pbind]. intros H. rewrite (IH _ _ H). reflexivity.
Qed.

Lemma store_line_items_max (oid : option Z) (lis : list line_item) :
  forall st st',
    for_each (store_line_item oid) lis st = Ok st' ->
    max_updated st' = max_updated st.
Proof.
  induction lis as [|li lis IH]; intros st st'; cbn [for_each].
  - intros [= <-]. reflexivity.
  - unfold store_line_item at 1.
    destruct (not_null oid) as [k|]; [|discriminate].
    cbn [pbind]. intros H. rewrite (IH _ _ H). reflexivity.
Qed.

Lemma usable_timestamps_item {A} (updated_at : A -> option string) (a : A)
    (items : list (fetched A)) :
  usable_timestamps updated_at (Item a :: items)
  = match usable_timestamp (updated_at a) with
    | Some t => t :: usable_timestamps updated_at items
    | None => usable_timestamps updated_at items
    end.
Proof. reflexivity. Qed.

(** The loops write rows, never the [metadata] table. *)
Lemma store_variants_metadata (pid : option Z) (vs : list variant) :
  forall st st',
    for_each (store_variant pid) vs st = Ok st' ->
    metadata (conn st') = metadata (conn st).
Proof.
  induction vs as [|v vs IH]; intros st st'; cbn [for_each].
  - intros [= <-]. reflexivity.
  - unfold store_variant at 1.
    destruct (getitem (v_id v)) as [vid|]; [|discriminate].
    destruct (not_null pid) as [k|]; [|discriminate].
    cbn [pbind]. intros H. rewrite (IH _ _ H). reflexivity.
Qed.

Lemma store_line_items_metadata (oid : option Z) (lis : list line_item) :
  forall st st',
    for_each (store_line_item oid) lis st = Ok st' ->
    metadata (conn st') = metadata (conn st).
Proof.
  induction lis as [|li lis IH]; intros st st'; cbn [for_each].
  - intros [= <-]. reflexivity.
  - unfold store_line_item at 1.
    destruct (not_null oid) as [k|]; [|discriminate].
    cbn [pbind]. intros H. rewrite (IH _ _ H). reflexivity.
Qed.

Lemma store_product_tracks : tracks store_product p_updated_at.
Proof.
  intros p st st'. unfold store_product.
  destruct (getitem (p_id p)) as [pid|]; [|discriminate]. cbn [pbind].
  destruct (iter (get_default (p_variants p) [])) as [vs|]; [|discriminate].
  cbn [pbind].
  destruct (for_each (store_variant pid) vs _) as [st1|] eqn:Hvs;
    [|discriminate].
  cbn [pbind]. intros [= <-].
  rewrite (store_variants_max _ _ _ _ Hvs).
  cbn [set_max_updated conn].
  rewrite (store_variants_metadata _ _ _ _ Hvs). split; reflexivity.
Qed.

Lemma store_customer_tracks : tracks store_customer c_updated_at.
Proof.
  intros c st st'. unfold store_customer.
  destruct (getitem (c_id c)) as [cid|]; [|discriminate]. cbn [pbind].
  intros [= <-]. split; reflexivity.
Qed.

Lemma store_order_tracks : tracks store_order o_updated_at.
Proof.
  intros o st st'. unfold store_order.
  destruct (getitem (o_id o)) as [oid|]; [|discriminate]. cbn [pbind].
  destruct (iter (get_default (o_line_items o) [])) as [lis|]; [|discriminate].
  cbn [pbind].
  destruct (for_each (store_line_item oid) lis _) as [st1|] eqn:Hlis;
    [|discriminate].
  cbn [pbind]. intros [= <-].
  rewrite (store_line_items_max _ _ _ _ Hlis).
  cbn [set_max_updated conn].
  rewrite (store_line_items_metadata _ _ _ _ Hlis). split; reflexivity.
Qed.

(** [max_updated] at the end of the loop is the fold of [newer] over the
    usable timestamps of the items. *)
Lemma store_loop_max {A} (store : A -> loop_vars -> pyres loop_vars)
    (updated_at : A -> option string) (items : list (fetched A)) :
  tracks store updated_at ->
  forall st st',
    for_each (store_item store) items st = Ok st' ->
    max_updated st'
    = foldl newer (max_updated st) (usable_timestamps updated_at items)
    /\ metadata (conn st') = metadata (conn st).
Proof.
  intros Hstore. induction items as [|x items IH]; intros st st'.
  - cbn. intros [= <-]. split; reflexivity.
  - cbn [for_each]. destruct x as [a|d]; cbn [store_item].
    + destruct (store a st) as [st1|] eqn:Ha; [|discriminate].
      cbn [pbind]. intros H.
      destruct (IH _ _ H) as [Hmax Hmd].
      destruct (Hstore _ _ _ Ha) as [Hmax1 Hmd1].
      rewrite Hmax, Hmd, Hmax1, Hmd1, track_max_updated_spec,
        usable_timestamps_item.
      destruct (usable_timestamp (updated_at a)); split; reflexivity.
    + destruct (dict_get "id" d); discriminate.
Qed.

(** The watermark the store step leaves. *)
Lemma store_pass_watermark {A} (store : A -> loop_vars -> pyres loop_vars)
    (updated_at : A -> option string) (key : string)
    (items : list (fetched A)) (w : world) :
  tracks store updated_at ->
  match (store_pass store key items w).1 with
  | Ok _ =>
      watermark_after_pass key (usable_timestamps updated_at items) w
        (store_pass store key items w).2
  | Raise _ => (store_pass store key items w).2 = w
  end.
Proof.
  intros Hstore. rewrite store_pass_run.
  destruct (for_each (store_item store) items (loop_start (db w)))
    as [st|e] eqn:Hrun; cbn [fst snd]; [|reflexivity].
  destruct (store_loop_max store updated_at items Hstore _ _ Hrun)
    as [Hmax Hmd].
  cbn [loop_start max_updated conn] in Hmax, Hmd.
  unfold watermark_after_pass.
  destruct (usable_timestamps updated_at items) as [|t ts].
  - cbn in Hmax. rewrite Hmax. cbn. rewrite Hmd. reflexivity.
  - cbn [foldl newer] in Hmax.
    destruct (foldl_newer_some ts t) as (m & Hm & Hin & Hk & Hle & Hall).
    rewrite Hm in Hmax. rewrite Hmax. exists m. cbn.
    rewrite lookup_insert_eq. split; [reflexivity|]. split.
    + destruct Hin as [->|Hin]; [left; reflexivity|right; exact Hin].
    + intros t' [<-|Hin'] Hk'; [exact Hle|].
      apply Hall; [exact Hin'|].
      eapply same_kind_trans; eassumption.
Qed.
End WatermarkFacts.

(* ===================================================================== *)
(** ** The passes *)
(* ===================================================================== *)

Section PassFacts.
Context `{RT : Runtime}.

(** A fetch changes the script of its endpoint and the trace, nothing
    else. *)
Lemma zoom_products_frame {B} (m : M (http product) B) (w w1 : world)
    (r : pyres B) :
  zoom products_http set_products_http m w = (r, w1) ->
  db w1 = db w /\ customers_api w1 = customers_api w
  /\ orders_api w1 = orders_api w.
Proof.
  unfold zoom. destruct (m (products_http w)) as [r' h].
  intros [= _ <-]. repeat split.
Qed.

Lemma zoom_customers_frame {B} (m : M (http customer) B) (w w1 : world)
    (r : pyres B) :
  zoom customers_http set_customers_http m w = (r, w1) ->
  db w1 = db w /\ products_api w1 = products_api w
  /\ orders_api w1 = orders_api w.
Proof.
  unfold zoom. destruct (m (customers_http w)) as [r' h].
  intros [= _ <-]. repeat split.
Qed.

Lemma zoom_orders_frame {B} (m : M (http order) B) (w w1 : world)
    (r : pyres B) :
  zoom orders_http set_orders_http m w = (r, w1) ->
  db w1 = db w /\ products_api w1 = products_api w
  /\ customers_api w1 = customers_api w.
Proof.
  unfold zoom. destruct (m (orders_http w)) as [r' h].
  intros [= _ <-]. repeat split.
Qed.

Lemma fetch_products_run (incremental : bool) (w : world) :
  fetch_products incremental w
  = match with_updated_at_min incremental
            (metadata (db w) !! "products_last_sync")
            [("limit", PInt 250)] with
    | Ok params =>
        zoom products_http set_products_http
          (fetch_all_rest "products.json" (Some params) (Some "products")) w
    | Raise e => (Raise e, w)
    end.
Proof.
  unfold fetch_products, db_get_metadata, bind, gets, lift.
  destruct (with_updated_at_min _ _ _); reflexivity.
Qed.

Lemma fetch_customers_run (incremental : bool) (w : world) :
  fetch_customers incremental w
  = match with_updated_at_min incremental
            (metadata (db w) !! "customers_last_sync")
            [("limit", PInt 250)] with
    | Ok params =>
        zoom customers_http set_customers_http
          (fetch_all_rest "customers.json" (Some params) (Some "customers")) w
    | Raise e => (Raise e, w)
    end.
Proof.
  unfold fetch_customers, db_get_metadata, bind, gets, lift.
  destruct (with_updated_at_min _ _ _); reflexivity.
Qed.

Lemma fetch_orders_run (incremental : bool) (status : string) (w : world) :
  fetch_orders incremental status w
  = match with_updated_at_min incremental
            (metadata (db w) !! "orders_last_sync")
            [("limit", PInt 250); ("status", PStr status)] with
    | Ok params =>
        zoom orders_http set_orders_http
          (fetch_all_rest "orders.json" (Some params) (Some "orders")) w
    | Raise e => (Raise e, w)
    end.
Proof.
  unfold fetch_orders, db_get_metadata, bind, gets, lift.
  destruct (with_updated_at_min _ _ _); reflexivity.
Qed.

(** The fetch of a pass writes nothing to the store and leaves the
    other endpoints alone. *)
Lemma fetch_products_frame (incremental : bool) (w w1 : world)
    (r : pyres (list (fetched product))) :
  fetch_products incremental w = (r, w1) ->
  db w1 = db w /\ customers_api w1 = customers_api w
  /\ orders_api w1 = orders_api w.
Proof.
  rewrite fetch_products_run.
  destruct (with_updated_at_min _ _ _).
  - apply zoom_products_frame.
  - intros [= _ <-]. repeat split.
Qed.

Lemma fetch_customers_frame (incremental : bool) (w w1 : world)
    (r : pyres (list (fetched customer))) :
  fetch_customers incremental w = (r, w1) ->
  db w1 = db w /\ products_api w1 = products_api w
  /\ orders_api w1 = orders_api w.
Proof.
  rewrite fetch_customers_run.
  destruct (with_updated_at_min _ _ _).
  - apply zoom_customers_frame.
  - intros [= _ <-]. repeat split.
Qed.

Lemma fetch_orders_frame (incremental : bool) (status : string)
    (w w1 : world) (r : pyres (list (fetched order))) :
  fetch_orders incremental status w = (r, w1) ->
  db w1 = db w /\ products_api w1 = products_api w
  /\ customers_api w1 = customers_api w.
Proof.
  rewrite fetch_orders_run.
  destruct (with_updated_at_min _ _ _).
  - apply zoom_orders_frame.
  - intros [= _ <-]. repeat split.
Qed.

(** A pass is its fetch followed, when the fetch returns, by its store
    step. *)
Lemma pass_run {A} (fetch : M world (list (fetched A)))
    (store : list (fetched A) -> M world Z) (w : world) :
  bind fetch store w
  = match fetch w with
    | (Ok items, w1) => store items w1
    | (Raise e, w1) => (Raise e, w1)
    end.
Proof. reflexivity. Qed.

(** The watermark a pass leaves, from the store before the pass. *)
Lemma pass_watermark {A} (fetch : M world (list (fetched A)))
    (store : A -> loop_vars -> pyres loop_vars)
    (updated_at : A -> option string) (key : string) (w w' : world)
    (r : pyres Z) :
  tracks store updated_at ->
  (forall r1 w1, fetch w = (r1, w1) -> db w1 = db w) ->
  bind fetch (store_pass store key) w = (r, w') ->
  match r with
  | Ok _ =>
      exists items w1,
        fetch w = (Ok items, w1)
        /\ watermark_after_pass key (usable_timestamps updated_at items) w w'
  | Raise _ => db w' = db w
  end.
Proof.
  intros Htracks Hframe. rewrite pass_run.
  destruct (fetch w) as [[items|e] w1] eqn:Hfetch.
  - pose proof (Hframe _ _ eq_refl) as Hdb.
    pose proof (store_pass_watermark store updated_at key items w1 Htracks)
      as Hw.
    intros Hrun. rewrite Hrun in Hw. cbn [fst snd] in Hw.
    destruct r as [n|e].
    + exists items, w1. split; [reflexivity|].
      unfold watermark_after_pass in *. rewrite <- Hdb. exact Hw.
    + rewrite Hw. exact Hdb.
  - intros [= <- <-]. exact (Hframe _ _ eq_refl).
Qed.
End PassFacts.

(* ===================================================================== *)
(** ** Properties of the watermark and of the orchestrator *)
(* ===================================================================== *)

(** C2, as stated, fails: the watermark can decrease.  A full pass
    fetches two products and stores the watermark of the newer one.  That
    product is then deleted upstream.  The next incremental pass asks for
    the records updated since the watermark minus 60 seconds, is answered
    with the other product, updated 30 seconds before the watermark, and
    stores that older timestamp: the pass writes the maximum it has seen
    without comparing it with the stored value. *)
Lemma watermark_moves_back :
  let a := a_product (Val 1) (Some "2024-01-02T00:00:00Z") in
  let b := a_product (Val 2) (Some "2024-01-01T23:59:30Z") in
  let w0 := {| db := empty_database;
               products_api := [Responds (page_of "products" [a; b] None);
                                Responds (page_of "products" [b] None)];
               customers_api := []; orders_api := []; events := [] |} in
  let w1 := (fetch_and_store_products (RT := reference_runtime) false w0).2 in
  let w2 := (fetch_and_store_products (RT := reference_runtime) true w1).2 in
  metadata (db w1) !! "products_last_sync" = Some "2024-01-02T00:00:00+00:00"
  /\ metadata (db w2) !! "products_last_sync"
     = Some "2024-01-01T23:59:30+00:00"
  /\ last (events w2)
     = Some (EvRequest "GET"
               "https://example-store.myshopify.com/admin/api/2024-10/products.json"
               (Some [("limit", PInt 250);
                      ("updated_at_min", PStr "2024-01-01T23:59:00Z")]))
  /\ (t1 ← reference_fromisoformat "2024-01-02T00:00:00+00:00";
      t2 ← reference_fromisoformat "2024-01-01T23:59:30+00:00";
      Some (datetime_gt t1 t2)) = Some (Ok true).
Proof. vm_compute. repeat split. Qed.

(** C2, amended.  After a pass that completes, the stored watermark of
    its entity type is the text of the maximum [updated_at] among the
    records the pass fetched: a timestamp of one of those records that no
    other fetched timestamp comparable with it exceeds, records without a
    usable [updated_at] being left out; it is unchanged when the pass
    fetched no record with a usable [updated_at], in particular no record
    at all, and when the pass fails.  The watermark is the maximum of the
    pass, not of the passes so far: it does not decrease as long as a
    fetched record is at least as recent as the stored value. *)
Theorem watermark_is_maximum_of_pass `{RT : Runtime} (incremental : bool)
    (w w' : world) (r : pyres Z) :
  (fetch_and_store_products incremental w = (r, w') ->
   match r with
   | Ok _ =>
       exists items w1,
         fetch_products incremental w = (Ok items, w1)
         /\ watermark_after_pass "products_last_sync"
              (usable_timestamps p_updated_at items) w w'
   | Raise _ => db w' = db w
   end)
  /\ (fetch_and_store_customers incremental w = (r, w') ->
      match r with
      | Ok _ =>
          exists items w1,
            fetch_customers incremental w = (Ok items, w1)
            /\ watermark_after_pass "customers_last_sync"
                 (usable_timestamps c_updated_at items) w w'
      | Raise _ => db w' = db w
      end)
  /\ (forall status,
        fetch_and_store_orders incremental status w = (r, w') ->
        match r with
        | Ok _ =>
            exists items w1,
              fetch_orders incremental status w = (Ok items, w1)
              /\ watermark_after_pass "orders_last_sync"
                   (usable_timestamps o_updated_at items) w w'
        | Raise _ => db w' = db w
        end).
Proof.
  repeat split.
  - apply (pass_watermark (fetch_products incremental) store_product
             p_updated_at "products_last_sync").
    + apply store_product_tracks.
    + intros r1 w1 H. apply (fetch_products_frame _ _ _ _ H).
  - apply (pass_watermark (fetch_customers incremental) store_customer
             c_updated_at "customers_last_sync").
    + apply store_customer_tracks.
    + intros r1 w1 H. apply (fetch_customers_frame _ _ _ _ H).
  - intros status.
    apply (pass_watermark (fetch_orders incremental status) store_order
             o_updated_at "orders_last_sync").
    + apply store_order_tracks.
    + intros r1 w1 H. apply (fetch_orders_frame _ _ _ _ _ H).
Qed.

(** C2, amended, on a full pass over two products. *)
Lemma watermark_is_maximum_of_pass_witness :
  let a := a_product (Val 1) (Some "2024-01-02T00:00:00Z") in
  let b := a_product (Val 2) (Some "2024-01-01T23:59:30Z") in
  let w0 := {| db := empty_database;
               products_api := [Responds (page_of "products" [b; a] None)];
               customers_api := []; orders_api := []; events := [] |} in
  let run := fetch_and_store_products (RT := reference_runtime) false w0 in
  exists items w1,
    fetch_products (RT := reference_runtime) false w0 = (Ok items, w1)
    /\ watermark_after_pass "products_last_sync"
         (usable_timestamps (RT := reference_runtime) p_updated_at items)
         w0 run.2.
Proof.
  cbv zeta.
  apply (proj1 (watermark_is_maximum_of_pass (RT := reference_runtime) false
                  _ _ (Ok 2))).
  reflexivity.
Defined.

Section OrchestratorFacts.
Context `{RT : Runtime}.

Lemma run_full_sync_run (incremental : bool) (w : world) :
  run_full_sync incremental w
  = match fetch_and_store_products incremental w with
    | (Raise e, w1) => (Raise e, w1)
    | (Ok p, w1) =>
        match fetch_and_store_customers incremental w1 with
        | (Raise e, w2) => (Raise e, w2)
        | (Ok c, w2) =>
            match fetch_and_store_orders incremental "any" w2 with
            | (Raise e, w3) => (Raise e, w3)
            | (Ok o, w3) => (Ok (p, c, o), w3)
            end
        end
    end.
Proof.
  unfold run_full_sync, init_db, bind, ret.
  destruct (fetch_and_store_products incremental w) as [[p|e] w1];
    [|reflexivity].
  destruct (fetch_and_store_customers incremental w1) as [[c|e] w2];
    [|reflexivity].
  destruct (fetch_and_store_orders incremental "any" w2) as [[o|e] w3];
    reflexivity.
Qed.
End OrchestratorFacts.

(** C4.  Fatal fetch.  When the fetch of a pass fails, with whatever
    exception, the pass raises it and the store is as it was before the
    pass: no table and no watermark is written.  The run raises it too
    and ends in the state the failed fetch left: the passes that follow
    are not started, so their endpoints are not requested; the passes
    that had completed keep what they committed, their watermarks
    included. *)
Theorem fatal_fetch_aborts_the_run `{RT : Runtime} (incremental : bool)
    (w : world) (e : exn) :
  (forall w1,
     fetch_products incremental w = (Raise e, w1) ->
     fetch_and_store_products incremental w = (Raise e, w1)
     /\ run_full_sync incremental w = (Raise e, w1)
     /\ db w1 = db w
     /\ customers_api w1 = customers_api w
     /\ orders_api w1 = orders_api w)
  /\ (forall p w1 w2,
        fetch_and_store_products incremental w = (Ok p, w1) ->
        fetch_customers incremental w1 = (Raise e, w2) ->
        fetch_and_store_customers incremental w1 = (Raise e, w2)
        /\ run_full_sync incremental w = (Raise e, w2)
        /\ db w2 = db w1
        /\ orders_api w2 = orders_api w1)
  /\ (forall p c w1 w2 w3,
        fetch_and_store_products incremental w = (Ok p, w1) ->
        fetch_and_store_customers incremental w1 = (Ok c, w2) ->
        fetch_orders incremental "any" w2 = (Raise e, w3) ->
        fetch_and_store_orders incremental "any" w2 = (Raise e, w3)
        /\ run_full_sync incremental w = (Raise e, w3)
        /\ db w3 = db w2).
Proof.
  split; [|split].
  - intros w1 Hf.
    destruct (fetch_products_frame _ _ _ _ Hf) as (Hdb & Hc & Ho).
    assert (Hpass : fetch_and_store_products incremental w = (Raise e, w1)).
    { unfold fetch_and_store_products. rewrite pass_run, Hf. reflexivity. }
    repeat split; try assumption.
    rewrite run_full_sync_run, Hpass. reflexivity.
  - intros p w1 w2 Hp Hf.
    destruct (fetch_customers_frame _ _ _ _ Hf) as (Hdb & _ & Ho).
    assert (Hpass : fetch_and_store_customers incremental w1 = (Raise e, w2)).
    { unfold fetch_and_store_customers. rewrite pass_run, Hf. reflexivity. }
    repeat split; try assumption.
    rewrite run_full_sync_run, Hp, Hpass. reflexivity.
  - intros p c w1 w2 w3 Hp Hc Hf.
    destruct (fetch_orders_frame _ _ _ _ _ Hf) as (Hdb & _ & _).
    assert (Hpass : fetch_and_store_orders incremental "any" w2 = (Raise e, w3)).
    { unfold fetch_and_store_orders. rewrite pass_run, Hf. reflexivity. }
    repeat split; try assumption.
    rewrite run_full_sync_run, Hp, Hc, Hpass. reflexivity.
Qed.

(** C4, on a run whose customers fetch times out five times: the run
    raises [RuntimeError]; the products pass keeps its rows and its
    watermark; the orders endpoint is not requested. *)
Lemma fatal_fetch_aborts_the_run_witness :
  let w0 := {| db := empty_database;
               products_api :=
                 [Responds (page_of "products"
                              [a_product (Val 1) (Some "2024-01-02T00:00:00Z")]
                              None)];
               customers_api := repeat (Throws Timeout) 5;
               orders_api := [Responds (page_of "orders" [] None)];
               events := [] |} in
  let w1 := (fetch_and_store_products (RT := reference_runtime) false w0).2 in
  exists w2,
    run_full_sync (RT := reference_runtime) false w0 = (Raise RuntimeError, w2)
    /\ db w2 = db w1
    /\ orders_api w2 = orders_api w0
    /\ metadata (db w2) !! "products_last_sync"
       = Some "2024-01-02T00:00:00+00:00"
    /\ is_Some (products (db w2) !! 1).
Proof.
  cbv zeta.
  eexists.
  match goal with
  | |- run_full_sync false ?w0 = _ /\ _ =>
      destruct (proj1 (proj2 (fatal_fetch_aborts_the_run
                                (RT := reference_runtime) false w0
                                RuntimeError))
                  1 _ _ ltac:(vm_compute; reflexivity)
                  ltac:(vm_compute; reflexivity))
        as (_ & Hrun & Hdb & Horders)
  end.
  split; [exact Hrun|].
  split; [reflexivity|].
  split; [reflexivity|].
  split; [reflexivity|].
  eexists. reflexivity.
Defined.

(* ===================================================================== *)
(** ** The lookback buffer *)
(* ===================================================================== *)

Section TraceFacts.
Context {A : Type}.
Variables (url : string) (params : option (list (string * pval)))
          (method : string).

(** One turn of the retry loop starts with the request. *)
Lemma attempt_first_request (ss : Z) (h h' : http A)
    (r : pyres (flow (response A))) :
  except_request_exception (attempt url params method ss)
    (fun _ => bind (time_sleep ss) (fun _ => ret Continue)) h = (r, h') ->
  exists evs, trace h' = (trace h ++ EvRequest method url params :: evs)%list.
Proof.
  unfold attempt, session_request, time_sleep, retry_after_of,
    raise_for_status.
  run_m.
  destruct (script h) as [|[r0|e] rest].
  - cbn. intros [= _ <-]. exists []. reflexivity.
  - destruct (status_code r0 =? 429).
    + destruct (headers_get "Retry-After" (headers r0)) as [s|];
        [destruct (int_of_str s) as [j|]|].
      * destruct (j <? 0); cbn; intros [= _ <-]; cbn;
          [exists []|exists [EvSleep j]; rewrite <- app_assoc]; reflexivity.
      * cbn. intros [= _ <-]. exists []. reflexivity.
      * destruct (ss <? 0); cbn; intros [= _ <-]; cbn;
          [exists []|exists [EvSleep ss]; rewrite <- app_assoc]; reflexivity.
    + destruct ((400 <=? status_code r0) && (status_code r0 <? 600)); cbn.
      * destruct (ss <? 0); cbn; intros [= _ <-]; cbn;
          [exists []|exists [EvSleep ss]; rewrite <- app_assoc]; reflexivity.
      * intros [= _ <-]. exists []. reflexivity.
  - destruct (is_request_exception e) eqn:Ee; cbn; rewrite ?Ee.
    + destruct (ss <? 0); cbn; intros [= _ <-]; cbn;
        [exists []|exists [EvSleep ss]; rewrite <- app_assoc]; reflexivity.
    + intros [= _ <-]. exists []. reflexivity.
Qed.

Lemma retry_loop_trace (n : nat) :
  forall (ss : Z) (h h' : http A) (r : pyres (response A)),
    retry_loop url params method n ss h = (r, h') ->
    exists evs, trace h' = (trace h ++ evs)%list.
Proof.
  induction n as [|n IH]; intros ss h h' r.
  - cbn. intros [= _ <-]. exists []. rewrite app_nil_r. reflexivity.
  - cbn [retry_loop]. unfold bind at 1.
    destruct (except_request_exception _ _ h) as [[[resp|]|e] h1] eqn:Hstep;
      destruct (attempt_first_request _ _ _ _ Hstep) as [evs Hevs].
    + intros [= _ <-]. eexists. exact Hevs.
    + intros H. destruct (IH _ _ _ _ H) as [evs' Hevs'].
      eexists. rewrite Hevs', Hevs, <- app_assoc. reflexivity.
    + intros [= _ <-]. eexists. exact Hevs.
Qed.

Lemma retry_loop_first_request (n : nat) (ss : Z) (h h' : http A)
    (r : pyres (response A)) :
  retry_loop url params method (S n) ss h = (r, h') ->
  exists evs, trace h' = (trace h ++ EvRequest method url params :: evs)%list.
Proof.
  cbn [retry_loop]. unfold bind at 1.
  destruct (except_request_exception _ _ h) as [[[resp|]|e] h1] eqn:Hstep;
    destruct (attempt_first_request _ _ _ _ Hstep) as [evs Hevs].
  - intros [= _ <-]. eexists. exact Hevs.
  - intros H. destruct (retry_loop_trace _ _ _ _ _ H) as [evs' Hevs'].
    eexists. rewrite Hevs', Hevs, <- app_assoc. reflexivity.
  - intros [= _ <-]. eexists. exact Hevs.
Qed.
End TraceFacts.

Section LookbackFacts.
Context `{RT : Runtime}.

Lemma follow_next_trace {A} (fuel : nat) :
  forall (key : option string) (acc : list (fetched A))
         (links : gmap string string) (h h' : http A)
         (r : pyres (list (fetched A))),
    follow_next fuel key acc links h = (r, h') ->
    exists evs, trace h' = (trace h ++ evs)%list.
Proof.
  induction fuel as [|fuel IH]; intros key acc links h h' r;
    cbn [follow_next]; destruct (truthy (links !! "next")) as [u|];
    try (intros [= _ <-]; exists []; rewrite app_nil_r; reflexivity);
    unfold bind at 1;
    (destruct (request_with_retries u None "GET" default_max_retries h)
       as [[resp|e] h1] eqn:Hreq;
     destruct (retry_loop_trace _ _ _ _ _ _ _ _ Hreq) as [evs Hevs]).
  - unfold raise. intros [= _ <-]. eexists. exact Hevs.
  - intros [= _ <-]. eexists. exact Hevs.
  - unfold resp_json, response_links. run_m.
    destruct (json resp) as [data|]; cbn;
      [|intros [= _ <-]; eexists; exact Hevs].
    destruct (parse_link_header _) as [links'|e]; cbn;
      [|intros [= _ <-]; eexists; exact Hevs].
    intros H. destruct (IH _ _ _ _ _ _ H) as [evs' Hevs'].
    eexists. rewrite Hevs', Hevs, <- app_assoc. reflexivity.
  - intros [= _ <-]. eexists. exact Hevs.
Qed.

(** A fetch starts with the GET of the endpoint. *)
Lemma fetch_all_rest_first_request {A} (endpoint : string)
    (params : option (list (string * pval))) (key : option string)
    (h h' : http A) (r : pyres (list (fetched A))) :
  fetch_all_rest endpoint params key h = (r, h') ->
  exists evs,
    trace h'
    = (trace h
       ++ EvRequest "GET" (urljoin BASE_URL endpoint)
            (Some (setdefault "limit" (PInt 250) (default [] params)))
          :: evs)%list.
Proof.
  unfold fetch_all_rest. unfold bind at 1.
  destruct (request_with_retries _ _ "GET" default_max_retries h)
    as [[resp|e] h1] eqn:Hreq;
    unfold request_with_retries, default_max_retries in Hreq;
    destruct (retry_loop_first_request _ _ _ _ _ _ _ _ Hreq) as [evs Hevs].
  - unfold resp_json, response_links. run_m.
    destruct (json resp) as [data|]; cbn;
      [|intros [= _ <-]; eexists; exact Hevs].
    destruct (parse_link_header _) as [links'|e]; cbn;
      [|intros [= _ <-]; eexists; exact Hevs].
    intros H. destruct (follow_next_trace _ _ _ _ _ _ _ H) as [evs' Hevs'].
    eexists. rewrite Hevs', Hevs, <- app_assoc. reflexivity.
  - intros [= _ <-]. eexists. exact Hevs.
Qed.

(** The filter is the instant of the watermark minus 60 seconds. *)
Lemma isoformat_for_api_lookback (d : datetime) :
  isoformat_for_api (sub_seconds d 60)
  = utc_iso8601 (utc_instant d - 60 * us_per_second).
Proof.
  unfold isoformat_for_api, utc_iso8601, utc_instant, astimezone_utc,
    replace_tzinfo_none, sub_seconds.
  cbn [wall utcoffset]. do 3 f_equal. lia.
Qed.
End LookbackFacts.

Section LookbackPasses.
Context `{RT : Runtime}.

Lemma with_updated_at_min_run (incremental : bool)
    (last_sync : option string) (params : list (string * pval)) :
  with_updated_at_min incremental last_sync params
  = match (if incremental then truthy last_sync else None) with
    | Some s =>
        match fromisoformat s with
        | Some d =>
            Ok (dict_set "updated_at_min"
                  (PStr (utc_iso8601 (utc_instant d - 60 * us_per_second)))
                  params)
        | None => Raise ValueError
        end
    | None => Ok params
    end.
Proof.
  unfold with_updated_at_min.
  destruct (if incremental then truthy last_sync else None) as [s|];
    [|reflexivity].
  destruct (fromisoformat s) as [d|]; [|reflexivity].
  rewrite isoformat_for_api_lookback. reflexivity.
Qed.

(** What the fetch of a pass sends first, whatever the API answers. *)
Lemma fetch_lookback_request {A} (get : world -> http A)
    (set : http A -> world -> world) (incremental : bool)
    (last_sync : option string) (endpoint : string)
    (base : list (string * pval)) (key : option string) (w w1 : world)
    (r : pyres (list (fetched A))) :
  (forall w, trace (get w) = events w) ->
  (forall h w, events (set h w) = trace h) ->
  (forall v, setdefault "limit" (PInt 250)
               (dict_set "updated_at_min" v base)
             = (base ++ [("updated_at_min", v)])%list) ->
  setdefault "limit" (PInt 250) base = base ->
  match with_updated_at_min incremental last_sync base with
  | Ok params => zoom get set (fetch_all_rest endpoint (Some params) key) w
  | Raise e => (Raise e, w)
  end = (r, w1) ->
  lookback_request incremental last_sync endpoint base w w1 r.
Proof.
  intros Hget Hset Hfilter Hbase.
  rewrite with_updated_at_min_run. unfold lookback_request.
  destruct (if incremental then truthy last_sync else None) as [s|].
  - destruct (fromisoformat s) as [d|].
    + unfold zoom.
      destruct (fetch_all_rest _ _ _ (get w)) as [r' h'] eqn:Hfetch.
      intros [= <- <-].
      destruct (fetch_all_rest_first_request _ _ _ _ _ _ Hfetch)
        as [evs Hevs].
      exists evs. rewrite Hset, Hevs, Hget. cbn [default from_option id].
      rewrite Hfilter. reflexivity.
    + intros [= <- <-]. split; reflexivity.
  - unfold zoom.
    destruct (fetch_all_rest _ _ _ (get w)) as [r' h'] eqn:Hfetch.
    intros [= <- <-].
    destruct (fetch_all_rest_first_request _ _ _ _ _ _ Hfetch)
      as [evs Hevs].
    exists evs. rewrite Hset, Hevs, Hget. cbn [default from_option id].
    rewrite Hbase. reflexivity.
Qed.

(** The store step makes no request. *)
Lemma store_pass_events {A} (store : A -> loop_vars -> pyres loop_vars)
    (key : string) (items : list (fetched A)) (w : world) :
  events (store_pass store key items w).2 = events w.
Proof.
  rewrite store_pass_run.
  destruct (for_each (store_item store) items (loop_start (db w)));
    reflexivity.
Qed.

(** What a pass sends first is what its fetch sends first. *)
Lemma pass_lookback_request {A} (fetch : M world (list (fetched A)))
    (store : A -> loop_vars -> pyres loop_vars) (key : string)
    (incremental : bool) (last_sync : option string) (endpoint : string)
    (base : list (string * pval)) (w w' : world) (r : pyres Z) :
  (forall r1 w1, fetch w = (r1, w1) ->
                 lookback_request incremental last_sync endpoint base w w1 r1) ->
  bind fetch (store_pass store key) w = (r, w') ->
  lookback_request incremental last_sync endpoint base w w' r.
Proof.
  intros Hfetch. rewrite pass_run.
  destruct (fetch w) as [[items|e] w1] eqn:Hf;
    specialize (Hfetch _ _ eq_refl); unfold lookback_request in *;
    intros Hrun.
  - assert (Hev : events w' = events w1).
    { rewrite <- (store_pass_events store key items w1), Hrun. reflexivity. }
    unfold sends_filter in *. rewrite Hev.
    destruct (if incremental then truthy last_sync else None) as [s|];
      [destruct (fromisoformat s) as [d|]|]; try exact Hfetch.
    destruct Hfetch as [Hr _]. discriminate.
  - injection Hrun as <- <-.
    destruct (if incremental then truthy last_sync else None) as [s|];
      [destruct (fromisoformat s) as [d|]|]; try exact Hfetch.
    destruct Hfetch as [[= ->] ->]. split; reflexivity.
Qed.
End LookbackPasses.

(** C6.  Lookback.  In incremental mode and with a stored watermark, the
    [updated_at_min] filter of a pass is the instant of the watermark
    minus exactly 60 seconds, written as UTC ISO 8601; a record updated 30
    seconds before the watermark is therefore inside the window.  Each of
    the three passes sends that filter in its first request; it sends no
    [updated_at_min] when no watermark is stored or when the mode is not
    incremental. *)
Theorem lookback_is_sixty_seconds `{RT : Runtime} (incremental : bool)
    (w : world) :
  (forall (s : string) (d : datetime) (params : list (string * pval)),
     s <> "" ->
     fromisoformat s = Some d ->
     with_updated_at_min true (Some s) params
     = Ok (dict_set "updated_at_min"
             (PStr (utc_iso8601 (utc_instant d - 60 * us_per_second))) params)
     /\ forall r : datetime,
          utc_instant r = utc_instant d - 30 * us_per_second ->
          utc_instant d - 60 * us_per_second <= utc_instant r)
  /\ (forall r w',
        fetch_and_store_products incremental w = (r, w') ->
        lookback_request incremental
          (metadata (db w) !! "products_last_sync") "products.json"
          [("limit", PInt 250)] w w' r)
  /\ (forall r w',
        fetch_and_store_customers incremental w = (r, w') ->
        lookback_request incremental
          (metadata (db w) !! "customers_last_sync") "customers.json"
          [("limit", PInt 250)] w w' r)
  /\ (forall status r w',
        fetch_and_store_orders incremental status w = (r, w') ->
        lookback_request incremental
          (metadata (db w) !! "orders_last_sync") "orders.json"
          [("limit", PInt 250); ("status", PStr status)] w w' r).
Proof.
  split; [|split; [|split]].
  - intros s d params Hs Hd. split.
    + rewrite with_updated_at_min_run. cbn [truthy].
      destruct s; [contradiction|]. rewrite Hd. reflexivity.
    + intros r Hr. unfold us_per_second in *. lia.
  - intros r w'. apply pass_lookback_request.
    intros r1 w1. rewrite fetch_products_run.
    apply fetch_lookback_request; reflexivity.
  - intros r w'. apply pass_lookback_request.
    intros r1 w1. rewrite fetch_customers_run.
    apply fetch_lookback_request; reflexivity.
  - intros status r w'. apply pass_lookback_request.
    intros r1 w1. rewrite fetch_orders_run.
    apply fetch_lookback_request; reflexivity.
Qed.

(** C6, on a watermark stored with a UTC-5 offset: the filter is the same
    instant less 60 seconds, in UTC. *)
Lemma lookback_is_sixty_seconds_witness :
  with_updated_at_min (RT := reference_runtime) true
    (Some "2024-01-01T00:00:30-05:00") [("limit", PInt 250)]
  = Ok [("limit", PInt 250); ("updated_at_min", PStr "2024-01-01T04:59:30Z")].
Proof.
  apply (proj1 (proj1 (lookback_is_sixty_seconds (RT := reference_runtime)
                         true empty_world)
                  "2024-01-01T00:00:30-05:00"
                  {| wall := 1704067230000000; utcoffset := Some (-18000) |}
                  [("limit", PInt 250)]
                  ltac:(discriminate) eq_refl)).
Defined.

(* ===================================================================== *)
(** ** The embedding on concrete inputs *)
(* ===================================================================== *)

Example split_keeps_empty_fields : split "," "a,b,,c" = ["a"; "b"; ""; "c"].
Proof. reflexivity. Qed.

Example split_of_empty_string : split "," "" = [""].
Proof. reflexivity. Qed.

Example find_absent : find ">" "abc" = -1.
Proof. reflexivity. Qed.

Example slice_with_negative_end : slice "abcd" 0 (-1) = "abc".
Proof. reflexivity. Qed.

Example int_of_str_plain : int_of_str "3" = Some 3.
Proof. reflexivity. Qed.

Example int_of_str_padded : int_of_str " +1_0 " = Some 10.
Proof. reflexivity. Qed.

Example int_of_str_negative : int_of_str "-1" = Some (-1).
Proof. reflexivity. Qed.

Example int_of_str_decimal : int_of_str "3.5" = None.
Proof. reflexivity. Qed.

Example int_of_str_empty : int_of_str "" = None.
Proof. reflexivity. Qed.

Example headers_ignore_case :
  headers_get "Retry-After" [("content-type", "json"); ("retry-after", "3")]
  = Some "3".
Proof. reflexivity. Qed.

(** A header as the API sends it on a middle page. *)
Example parse_link_header_middle_page :
  (links ← match parse_link_header
                   (link_value "https://s/a.json?page_info=x" "previous"
                    ++ ", " ++ link_value "https://s/a.json?page_info=y" "next")
           with
           | Ok links => Some links
           | Raise _ => None
           end;
   Some (links !! "previous", links !! "next"))
  = Some (Some "https://s/a.json?page_info=x",
          Some "https://s/a.json?page_info=y").
Proof. vm_compute. reflexivity. Qed.

(** A link without [=] in its second part: the index [1] is out of range. *)
Example parse_link_header_without_rel :
  parse_link_header "<https://s/a.json>; next" = Raise IndexError.
Proof. vm_compute. reflexivity. Qed.

(** A part without [;] is skipped. *)
Example parse_link_header_skips_short_part :
  parse_link_header "next" = Ok ∅.
Proof. vm_compute. reflexivity. Qed.

Example isoformat_aware :
  isoformat {| wall := 1704067230000000; utcoffset := Some (-18000) |}
  = "2024-01-01T00:00:30-05:00".
Proof. vm_compute. reflexivity. Qed.

Example isoformat_naive_with_microseconds :
  isoformat {| wall := 1709251199000123; utcoffset := None |}
  = "2024-02-29T23:59:59.000123".
Proof. vm_compute. reflexivity. Qed.

Example reference_fromisoformat_inverts_isoformat :
  reference_fromisoformat "2024-01-01T00:00:30-05:00"
  = Some {| wall := 1704067230000000; utcoffset := Some (-18000) |}.
Proof. vm_compute. reflexivity. Qed.

Example reference_fromisoformat_rejects_bad_date :
  reference_fromisoformat "2023-02-29T23:59:59" = None.
Proof. vm_compute. reflexivity. Qed.

Example isoformat_for_api_converts_to_utc :
  isoformat_for_api (RT := reference_runtime)
    {| wall := 1704067230000000; utcoffset := Some (-18000) |}
  = "2024-01-01T05:00:30Z".
Proof. vm_compute. reflexivity. Qed.

(** A naive and an aware timestamp do not compare; the second one is
    skipped by the [except] clause and the first stays. *)
Example track_max_updated_skips_incomparable :
  track_max_updated (RT := reference_runtime) (Some "2024-06-01T00:00:00Z")
    (reference_fromisoformat "2024-01-01T00:00:00")
  = reference_fromisoformat "2024-01-01T00:00:00".
Proof. vm_compute. reflexivity. Qed.

(** A transport error, a 429 with [Retry-After: 3] and a 503 before the
    answer: the sleeps are the backoff 1, the 3 seconds asked for, and
    the backoff 4. *)
Example request_with_retries_run :
  request_with_retries "u" None "GET" default_max_retries
    {| script := [Throws ConnectionError;
                  Responds {| status_code := 429;
                              headers := [("Retry-After", "3")];
                              json := @None (list (string * list Z)) |};
                  Responds {| status_code := 503; headers := [];
                              json := None |};
                  Responds (page_of "products" [1] None)];
       trace := [] |}
  = (Ok (page_of "products" [1] None),
     {| script := [];
        trace := [EvRequest "GET" "u" None; EvSleep 1;
                  EvRequest "GET" "u" None; EvSleep 3;
                  EvRequest "GET" "u" None; EvSleep 4;
                  EvRequest "GET" "u" None] |}).
Proof. vm_compute. reflexivity. Qed.

(** The end-to-end scenario of the design document: a first full run on
    an empty store against the two-page feed stores 260 products and the
    newest [updated_at] of the 260 as the watermark. *)
Example two_page_feed_run :
  let w0 := {| db := empty_database; products_api := two_page_feed;
               customers_api := []; orders_api := []; events := [] |} in
  let run := fetch_and_store_products (RT := reference_runtime) false w0 in
  run.1 = Ok 260
  /\ size (products (db run.2)) = 260%nat
  /\ metadata (db run.2) !! "products_last_sync"
     = Some "2024-03-02T08:30:00+00:00"
  /\ length (events run.2) = 2%nat.
Proof. vm_compute. repeat split. Qed.

(* ===================================================================== *)
(** ** Further properties of the fetch client *)
(* ===================================================================== *)

Lemma count_requests_app (a b : list event) :
  count_requests (a ++ b) = (count_requests a + count_requests b)%nat.
Proof. unfold count_requests. rewrite List.filter_app, length_app. reflexivity. Qed.

Lemma count_sleeps_app (a b : list event) :
  count_sleeps (a ++ b) = (count_sleeps a + count_sleeps b)%nat.
Proof. unfold count_sleeps. rewrite List.filter_app, length_app. reflexivity. Qed.

Lemma count_requests_cons_request (m u : string)
    (p : option (list (string * pval))) (evs : list event) :
  count_requests (EvRequest m u p :: evs) = S (count_requests evs).
Proof. reflexivity. Qed.

Lemma count_requests_cons_sleep (k : Z) (evs : list event) :
  count_requests (EvSleep k :: evs) = count_requests evs.
Proof. reflexivity. Qed.

Lemma count_sleeps_cons_request (m u : string)
    (p : option (list (string * pval))) (evs : list event) :
  count_sleeps (EvRequest m u p :: evs) = count_sleeps evs.
Proof. reflexivity. Qed.

Lemma count_sleeps_cons_sleep (k : Z) (evs : list event) :
  count_sleeps (EvSleep k :: evs) = S (count_sleeps evs).
Proof. reflexivity. Qed.

Lemma slept_app (a b : list event) : slept (a ++ b) = slept a + slept b.
Proof.
  induction a as [|[m u p|k] a IH]; cbn [app slept]; [reflexivity|exact IH|].
  rewrite IH. lia.
Qed.

Section RetryBudgetFacts.
Context {A : Type}.
Variables (url : string) (params : option (list (string * pval)))
          (method : string).

(** One turn of the loop: the request, and at most one sleep after it,
    which only a turn that goes on to the next attempt has. *)
Lemma attempt_events (ss : Z) (h h' : http A)
    (r : pyres (flow (response A))) :
  0 <= ss ->
  except_request_exception (attempt url params method ss)
    (fun _ => bind (time_sleep ss) (fun _ => ret Continue)) h = (r, h') ->
  exists tail,
    trace h' = (trace h ++ EvRequest method url params :: tail)%list
    /\ (tail = [] \/ exists k, 0 <= k /\ tail = [EvSleep k] /\ r = Ok Continue).
Proof.
  intros Hss.
  unfold attempt, session_request, time_sleep, retry_after_of,
    raise_for_status.
  run_m.
  assert (Hlt : (ss <? 0) = false) by lia.
  rewrite ?Hlt.
  destruct (script h) as [|[r0|e] rest].
  - cbn. intros [= _ <-]. exists []. split; [reflexivity|left; reflexivity].
  - destruct (status_code r0 =? 429).
    + destruct (headers_get "Retry-After" (headers r0)) as [s|];
        [destruct (int_of_str s) as [j|]|].
      * destruct (j <? 0) eqn:Ej; cbn; intros [= <- <-]; cbn.
        -- exists []. split; [reflexivity|left; reflexivity].
        -- exists [EvSleep j]. rewrite <- app_assoc.
           split; [reflexivity|right]. exists j. repeat split. lia.
      * cbn. intros [= _ <-]. exists []. split; [reflexivity|left; reflexivity].
      * rewrite Hlt. cbn. intros [= <- <-]. cbn. exists [EvSleep ss].
        rewrite <- app_assoc.
        split; [reflexivity|right]. exists ss. repeat split. exact Hss.
    + destruct ((400 <=? status_code r0) && (status_code r0 <? 600)); cbn.
      * intros [= <- <-]. cbn. exists [EvSleep ss]. rewrite <- app_assoc.
        split; [reflexivity|right]. exists ss. repeat split. exact Hss.
      * intros [= _ <-]. exists []. split; [reflexivity|left; reflexivity].
  - destruct (is_request_exception e) eqn:Ee; cbn; rewrite ?Ee.
    + intros [= <- <-]. cbn. exists [EvSleep ss]. rewrite <- app_assoc.
      split; [reflexivity|right]. exists ss. repeat split. exact Hss.
    + intros [= _ <-]. exists []. split; [reflexivity|left; reflexivity].
Qed.

(** The events of the loop, whatever the script. *)
Lemma retry_loop_events (n : nat) :
  forall (ss : Z) (h : http A),
    0 <= ss ->
    exists evs,
      trace (retry_loop url params method n ss h).2 = (trace h ++ evs)%list
      /\ (count_requests evs <= n)%nat
      /\ (count_sleeps evs <= count_requests evs)%nat
      /\ Forall (retry_event method url params) evs.
Proof.
  induction n as [|n IH]; intros ss h Hss.
  - exists []. cbn. rewrite app_nil_r. repeat split; [lia|lia|constructor].
  - cbn [retry_loop]. unfold bind at 1.
    destruct (except_request_exception _ _ h) as [r h1] eqn:Hstep.
    destruct (attempt_events _ _ _ _ Hss Hstep) as (tail & Htr & Htail).
    assert (Hreq : retry_event method url params
                     (EvRequest method url params)) by (cbn; auto).
    destruct Htail as [-> | (k & Hk & -> & ->)].
    + assert (Hone : exists evs,
                 trace h1 = (trace h ++ evs)%list
                 /\ (count_requests evs <= S n)%nat
                 /\ (count_sleeps evs <= count_requests evs)%nat
                 /\ Forall (retry_event method url params) evs).
      { exists [EvRequest method url params].
        repeat split; [exact Htr|cbn; lia|cbn; lia|repeat constructor; auto]. }
      destruct r as [[resp|]|e]; [exact Hone| |exact Hone].
      destruct (IH (ss * 2) h1 ltac:(lia)) as (evs & He & Hc & Hs & Hall).
      exists (EvRequest method url params :: evs).
      rewrite He, Htr, <- app_assoc.
      split; [reflexivity|].
      rewrite count_requests_cons_request, count_sleeps_cons_request.
      split; [lia|]. split; [lia|]. constructor; assumption.
    + destruct (IH (ss * 2) h1 ltac:(lia)) as (evs & He & Hc & Hs & Hall).
      exists (EvRequest method url params :: EvSleep k :: evs).
      rewrite He, Htr, <- app_assoc.
      split; [reflexivity|].
      rewrite count_requests_cons_request, count_sleeps_cons_request,
        count_requests_cons_sleep, count_sleeps_cons_sleep.
      split; [lia|]. split; [lia|]. repeat constructor; assumption.
Qed.
End RetryBudgetFacts.

(** X1.  The retry budget bounds the traffic of one call, whatever the API
    answers: [request_with_retries] makes at most [max_retries] requests,
    every one of them the request it was called for, it never sleeps more
    often than it has requested, and never for a negative time. *)
Theorem request_budget_bounds_traffic {A} (url method : string)
    (params : option (list (string * pval))) (max_retries : nat)
    (h : http A) :
  exists evs,
    trace (request_with_retries url params method max_retries h).2
    = (trace h ++ evs)%list
    /\ (count_requests evs <= max_retries)%nat
    /\ (count_sleeps evs <= count_requests evs)%nat
    /\ Forall (retry_event method url params) evs.
Proof. apply retry_loop_events. lia. Qed.

Lemma retry_sleeps_plain {A} (fails : list (outcome A)) :
  forall ss : Z,
    forallb plain_failure fails = true ->
    retry_sleeps fails ss = Some (backoff ss (length fails)).
Proof.
  induction fails as [|o fails IH]; intros ss H; [reflexivity|].
  cbn [forallb] in H. apply andb_prop in H as [Ho Hf].
  cbn [retry_sleeps length backoff]. rewrite (IH (ss * 2) Hf).
  assert (Hr : retried o ss = Some ss).
  { destruct o as [r|e]; cbn in Ho |- *.
    - apply andb_prop in Ho as [H1 H2].
      apply negb_true_iff in H1, H2. rewrite H1, H2. reflexivity.
    - rewrite Ho. reflexivity. }
  rewrite Hr. reflexivity.
Qed.

Lemma slept_retry_events_backoff (method url : string)
    (params : option (list (string * pval))) (n : nat) :
  forall ss : Z,
    slept (retry_events method url params (backoff ss n))
    = ss * (2 ^ Z.of_nat n - 1).
Proof.
  induction n as [|n IH]; intros ss; [cbn; lia|].
  cbn [backoff retry_events flat_map app slept].
  change (flat_map _ (backoff (ss * 2) n))
    with (retry_events method url params (backoff (ss * 2) n)).
  rewrite IH, Nat2Z.inj_succ, Z.pow_succ_r by lia. lia.
Qed.

(** X2.  The backoff of a dead endpoint.  When every one of the
    [max_retries] attempts fails with a transport error or an error status
    other than 429, [request_with_retries] sleeps 1, 2, 4, ... seconds,
    one sleep after each attempt (the last included), and then raises
    [RuntimeError]: it has slept [2 ^ max_retries - 1] seconds in all, 31
    at the default budget. *)
Theorem backoff_doubles_until_exhaustion {A} (url method : string)
    (params : option (list (string * pval))) (max_retries : nat)
    (fails rest : list (outcome A)) (tr : list event) :
  forallb plain_failure fails = true ->
  length fails = max_retries ->
  let evs := retry_events method url params (backoff 1 max_retries) in
  request_with_retries url params method max_retries
    {| script := fails ++ rest; trace := tr |}
  = (Raise RuntimeError, {| script := rest; trace := tr ++ evs |})
  /\ count_requests evs = max_retries
  /\ slept evs = 2 ^ Z.of_nat max_retries - 1.
Proof.
  intros Hf <- evs. subst evs. repeat split.
  - unfold request_with_retries.
    replace (length fails) with (length fails + 0)%nat at 1 by lia.
    rewrite (retry_loop_retries url params method fails rest tr 0 1
               (backoff 1 (length fails)))
      by (lia || apply retry_sleeps_plain; assumption).
    reflexivity.
  - generalize 1. induction (length fails) as [|n IH]; intros ss;
      [reflexivity|].
    cbn [backoff retry_events flat_map app].
    rewrite count_requests_cons_request, count_requests_cons_sleep.
    f_equal. apply IH.
  - rewrite slept_retry_events_backoff. lia.
Qed.

(** X2, at the default budget: five timeouts cost 31 seconds of sleep. *)
Lemma backoff_doubles_until_exhaustion_witness :
  request_with_retries "u" None "GET" default_max_retries
    {| script := repeat (@Throws Z Timeout) 5 ++ []; trace := [] |}
  = (Raise RuntimeError,
     {| script := [];
        trace := [] ++ retry_events "GET" "u" None [1; 2; 4; 8; 16] |})
  /\ count_requests (retry_events "GET" "u" None [1; 2; 4; 8; 16]) = 5%nat
  /\ slept (retry_events "GET" "u" None [1; 2; 4; 8; 16]) = 31.
Proof.
  apply (backoff_doubles_until_exhaustion "u" "GET" None default_max_retries
           (repeat (Throws Timeout) 5) [] []); reflexivity.
Defined.

(** X3.  What the loop does not retry.  An exception of the session that
    is not a [RequestException], and a 429 whose [Retry-After] is a
    negative integer (then [time.sleep] raises [ValueError]), end the call
    at once, on any attempt: the request is the last event, there is no
    sleep, and the rest of the script is not consumed. *)
Theorem only_request_errors_are_retried {A} (url method : string)
    (params : option (list (string * pval))) (rest : list (outcome A))
    (tr : list event) (n : nat) (ss : Z) :
  (forall e : exn,
     is_request_exception e = false ->
     retry_loop url params method (S n) ss
       {| script := Throws e :: rest; trace := tr |}
     = (Raise e,
        {| script := rest; trace := tr ++ [EvRequest method url params] |}))
  /\ (forall (r : response A) (s : string) (k : Z),
        status_code r = 429 ->
        headers_get "Retry-After" (headers r) = Some s ->
        int_of_str s = Some k ->
        k < 0 ->
        retry_loop url params method (S n) ss
          {| script := Responds r :: rest; trace := tr |}
        = (Raise ValueError,
           {| script := rest;
              trace := tr ++ [EvRequest method url params] |})).
Proof.
  split.
  - intros e He. cbn [retry_loop]. unfold attempt, session_request.
    run_m. rewrite He. reflexivity.
  - intros r s k H429 Hh Hs Hk.
    cbn [retry_loop]. unfold attempt, session_request, retry_after_of,
      time_sleep.
    run_m. rewrite H429, Hh, Hs.
    replace (k <? 0) with true by lia. reflexivity.
Qed.

(** X3, for [Retry-After: -1] on the first attempt and for a [KeyError]
    out of the session. *)
Lemma only_request_errors_are_retried_witness :
  retry_loop "u" None "GET" 5 1
    {| script := [Throws KeyError; Responds {| status_code := 200;
                                               headers := [];
                                               json := Some [] |}];
       trace := [] |}
  = (Raise KeyError,
     {| script := [Responds {| status_code := 200; headers := [];
                               json := @Some (list (string * list Z)) [] |}];
        trace := [] ++ [EvRequest "GET" "u" None] |})
  /\ retry_loop "u" None "GET" 5 1
       {| script := [Responds {| status_code := 429;
                                 headers := [("Retry-After", "-1")];
                                 json := @None (list (string * list Z)) |}];
          trace := [] |}
     = (Raise ValueError,
        {| script := []; trace := [] ++ [EvRequest "GET" "u" None] |}).
Proof.
  split.
  - apply (proj1 (only_request_errors_are_retried "u" "GET" None _ [] 4 1)).
    reflexivity.
  - apply (proj2 (only_request_errors_are_retried "u" "GET" None [] [] 4 1)
             _ "-1" (-1)); [reflexivity|reflexivity|reflexivity|lia].
Defined.

Lemma dict_get_app {V} (k : string) (d1 d2 : list (string * V)) :
  dict_get k (d1 ++ d2)
  = match dict_get k d1 with
    | Some v => Some v
    | None => dict_get k d2
    end.
Proof.
  induction d1 as [|[k' v] d1 IH]; [reflexivity|].
  cbn [app dict_get]. destruct (String.eqb k' k); [reflexivity|exact IH].
Qed.

Lemma dict_get_setdefault {V} (k0 k : string) (v : V) (d : list (string * V)) :
  dict_get k (setdefault k0 v d)
  = if String.eqb k k0 then Some (default v (dict_get k0 d)) else dict_get k d.
Proof.
  unfold setdefault.
  destruct (String.eqb k k0) eqn:E.
  - apply String.eqb_eq in E as ->.
    destruct (dict_get k0 d) as [x|] eqn:Hd; [exact Hd|].
    rewrite dict_get_app, Hd. cbn. rewrite String.eqb_refl. reflexivity.
  - destruct (dict_get k0 d) as [x|] eqn:Hd; [reflexivity|].
    rewrite dict_get_app. destruct (dict_get k d); [reflexivity|].
    cbn. rewrite String.eqb_sym, E. reflexivity.
Qed.

Section FetchTraceFacts.
Context `{RT : Runtime} {A : Type}.

(** A call of the retry loop with a positive budget: its request, then
    events of that call only. *)
Lemma retry_loop_request_then (url method : string)
    (params : option (list (string * pval))) (n : nat) (ss : Z)
    (h : http A) :
  0 <= ss ->
  exists evs,
    trace (retry_loop url params method (S n) ss h).2
    = (trace h ++ EvRequest method url params :: evs)%list
    /\ Forall (retry_event method url params) evs.
Proof.
  intros Hss.
  destruct (retry_loop_events url params method (S n) ss h Hss)
    as (evs & He & _ & _ & Hall).
  destruct (retry_loop url params method (S n) ss h) as [r h'] eqn:Hrun.
  destruct (retry_loop_first_request _ _ _ _ _ _ _ _ Hrun) as [evs' He'].
  cbn [snd] in He |- *. rewrite He in He'.
  apply app_inv_head in He'. subst evs.
  exists evs'. split; [exact He|]. inversion Hall; assumption.
Qed.

Lemma retry_event_fetch_event (u url : string) (sent : list (string * pval))
    (evs : list event) :
  Forall (retry_event "GET" u None) evs ->
  Forall (fetch_event url sent) evs.
Proof.
  intros H. eapply Forall_impl; [exact H|].
  intros [m v p|k]; cbn; [|auto].
  intros (-> & _ & ->). auto.
Qed.

Lemma follow_next_events (url : string) (sent : list (string * pval))
    (fuel : nat) :
  forall (key : option string) (acc : list (fetched A))
         (links : gmap string string) (h : http A),
    exists evs,
      trace (follow_next fuel key acc links h).2 = (trace h ++ evs)%list
      /\ Forall (fetch_event url sent) evs.
Proof.
  assert (Hstay : forall h : http A,
             exists evs, trace h = (trace h ++ evs)%list
                         /\ Forall (fetch_event url sent) evs).
  { intros h. exists []. rewrite app_nil_r. split; [reflexivity|constructor]. }
  induction fuel as [|fuel IH]; intros key acc links h.
  - cbn [follow_next]. destruct (truthy (links !! "next")) as [u|];
      [|apply Hstay].
    destruct (retry_loop_events u None "GET" default_max_retries 1 h
                ltac:(lia)) as (evs & He & _ & _ & Hall).
    unfold bind, request_with_retries.
    destruct (retry_loop u None "GET" default_max_retries 1 h)
      as [[resp|e] h1]; cbn [snd] in He |- *;
      exists evs; (split; [exact He|]);
      eapply retry_event_fetch_event; exact Hall.
  - cbn [follow_next]. destruct (truthy (links !! "next")) as [u|];
      [|apply Hstay].
    destruct (retry_loop_events u None "GET" default_max_retries 1 h
                ltac:(lia)) as (evs & He & _ & _ & Hall).
    apply (retry_event_fetch_event u url sent) in Hall.
    unfold bind at 1, request_with_retries.
    destruct (retry_loop u None "GET" default_max_retries 1 h)
      as [[resp|e] h1]; cbn [snd] in He; [|exists evs; split; assumption].
    unfold resp_json, response_links. run_m.
    destruct (json resp); [|exists evs; split; assumption].
    destruct (parse_link_header _) as [links'|e];
      [|exists evs; split; assumption].
    destruct (IH key (acc ++ page_items key l)%list links' h1)
      as (evs' & He' & Hall').
    exists (evs ++ evs')%list. rewrite He', He, <- app_assoc.
    split; [reflexivity|]. apply Forall_app; split; assumption.
Qed.
End FetchTraceFacts.

(** X4.  The query of a fetch.  [fetch_all_rest] sends the caller's
    parameters with its first request, with [limit] set to 250 when the
    caller gave none and left as given otherwise; every later request of
    the call is a [GET] that either repeats this first request (a retry)
    or carries no query parameters at all (a next link, which is requested
    as the API wrote it). *)
Theorem fetch_sends_query_once `{RT : Runtime} {A : Type}
    (endpoint : string) (params : option (list (string * pval)))
    (key : option string) (h : http A) :
  let url := urljoin BASE_URL endpoint in
  let given := default [] params in
  exists (sent : list (string * pval)) (evs : list event),
    trace (fetch_all_rest endpoint params key h).2
    = (trace h ++ EvRequest "GET" url (Some sent) :: evs)%list
    /\ (forall k : string,
          dict_get k sent
          = if String.eqb k "limit"
            then Some (default (PInt 250) (dict_get "limit" given))
            else dict_get k given)
    /\ Forall (fetch_event url sent) evs.
Proof.
  intros url given.
  exists (setdefault "limit" (PInt 250) given).
  destruct (retry_loop_request_then url "GET"
              (Some (setdefault "limit" (PInt 250) given)) 4 1 h ltac:(lia))
    as (evs & He & Hall).
  assert (Hall' : Forall (fetch_event url (setdefault "limit" (PInt 250) given))
                    evs).
  { eapply Forall_impl; [exact Hall|].
    intros [m v p|k]; cbn; [|auto].
    intros (-> & -> & ->). auto. }
  unfold fetch_all_rest, bind at 1, request_with_retries, default_max_retries.
  fold url given.
  destruct (retry_loop url (Some (setdefault "limit" (PInt 250) given)) "GET"
              5 1 h) as [[resp|e] h1]; cbn [snd] in He.
  2:{ exists evs. split; [exact He|]. split; [|exact Hall'].
      intros k. apply dict_get_setdefault. }
  unfold resp_json, response_links. run_m.
  destruct (json resp) as [data|].
  2:{ exists evs. split; [exact He|]. split; [|exact Hall'].
      intros k. apply dict_get_setdefault. }
  destruct (parse_link_header _) as [links|e].
  2:{ exists evs. split; [exact He|]. split; [|exact Hall'].
      intros k. apply dict_get_setdefault. }
  destruct (follow_next_events url (setdefault "limit" (PInt 250) given)
              (length (script h1)) key (page_items key data) links h1)
    as (evs' & He' & Hall'').
  exists (evs ++ evs')%list. rewrite He', He, <- app_assoc.
  split; [reflexivity|]. split.
  - intros k. apply dict_get_setdefault.
  - apply Forall_app; split; assumption.
Qed.

Lemma requests_through {A} (pages : list (response A * string)) :
  forall u : string,
    (map (fun v => EvRequest "GET" v None) (requested u pages)
     ++ [EvRequest "GET" (pending u pages) None])%list
    = EvRequest "GET" u None
      :: map (fun p => EvRequest "GET" p.2 None) pages.
Proof.
  induction pages as [|p ps IH]; intros u; [reflexivity|].
  cbn [requested pending map app]. rewrite IH. reflexivity.
Qed.

Section PaginationChain.
Context `{RT : Runtime} {A : Type}.

Lemma ok_request (r : response A) (url : string)
    (params : option (list (string * pval))) (rest : list (outcome A))
    (tr : list event) :
  200 <= status_code r < 300 ->
  request_with_retries url params "GET" default_max_retries
    {| script := Responds r :: rest; trace := tr |}
  = (Ok r, {| script := rest; trace := tr ++ [EvRequest "GET" url params] |}).
Proof.
  intros Hst. unfold request_with_retries, default_max_retries.
  apply retry_loop_returns. unfold status_ok.
  replace (status_code r =? 429) with false by lia.
  replace (400 <=? status_code r) with false by lia. reflexivity.
Qed.

(** One turn of the loop on a page it goes on from. *)
Lemma follow_next_turn (key : option string) (r : response A)
    (next : option string) (u : string) (links : gmap string string)
    (acc : list (fetched A)) (fuel : nat) (rest : list (outcome A))
    (tr : list event) :
  advertises r next ->
  truthy (links !! "next") = Some u ->
  exists links',
    truthy (links' !! "next") = next
    /\ follow_next (S fuel) key acc links
         {| script := Responds r :: rest; trace := tr |}
       = follow_next fuel key (acc ++ page_elements key r) links'
           {| script := rest; trace := tr ++ [EvRequest "GET" u None] |}.
Proof.
  intros (Hst & [data Hd] & links' & Hl & Hn) Hu.
  exists links'. split; [exact Hn|].
  cbn [follow_next]. rewrite Hu. unfold bind at 1.
  rewrite (ok_request r u None rest tr Hst).
  unfold resp_json, page_elements. rewrite Hd, Hl. run_m. reflexivity.
Qed.

(** The loop goes through the pages that name a next page. *)
Lemma follow_next_through (key : option string)
    (pages : list (response A * string)) :
  Forall (fun p => advertises p.1 (Some p.2)) pages ->
  forall (u : string) (links : gmap string string) (acc : list (fetched A))
         (fuel : nat) (rest : list (outcome A)) (tr : list event),
    truthy (links !! "next") = Some u ->
    exists links',
      truthy (links' !! "next") = Some (pending u pages)
      /\ follow_next (length pages + fuel) key acc links
           {| script := map Responds (map fst pages) ++ rest; trace := tr |}
         = follow_next fuel key
             (acc ++ flat_map (page_elements key) (map fst pages)) links'
             {| script := rest;
                trace := tr ++ map (fun v => EvRequest "GET" v None)
                                 (requested u pages) |}.
Proof.
  intros Hpages.
  induction Hpages as [|[r next] pages Hr _ IH];
    intros u links acc fuel rest tr Hu.
  - exists links. cbn. rewrite !app_nil_r. split; [exact Hu|reflexivity].
  - cbn [fst snd] in Hr.
    destruct (follow_next_turn key r (Some next) u links acc
                (length pages + fuel) (map Responds (map fst pages) ++ rest)
                tr Hr Hu) as (links1 & Hn1 & Hstep).
    destruct (IH next links1 (acc ++ page_elements key r)%list fuel rest
                (tr ++ [EvRequest "GET" u None])%list Hn1)
      as (links2 & Hn2 & Hrest).
    exists links2. split; [exact Hn2|].
    cbn [length Nat.add map app fst snd requested pending flat_map].
    rewrite Hstep, Hrest, <- !app_assoc. reflexivity.
Qed.

(** The turn on a page without a next link is the last one. *)
Lemma follow_next_last (key : option string) (last : response A)
    (u : string) (links : gmap string string) (acc : list (fetched A))
    (fuel : nat) (rest : list (outcome A)) (tr : list event) :
  advertises last None ->
  truthy (links !! "next") = Some u ->
  follow_next (S fuel) key acc links
    {| script := Responds last :: rest; trace := tr |}
  = (Ok (acc ++ page_elements key last)%list,
     {| script := rest; trace := tr ++ [EvRequest "GET" u None] |}).
Proof.
  intros Hlast Hu.
  destruct (follow_next_turn key last None u links acc fuel rest tr Hlast Hu)
    as (links' & Hn & Hstep).
  rewrite Hstep. destruct fuel; cbn [follow_next]; rewrite Hn; reflexivity.
Qed.

(** The turn on a page that cannot be read ends the loop with its error. *)
Lemma follow_next_bad (key : option string) (bad : response A) (e : exn)
    (u : string) (links : gmap string string) (acc : list (fetched A))
    (fuel : nat) (rest : list (outcome A)) (tr : list event) :
  200 <= status_code bad < 300 ->
  page_error bad = Some e ->
  truthy (links !! "next") = Some u ->
  follow_next (S fuel) key acc links
    {| script := Responds bad :: rest; trace := tr |}
  = (Raise e, {| script := rest; trace := tr ++ [EvRequest "GET" u None] |}).
Proof.
  intros Hst He Hu. cbn [follow_next]. rewrite Hu. unfold bind at 1.
  rewrite (ok_request bad u None rest tr Hst).
  unfold page_error in He. unfold resp_json. run_m.
  destruct (json bad) as [data|]; [|injection He as <-; reflexivity].
  run_m. destruct (response_links bad) as [links'|e']; [discriminate|].
  injection He as <-. reflexivity.
Qed.

(** The first request of a fetch, on a page it goes on from. *)
Lemma fetch_all_rest_first (endpoint : string)
    (params : option (list (string * pval))) (key : option string)
    (r : response A) (next : option string) (rest : list (outcome A))
    (tr : list event) :
  advertises r next ->
  exists links,
    truthy (links !! "next") = next
    /\ fetch_all_rest endpoint params key
         {| script := Responds r :: rest; trace := tr |}
       = follow_next (length rest) key (page_elements key r) links
           {| script := rest;
              trace := tr ++ [EvRequest "GET" (urljoin BASE_URL endpoint)
                                (Some (setdefault "limit" (PInt 250)
                                         (default [] params)))] |}.
Proof.
  intros (Hst & [data Hd] & links & Hl & Hn).
  exists links. split; [exact Hn|].
  unfold fetch_all_rest, bind at 1.
  rewrite (ok_request r _ _ rest tr Hst).
  unfold resp_json, page_elements. rewrite Hd, Hl. run_m. reflexivity.
Qed.

(** A fetch goes through the pages that name a next page. *)
Lemma fetch_all_rest_through (endpoint : string)
    (params : option (list (string * pval))) (key : option string)
    (r : response A) (next : string) (pages : list (response A * string))
    (rest : list (outcome A)) (tr : list event) :
  advertises r (Some next) ->
  Forall (fun p => advertises p.1 (Some p.2)) pages ->
  exists links,
    truthy (links !! "next") = Some (pending next pages)
    /\ fetch_all_rest endpoint params key
         {| script := Responds r :: map Responds (map fst pages) ++ rest;
            trace := tr |}
       = follow_next (length rest) key
           (page_elements key r ++ flat_map (page_elements key) (map fst pages))
           links
           {| script := rest;
              trace := tr
                       ++ EvRequest "GET" (urljoin BASE_URL endpoint)
                            (Some (setdefault "limit" (PInt 250)
                                     (default [] params)))
                       :: map (fun v => EvRequest "GET" v None)
                            (requested next pages) |}.
Proof.
  intros Hr Hpages.
  destruct (fetch_all_rest_first endpoint params key r (Some next)
              (map Responds (map fst pages) ++ rest) tr Hr)
    as (links & Hn & ->).
  replace (length (map Responds (map fst pages) ++ rest))
    with (length pages + length rest)%nat
    by (rewrite length_app, !length_map; reflexivity).
  destruct (follow_next_through key pages Hpages next links
              (page_elements key r) (length rest) rest
              (tr ++ [EvRequest "GET" (urljoin BASE_URL endpoint)
                        (Some (setdefault "limit" (PInt 250)
                                 (default [] params)))])%list Hn)
    as (links' & Hn' & ->).
  exists links'. split; [exact Hn'|].
  rewrite <- app_assoc. reflexivity.
Qed.
End PaginationChain.

(** X5.  Pagination ends at the first page without a next link.  Let the
    API answer with pages that each name a next URL, then with a page
    whose [Link] header names none (no header, no [next] relation, or an
    empty URL).  Then [fetch_all_rest] returns the elements of these pages
    in page order, with or without an item key, after one request per
    page; what the API would answer afterwards is not consumed. *)
Theorem pagination_stops_without_next `{RT : Runtime} {A : Type}
    (endpoint : string) (params : option (list (string * pval)))
    (key : option string) (pages : list (response A * string))
    (last : response A) (rest : list (outcome A)) (tr : list event) :
  Forall (fun p => advertises p.1 (Some p.2)) pages ->
  advertises last None ->
  fetch_all_rest endpoint params key
    {| script := map Responds (map fst pages ++ [last]) ++ rest;
       trace := tr |}
  = (Ok (flat_map (page_elements key) (map fst pages ++ [last])),
     {| script := rest;
        trace := tr
                 ++ EvRequest "GET" (urljoin BASE_URL endpoint)
                      (Some (setdefault "limit" (PInt 250) (default [] params)))
                 :: map (fun p => EvRequest "GET" p.2 None) pages |}).
Proof.
  intros Hpages Hlast.
  destruct Hpages as [|[r next] pages Hr Hpages].
  - cbn [map app flat_map].
    destruct (fetch_all_rest_first endpoint params key last None rest tr Hlast)
      as (links & Hn & ->).
    rewrite app_nil_r.
    destruct (length rest); cbn [follow_next]; rewrite Hn; reflexivity.
  - cbn [map app fst snd flat_map] in *.
    rewrite map_app, <- app_assoc. cbn [map app].
    destruct (fetch_all_rest_through endpoint params key r next pages
                (Responds last :: rest) tr Hr Hpages) as (links & Hn & ->).
    cbn [length].
    rewrite (follow_next_last key last _ links _ _ rest _ Hlast Hn).
    rewrite flat_map_app. cbn [flat_map].
    rewrite app_nil_r, <- !app_assoc. cbn [app].
    rewrite requests_through. reflexivity.
Qed.

(** X5, for a page whose next link has an empty URL: the page that the
    API holds ready behind it is never asked for. *)
Lemma pagination_stops_without_next_witness :
  let r1 := page_of "products" [1; 2] (Some (link_value "" "next")) in
  let r2 := page_of "products" [3] None in
  fetch_all_rest (RT := reference_runtime) "products.json" None
    (Some "products")
    {| script := map Responds (map fst (@nil (response Z * string)) ++ [r1]) ++ [Responds r2];
       trace := [] |}
  = (Ok (flat_map (page_elements (Some "products")) (map fst (@nil (response Z * string)) ++ [r1])),
     {| script := [Responds r2];
        trace := []
                 ++ EvRequest "GET"
                      (urljoin (BASE_URL (RT := reference_runtime))
                         "products.json")
                      (Some (setdefault "limit" (PInt 250) (default [] None)))
                 :: map (fun p => EvRequest "GET" p.2 None)
                      (@nil (response Z * string)) |}).
Proof.
  cbv zeta.
  apply (pagination_stops_without_next (RT := reference_runtime)
           "products.json" None (Some "products") []).
  - constructor.
  - split; [cbn; lia|]. split; [eexists; reflexivity|].
    eexists. split; vm_compute; reflexivity.
Defined.

(** X6.  Without an item key, or with an empty one, [fetch_all_rest]
    returns one element per page, the decoded body of the page, in page
    order. *)
Theorem fetch_without_item_key_returns_documents `{RT : Runtime} {A : Type}
    (endpoint : string) (params : option (list (string * pval)))
    (key : option string) (pages : list (response A * string))
    (last : response A) (rest : list (outcome A)) (tr : list event) :
  truthy key = None ->
  Forall (fun p => advertises p.1 (Some p.2)) pages ->
  advertises last None ->
  (fetch_all_rest endpoint params key
     {| script := map Responds (map fst pages ++ [last]) ++ rest;
        trace := tr |}).1
  = Ok (map (fun r => Document (default [] (json r)))
          (map fst pages ++ [last])).
Proof.
  intros Hkey Hpages Hlast.
  assert (Hdoc : forall l : list (response A),
             flat_map (page_elements key) l
             = map (fun r => Document (default [] (json r))) l).
  { induction l as [|r l IH]; [reflexivity|].
    cbn [flat_map map]. rewrite IH.
    unfold page_elements, page_items. rewrite Hkey. reflexivity. }
  rewrite <- Hdoc.
  destruct Hpages as [|[r next] pages Hr Hpages].
  - cbn [map app flat_map].
    destruct (fetch_all_rest_first endpoint params key last None rest tr Hlast)
      as (links & Hn & ->).
    rewrite app_nil_r.
    destruct (length rest); cbn [follow_next]; rewrite Hn; reflexivity.
  - cbn [map app fst snd flat_map] in *.
    rewrite map_app, <- app_assoc. cbn [map app].
    destruct (fetch_all_rest_through endpoint params key r next pages
                (Responds last :: rest) tr Hr Hpages) as (links & Hn & ->).
    cbn [length].
    rewrite (follow_next_last key last _ links _ _ rest _ Hlast Hn).
    rewrite flat_map_app. cbn [flat_map fst].
    rewrite app_nil_r, <- !app_assoc. reflexivity.
Qed.

(** X6, on two pages of the shop document. *)
Lemma fetch_without_item_key_returns_documents_witness :
  let u2 := "https://example-store.myshopify.com/admin/api/2024-10/shop.json?page_info=b" in
  let r1 := page_of "shop" [1; 2] (link_header None (Some u2)) in
  let r2 := page_of "shop" [3] (link_header (Some u2) None) in
  (fetch_all_rest (RT := reference_runtime) "shop.json" None None
     {| script := map Responds (map fst [(r1, u2)] ++ [r2]) ++ [];
        trace := [] |}).1
  = Ok (map (fun r => Document (default [] (json r)))
          (map fst [(r1, u2)] ++ [r2])).
Proof.
  cbv zeta.
  apply (fetch_without_item_key_returns_documents (RT := reference_runtime)
           "shop.json" None None).
  - reflexivity.
  - repeat constructor; cbn; try lia; [eexists; reflexivity|].
    eexists. split; vm_compute; reflexivity.
  - split; [cbn; lia|]. split; [eexists; reflexivity|].
    eexists. split; vm_compute; reflexivity.
Defined.

(** X7.  A page that cannot be read fails the whole fetch.  When a page
    with a 2xx status has a body that is not JSON ([JSONDecodeError]) or a
    [Link] header that [parse_link_header] cannot parse, [fetch_all_rest]
    raises that error, on the first page as on a later one: the records of
    the pages read before are not returned, and nothing more is asked of
    the API. *)
Theorem unreadable_page_fails_the_fetch `{RT : Runtime} {A : Type}
    (endpoint : string) (params : option (list (string * pval)))
    (key : option string) (pages : list (response A * string))
    (bad : response A) (e : exn) (rest : list (outcome A))
    (tr : list event) :
  Forall (fun p => advertises p.1 (Some p.2)) pages ->
  200 <= status_code bad < 300 ->
  page_error bad = Some e ->
  fetch_all_rest endpoint params key
    {| script := map Responds (map fst pages ++ [bad]) ++ rest;
       trace := tr |}
  = (Raise e,
     {| script := rest;
        trace := tr
                 ++ EvRequest "GET" (urljoin BASE_URL endpoint)
                      (Some (setdefault "limit" (PInt 250) (default [] params)))
                 :: map (fun p => EvRequest "GET" p.2 None) pages |}).
Proof.
  intros Hpages Hst He.
  destruct Hpages as [|[r next] pages Hr Hpages].
  - cbn [map app]. unfold fetch_all_rest, bind at 1.
    rewrite (ok_request bad _ _ rest tr Hst).
    unfold page_error in He. unfold resp_json. run_m.
    destruct (json bad) as [data|]; [|injection He as <-; reflexivity].
    run_m. destruct (response_links bad) as [links'|e']; [discriminate|].
    injection He as <-. reflexivity.
  - cbn [map app fst snd] in *.
    rewrite map_app, <- app_assoc. cbn [map app].
    destruct (fetch_all_rest_through endpoint params key r next pages
                (Responds bad :: rest) tr Hr Hpages) as (links & Hn & ->).
    cbn [length].
    rewrite (follow_next_bad key bad e _ links _ _ rest _ Hst He Hn).
    rewrite <- !app_assoc. cbn [app].
    rewrite requests_through. reflexivity.
Qed.

(** X7, for a second page that is an HTML error page with status 200. *)
Lemma unreadable_page_fails_the_fetch_witness :
  let u2 := "https://example-store.myshopify.com/admin/api/2024-10/products.json?page_info=b" in
  let r1 := page_of "products" [1; 2] (link_header None (Some u2)) in
  let r2 := {| status_code := 200; headers := [];
               json := @None (list (string * list Z)) |} in
  fetch_all_rest (RT := reference_runtime) "products.json" None
    (Some "products")
    {| script := map Responds (map fst [(r1, u2)] ++ [r2]) ++ [];
       trace := [] |}
  = (Raise JSONDecodeError,
     {| script := [];
        trace := []
                 ++ EvRequest "GET"
                      (urljoin (BASE_URL (RT := reference_runtime))
                         "products.json")
                      (Some (setdefault "limit" (PInt 250) (default [] None)))
                 :: map (fun p => EvRequest "GET" p.2 None) [(r1, u2)] |}).
Proof.
  cbv zeta.
  apply (unreadable_page_fails_the_fetch (RT := reference_runtime)
           "products.json" None (Some "products")).
  - repeat constructor; cbn; try lia; [eexists; reflexivity|].
    eexists. split; vm_compute; reflexivity.
  - cbn. lia.
  - reflexivity.
Defined.

(* ===================================================================== *)
(** ** Further properties of [parse_link_header] *)
(* ===================================================================== *)

Lemma occurs_lstrip (ch : ascii) (p : ascii -> bool) (s : string) :
  occurs ch s = false -> occurs ch (lstrip p s) = false.
Proof.
  induction s as [|c s IH]; [reflexivity|].
  cbn [lstrip]. destruct (p c); [|auto].
  cbn [occurs]. intros H. apply orb_false_elim in H as [_ H]. auto.
Qed.

Lemma occurs_rstrip (ch : ascii) (p : ascii -> bool) (s : string) :
  occurs ch s = false -> occurs ch (rstrip p s) = false.
Proof.
  induction s as [|c s IH]; [reflexivity|].
  cbn [occurs]. intros H. apply orb_false_elim in H as [Hc Hs].
  cbn [rstrip]. specialize (IH Hs).
  destruct (rstrip p s) as [|d r].
  - destruct (p c); [reflexivity|]. cbn. rewrite Hc. reflexivity.
  - cbn [occurs] in IH |- *. rewrite Hc, IH. reflexivity.
Qed.

Lemma occurs_strip (ch : ascii) (s : string) :
  occurs ch s = false -> occurs ch (strip s) = false.
Proof. intros H. apply occurs_rstrip, occurs_lstrip, H. Qed.

Lemma occurs_split (ch sep : ascii) (s : string) :
  occurs ch s = false ->
  Forall (fun p => occurs ch p = false) (split sep s).
Proof.
  induction s as [|c s IH]; intros H; [repeat constructor|].
  cbn [occurs] in H. apply orb_false_elim in H as [Hc Hs].
  specialize (IH Hs). cbn [split].
  destruct (Ascii.eqb c sep); [constructor; [reflexivity|exact IH]|].
  destruct (split sep s) as [|w ws].
  - repeat constructor. cbn. rewrite Hc. reflexivity.
  - inversion IH; subst. constructor; [|assumption].
    cbn. rewrite Hc. assumption.
Qed.

Lemma split_cons (sep : ascii) (s : string) :
  exists w ws, split sep s = w :: ws.
Proof.
  induction s as [|c s (w & ws & IH)]; [eexists _, _; reflexivity|].
  cbn [split]. rewrite IH.
  destruct (Ascii.eqb c sep); eexists _, _; reflexivity.
Qed.

Lemma lstrip_app_stop (p : ascii -> bool) (c : ascii) (a b : string) :
  p c = false -> lstrip p (a ++ String c b) = lstrip p a ++ String c b.
Proof.
  intros Hc. induction a as [|x a IH].
  - rewrite !append_nil_l. cbn. rewrite Hc. reflexivity.
  - rewrite append_cons. cbn [lstrip]. destruct (p x); [exact IH|].
    rewrite append_cons. reflexivity.
Qed.

Lemma rstrip_app_stop (p : ascii -> bool) (c : ascii) (a b : string) :
  p c = false -> rstrip p (a ++ String c b) = a ++ String c (rstrip p b).
Proof.
  intros Hc. induction a as [|x a IH].
  - rewrite !append_nil_l. cbn [rstrip]. rewrite Hc.
    destruct (rstrip p b); reflexivity.
  - rewrite !append_cons. cbn [rstrip]. rewrite IH.
    destruct a; reflexivity.
Qed.

(** A part without [;] is skipped. *)
Lemma parse_link_part_skips (p : string) (links : gmap string string) :
  occurs ";" p = false -> parse_link_part p links = Ok links.
Proof.
  intros H. unfold parse_link_part.
  rewrite (split_no_sep ";" (strip p)) by (apply occurs_strip, H).
  reflexivity.
Qed.

(** A part whose second section has no [=]: [split("=")[1]] is out of
    range. *)
Lemma parse_link_part_no_equals (a b : string) (links : gmap string string) :
  occurs ";" a = false -> occurs "=" b = false ->
  parse_link_part (a ++ String ";" b) links = Raise IndexError.
Proof.
  intros Ha Hb. unfold parse_link_part, strip.
  rewrite (lstrip_app_stop is_space ";") by reflexivity.
  rewrite (rstrip_app_stop is_space ";") by reflexivity.
  rewrite split_app_sep by (apply occurs_lstrip, Ha).
  destruct (split_cons ";" (rstrip is_space b)) as (w & ws & Hw).
  pose proof (occurs_split "=" ";" (rstrip is_space b)
                (occurs_rstrip _ _ _ Hb)) as Hall.
  rewrite Hw in Hall |- *. inversion Hall as [|? ? Hw' _]; subst.
  cbn beta iota zeta.
  rewrite (split_no_sep "=" (rstrip is_space (lstrip is_space w)))
    by (apply occurs_rstrip, occurs_lstrip, Hw').
  reflexivity.
Qed.

(** X8.  A link without [=] after its first [;] stops the parser: for a
    header that holds one link (no comma) whose text after the first [;]
    has no [=], as in [<url>; next], [parse_link_header] raises
    [IndexError]. *)
Theorem link_parameter_without_equals_raises (a b : string) :
  occurs "," (a ++ String ";" b) = false ->
  occurs ";" a = false ->
  occurs "=" b = false ->
  parse_link_header (a ++ String ";" b) = Raise IndexError.
Proof.
  intros Hcomma Ha Hb.
  assert (Hh : parse_link_header (a ++ String ";" b)
               = for_each parse_link_part
                   (split "," (a ++ String ";" b)) ∅).
  { destruct a; reflexivity. }
  rewrite Hh, (split_no_sep "," _ Hcomma). cbn [for_each].
  rewrite (parse_link_part_no_equals a b ∅ Ha Hb). reflexivity.
Qed.

(** X8, for a next link written without [rel=]. *)
Lemma link_parameter_without_equals_raises_witness :
  parse_link_header ("<https://s/a.json?page_info=x>" ++ String ";" " next")
  = Raise IndexError.
Proof.
  apply (link_parameter_without_equals_raises
           "<https://s/a.json?page_info=x>" " next"); reflexivity.
Defined.

(** X9.  A header without any [;] yields no link.  Whatever else it
    holds, [parse_link_header] skips every part of it and returns the
    empty dictionary, so a fetch that receives it ends as if the page were
    the last. *)
Theorem header_without_semicolon_has_no_links (header : string) :
  occurs ";" header = false ->
  parse_link_header header = Ok ∅
  /\ forall {A} (r : response A),
       200 <= status_code r < 300 ->
       is_Some (json r) ->
       headers_get "Link" (headers r) = Some header ->
       advertises r None.
Proof.
  intros H.
  assert (Hp : parse_link_header header = Ok ∅).
  { destruct header as [|c s]; [reflexivity|].
    change (parse_link_header (String c s))
      with (for_each parse_link_part (split "," (String c s)) ∅).
    pose proof (occurs_split ";" "," (String c s) H) as Hall.
    induction Hall as [|p ps Hp _ IH]; [reflexivity|].
    cbn [for_each]. rewrite (parse_link_part_skips p ∅ Hp). exact IH. }
  split; [exact Hp|].
  intros A r Hst Hj Hh. split; [exact Hst|]. split; [exact Hj|].
  exists ∅. unfold response_links. rewrite Hh. cbn [default].
  split; [exact Hp|]. rewrite lookup_empty. reflexivity.
Qed.

(** X9, for a header that gives the next URL without its relation. *)
Lemma header_without_semicolon_has_no_links_witness :
  parse_link_header "<https://s/a.json?page_info=x>, <https://s/b.json>"
  = Ok ∅
  /\ advertises (page_of "products" [1; 2]
                   (Some "<https://s/a.json?page_info=x>, <https://s/b.json>"))
       None.
Proof.
  destruct (header_without_semicolon_has_no_links
              "<https://s/a.json?page_info=x>, <https://s/b.json>" eq_refl)
    as [Hp Hadv].
  split; [exact Hp|].
  apply Hadv; [cbn; lia|eexists; reflexivity|reflexivity].
Defined.

Lemma split_app_last (sep : ascii) (x y : string) :
  occurs sep y = false ->
  split sep (x ++ String sep y) = (split sep x ++ [y])%list.
Proof.
  intros Hy. induction x as [|c x IH].
  - rewrite append_nil_l. cbn [split]. rewrite Ascii.eqb_refl.
    rewrite (split_no_sep sep y Hy). reflexivity.
  - rewrite append_cons. cbn [split]. rewrite IH.
    destruct (Ascii.eqb c sep); [reflexivity|].
    destruct (split_cons sep x) as (w & ws & ->). reflexivity.
Qed.

Lemma find_not_found (ch : ascii) (s : string) :
  occurs ch s = false -> find ch s = -1.
Proof.
  induction s as [|c s IH]; [reflexivity|].
  cbn [occurs]. intros H. apply orb_false_elim in H as [Hc Hs].
  cbn [find]. rewrite Hc, (IH Hs). reflexivity.
Qed.

Lemma for_each_skips (ps : list string) (links : gmap string string) :
  Forall (fun p => occurs ";" p = false) ps ->
  for_each parse_link_part ps links = Ok links.
Proof.
  induction 1 as [|p ps Hp _ IH]; [reflexivity|].
  cbn [for_each]. rewrite (parse_link_part_skips p links Hp). exact IH.
Qed.

(** The part that ends a link whose URL holds a comma: what stands
    between the comma and [>] is taken for the URL. *)
Lemma parse_link_part_tail (b : string) (links : gmap string string) :
  lstrip is_space b = b ->
  occurs ";" b = false -> occurs "<" b = false -> occurs ">" b = false ->
  parse_link_part (b ++ ">; rel=" ++ String dquote ("next" ++ String dquote ""))
    links
  = Ok (<["next" := b]> links).
Proof.
  intros Hl Hsemi Hlt Hgt. unfold parse_link_part, strip.
  change (b ++ ">; rel=" ++ String dquote ("next" ++ String dquote ""))
    with (b ++ String ">" ("; rel=" ++ String dquote
                                         ("next" ++ String dquote ""))).
  rewrite (lstrip_app_stop is_space ">") by reflexivity.
  rewrite Hl.
  rewrite (rstrip_app_stop is_space ">") by reflexivity.
  match goal with |- context [rstrip is_space ?t] =>
    let l := eval vm_compute in (rstrip is_space t) in
    change (rstrip is_space t) with l
  end.
  match goal with |- context [b ++ String ">" (String ";" ?t)] =>
    replace (b ++ String ">" (String ";" t))
      with ((b ++ ">") ++ String ";" t)
      by (rewrite append_assoc; reflexivity)
  end.
  rewrite split_app_sep by (rewrite occurs_app, Hsemi; reflexivity).
  match goal with |- context [split ";" ?t] =>
    let l := eval vm_compute in (split ";" t) in
    change (split ";" t) with l
  end.
  cbn beta iota zeta.
  assert (Hs0 : rstrip is_space (lstrip is_space (b ++ ">")) = b ++ ">").
  { rewrite (lstrip_app_stop is_space ">") by reflexivity. rewrite Hl.
    rewrite (rstrip_app_stop is_space ">") by reflexivity. reflexivity. }
  rewrite Hs0.
  assert (Hfl : find "<" (b ++ ">") = -1).
  { apply find_not_found. rewrite occurs_app, Hlt. reflexivity. }
  rewrite Hfl, (find_app ">" b "" Hgt).
  assert (Hslice : slice (b ++ ">") (-1 + 1) (len b) = b).
  { unfold slice, slice_bound, len. rewrite length_append. cbn [String.length].
    replace (-1 + 1 <? 0) with false by reflexivity.
    replace (Z.of_nat (String.length b) <? 0) with false
      by (symmetry; apply Z.ltb_ge; lia).
    replace (Z.to_nat (Z.max 0 (Z.min (Z.of_nat (String.length b + 1))
                                  (-1 + 1)))) with 0%nat by lia.
    replace (Z.to_nat (Z.max 0 (Z.min (Z.of_nat (String.length b + 1))
                                  (Z.of_nat (String.length b)))
                       - Z.max 0 (Z.min (Z.of_nat (String.length b + 1))
                                    (-1 + 1))))
      with (String.length b) by lia.
    apply substring_prefix. }
  rewrite Hslice. reflexivity.
Qed.

(** X10.  A comma inside the URL of the next link cuts the URL.  The
    header is split at every comma before the links are read, so from
    [<a,b>; rel="next"] the parser keeps the text [b] between the last
    comma and [>] as the next URL, and the part before the comma is
    dropped. *)
Theorem comma_in_next_url_truncates_it (a b : string) :
  occurs ";" a = false ->
  lstrip is_space b = b ->
  occurs "," b = false -> occurs ";" b = false ->
  occurs "<" b = false -> occurs ">" b = false ->
  parse_link_header (link_value (a ++ String "," b) "next")
  = Ok {[ "next" := b ]}.
Proof.
  intros Ha Hl Hcomma Hsemi Hlt Hgt.
  rewrite parse_link_header_value. unfold link_value.
  replace ("<" ++ (a ++ String "," b) ++ ">; rel="
           ++ String dquote ("next" ++ String dquote ""))
    with (("<" ++ a)
          ++ String "," (b ++ ">; rel="
                           ++ String dquote ("next" ++ String dquote ""))).
  2:{ rewrite !append_assoc. reflexivity. }
  rewrite split_app_last.
  2:{ rewrite occurs_app, Hcomma. reflexivity. }
  rewrite for_each_app.
  rewrite for_each_skips.
  2:{ apply occurs_split. rewrite occurs_app, Ha. reflexivity. }
  cbn [pbind for_each].
  rewrite (parse_link_part_tail b ∅ Hl Hsemi Hlt Hgt). reflexivity.
Qed.

(** X10, for a next link that repeats a [fields] filter. *)
Lemma comma_in_next_url_truncates_it_witness :
  parse_link_header
    (link_value ("https://s/a.json?fields=id" ++ String "," "title") "next")
  = Ok {[ "next" := "title" ]}.
Proof.
  apply (comma_in_next_url_truncates_it "https://s/a.json?fields=id" "title");
    reflexivity.
Defined.

(* ===================================================================== *)
(** ** Properties of [database.py] *)
(* ===================================================================== *)

(** X11.  The watermark store is a key-value store: a value that
    [db_set_metadata] has written is what [db_get_metadata] reads under
    that key; the other keys, the five tables, the API and the trace are
    left as they were; and a second write under the key replaces the
    first. *)
Theorem metadata_round_trip (key value : string) (w : world) :
  let w' := (db_set_metadata key value w).2 in
  (db_get_metadata key w').1 = Ok (Some value)
  /\ (forall k : string,
        k <> key -> (db_get_metadata k w').1 = (db_get_metadata k w).1)
  /\ set_db (set_metadata (fun _ => metadata (db w))) w' = w
  /\ (forall v0 : string,
        (db_set_metadata key value (db_set_metadata key v0 w).2).2 = w').
Proof.
  cbn. unfold db_get_metadata, db_set_metadata, gets, modify. cbn.
  repeat split.
  - rewrite lookup_insert_eq. reflexivity.
  - intros k Hk. rewrite lookup_insert_ne by congruence. reflexivity.
  - destruct w as [[] ? ? ? ?]. reflexivity.
  - intros v0. unfold set_db, set_metadata. cbn.
    rewrite insert_insert_eq. reflexivity.
Qed.

(** X11, for the products watermark beside the orders watermark. *)
Lemma metadata_round_trip_witness :
  let w := (db_set_metadata "orders_last_sync" "2024-01-01T00:00:00+00:00"
              empty_world).2 in
  let w' := (db_set_metadata "products_last_sync" "2024-03-02T08:30:00+00:00"
               w).2 in
  (db_get_metadata "orders_last_sync" w').1
  = (db_get_metadata "orders_last_sync" w).1.
Proof.
  cbv zeta.
  apply (proj1 (proj2 (metadata_round_trip "products_last_sync"
                         "2024-03-02T08:30:00+00:00" _))).
  discriminate.
Defined.

Section SchemaFacts.
Import Schema.

Lemma migrate_unfold (t c d : string) (conn : schema) :
  migrate (t, c, d) conn
  = if column_exists conn t c then conn
    else match conn !! t with
         | None => conn
         | Some cols =>
             if existsb (same_column c) cols then conn
             else if contains "primary key" (lower d) then conn
             else <[t := (cols ++ [c])%list]> conn
         end.
Proof.
  unfold migrate, add_column_if_missing, alter_table_add_column. cbn [fst snd].
  destruct (column_exists conn t c); [reflexivity|]. cbn [negb].
  destruct (conn !! t) as [cols|]; [|reflexivity].
  destruct (existsb (same_column c) cols); [reflexivity|].
  destruct (contains "primary key" (lower d)); reflexivity.
Qed.

(** A call changes nothing, or appends its column to its table. *)
Lemma migrate_cases (m : string * string * string) (conn : schema) :
  migrate m conn = conn
  \/ exists cols,
       conn !! m.1.1 = Some cols
       /\ contains "primary key" (lower m.2) = false
       /\ migrate m conn = <[m.1.1 := (cols ++ [m.1.2])%list]> conn.
Proof.
  destruct m as [[t c] d]. rewrite migrate_unfold. cbn [fst snd].
  destruct (column_exists conn t c); [left; reflexivity|].
  destruct (conn !! t) as [cols|]; [|left; reflexivity].
  destruct (existsb (same_column c) cols); [left; reflexivity|].
  destruct (contains "primary key" (lower d)) eqn:E; [left; reflexivity|].
  right. exists cols. auto.
Qed.

Lemma migrate_additive (m : string * string * string) (conn : schema)
    (t : string) (cols : list string) :
  conn !! t = Some cols ->
  exists more,
    migrate m conn !! t = Some (cols ++ more)%list
    /\ (t <> m.1.1 -> more = []).
Proof.
  intros Ht. destruct (migrate_cases m conn) as [-> | (cols' & Hc & _ & ->)].
  - exists []. rewrite app_nil_r. auto.
  - destruct (decide (t = m.1.1)) as [-> | Hne].
    + rewrite Ht in Hc. injection Hc as <-.
      exists [m.1.2]. split; [apply lookup_insert_eq|congruence].
    + exists []. rewrite app_nil_r. split; [|reflexivity].
      rewrite lookup_insert_ne by congruence. exact Ht.
Qed.

Lemma migrate_no_new_table (m : string * string * string) (conn : schema)
    (t : string) :
  conn !! t = None -> migrate m conn !! t = None.
Proof.
  intros Ht. destruct (migrate_cases m conn) as [-> | (cols' & Hc & _ & ->)];
    [exact Ht|].
  rewrite lookup_insert_ne; [exact Ht|]. intros <-. congruence.
Qed.

Lemma existsb_app_l {X} (f : X -> bool) (l more : list X) :
  existsb f l = true -> existsb f (l ++ more) = true.
Proof. intros H. rewrite existsb_app, H. reflexivity. Qed.

Lemma same_column_refl (c : string) : same_column c c = true.
Proof. apply String.eqb_refl. Qed.

Lemma column_exists_has_column (conn : schema) (t c : string) :
  column_exists conn t c = true -> has_column conn t c = true.
Proof.
  unfold column_exists, has_column.
  induction (table_info conn t) as [|x l IH]; [discriminate|].
  cbn [existsb]. intros H. apply orb_prop in H as [H | H].
  - apply String.eqb_eq in H as <-. rewrite same_column_refl. reflexivity.
  - rewrite (IH H). apply orb_true_r.
Qed.

Lemma column_exists_migrate (m : string * string * string) (conn : schema)
    (t c : string) :
  column_exists conn t c = true -> column_exists (migrate m conn) t c = true.
Proof.
  unfold column_exists, table_info.
  destruct (conn !! t) as [cols|] eqn:Ht; [|discriminate].
  destruct (migrate_additive m conn t cols Ht) as (more & -> & _).
  simpl. apply existsb_app_l.
Qed.

Lemma has_column_migrate (m : string * string * string) (conn : schema)
    (t c : string) :
  has_column conn t c = true -> has_column (migrate m conn) t c = true.
Proof.
  unfold has_column, table_info.
  destruct (conn !! t) as [cols|] eqn:Ht; [|discriminate].
  destruct (migrate_additive m conn t cols Ht) as (more & -> & _).
  simpl. apply existsb_app_l.
Qed.

(** After a call there is nothing left for it to do. *)
Lemma migrate_settles (m : string * string * string) (conn : schema) :
  settled m (migrate m conn).
Proof.
  unfold settled.
  destruct (migrate_cases m conn) as [H | (cols & Hc & Hpk & H)].
  - rewrite H. exact H.
  - rewrite H. destruct m as [[t c] d]. cbn [fst snd] in *.
    rewrite migrate_unfold.
    assert (Hex : column_exists (<[t := (cols ++ [c])%list]> conn) t c = true).
    { unfold column_exists, table_info. rewrite lookup_insert_eq.
      simpl. rewrite existsb_app. cbn.
      rewrite String.eqb_refl. apply orb_true_r. }
    rewrite Hex. reflexivity.
Qed.

(** What is settled stays settled under the other calls. *)
Lemma settled_migrate (m m' : string * string * string) (conn : schema) :
  settled m conn -> settled m (migrate m' conn).
Proof.
  destruct m as [[t c] d]. unfold settled. rewrite !migrate_unfold.
  destruct (column_exists conn t c) eqn:Eex.
  { intros _. rewrite (column_exists_migrate m' conn t c Eex). reflexivity. }
  destruct (column_exists (migrate m' conn) t c); [reflexivity|].
  destruct (conn !! t) as [cols|] eqn:Ht.
  2:{ intros _. rewrite (migrate_no_new_table m' conn t Ht). reflexivity. }
  destruct (migrate_additive m' conn t cols Ht) as (more & -> & _).
  destruct (existsb (same_column c) cols) eqn:Eci.
  { intros _. rewrite (existsb_app_l _ cols more Eci). reflexivity. }
  destruct (contains "primary key" (lower d)).
  { intros _. destruct (existsb (same_column c) (cols ++ more)); reflexivity. }
  intros H. apply (f_equal (fun s => s !! t)) in H.
  rewrite lookup_insert_eq, Ht in H. injection H as H.
  apply (f_equal (@length string)) in H. rewrite length_app in H.
  cbn in H. lia.
Qed.

(** The same facts for calls made one after the other. *)
Lemma migrate_all_additive (l : list (string * string * string)) :
  forall (conn : schema) (t : string) (cols : list string),
    conn !! t = Some cols ->
    exists more,
      migrate_all l conn !! t = Some (cols ++ more)%list
      /\ (Forall (fun m => t <> m.1.1) l -> more = []).
Proof.
  induction l as [|m l IH]; intros conn t cols Ht.
  - exists []. rewrite app_nil_r. auto.
  - cbn [migrate_all foldl].
    destruct (migrate_additive m conn t cols Ht) as (more1 & H1 & Hn1).
    destruct (IH _ t _ H1) as (more2 & H2 & Hn2).
    exists (more1 ++ more2)%list. rewrite app_assoc. split; [exact H2|].
    intros Hall. inversion Hall; subst.
    rewrite Hn1, Hn2 by assumption. reflexivity.
Qed.

Lemma settled_migrate_all (m : string * string * string)
    (l : list (string * string * string)) :
  forall conn : schema, settled m conn -> settled m (migrate_all l conn).
Proof.
  induction l as [|m' l IH]; intros conn H; [exact H|].
  cbn [migrate_all foldl]. apply IH, settled_migrate, H.
Qed.

Lemma migrate_all_settles (l : list (string * string * string)) :
  forall conn : schema, Forall (fun m => settled m (migrate_all l conn)) l.
Proof.
  induction l as [|m l IH]; intros conn; [constructor|].
  cbn [migrate_all foldl]. constructor; [|apply IH].
  apply settled_migrate_all, migrate_settles.
Qed.

Lemma migrate_all_settled (l : list (string * string * string)) :
  forall conn : schema,
    Forall (fun m => settled m conn) l -> migrate_all l conn = conn.
Proof.
  induction l as [|m l IH]; intros conn H; [reflexivity|].
  inversion H as [|? ? Hm Hl]; subst.
  cbn [migrate_all foldl]. unfold settled in Hm. rewrite Hm. apply IH, Hl.
Qed.

Lemma has_column_migrate_all (l : list (string * string * string)) :
  forall (conn : schema) (t c : string),
    has_column conn t c = true -> has_column (migrate_all l conn) t c = true.
Proof.
  induction l as [|m l IH]; intros conn t c H; [exact H|].
  cbn [migrate_all foldl]. apply IH, has_column_migrate, H.
Qed.

(** A call for a column that SQLite can add leaves the column there. *)
Lemma migrate_has_column (t c d : string) (conn : schema) :
  is_Some (conn !! t) ->
  contains "primary key" (lower d) = false ->
  has_column (migrate (t, c, d) conn) t c = true.
Proof.
  intros [cols Ht] Hpk. rewrite migrate_unfold.
  destruct (column_exists conn t c) eqn:Eex;
    [apply column_exists_has_column, Eex|].
  rewrite Ht.
  destruct (existsb (same_column c) cols) eqn:Eci.
  { unfold has_column, table_info. rewrite Ht. exact Eci. }
  rewrite Hpk. unfold has_column, table_info. rewrite lookup_insert_eq.
  simpl. rewrite existsb_app. cbn. rewrite same_column_refl.
  apply orb_true_r.
Qed.

Lemma migrate_all_has_column (l : list (string * string * string)) :
  forall (conn : schema) (t c d : string),
    In (t, c, d) l ->
    is_Some (conn !! t) ->
    contains "primary key" (lower d) = false ->
    has_column (migrate_all l conn) t c = true.
Proof.
  induction l as [|m l IH]; intros conn t c d Hin Ht Hpk; [destruct Hin|].
  cbn [migrate_all foldl]. destruct Hin as [-> | Hin].
  - apply has_column_migrate_all, migrate_has_column; assumption.
  - apply (IH _ t c d Hin); [|exact Hpk].
    destruct Ht as [cols Ht].
    destruct (migrate_additive m conn t cols Ht) as (more & H & _).
    eexists. exact H.
Qed.

(** [CREATE TABLE IF NOT EXISTS] leaves a table that exists as it is. *)
Lemma create_all_keeps (l : list (string * list string)) :
  forall (conn : schema) (t : string) (cols : list string),
    conn !! t = Some cols -> create_all l conn !! t = Some cols.
Proof.
  induction l as [|[n cs] l IH]; intros conn t cols Ht; [exact Ht|].
  cbn [create_all foldl fst snd]. apply IH.
  unfold create_table_if_not_exists.
  destruct (conn !! n) eqn:Hn; [exact Ht|].
  rewrite lookup_insert_ne; [exact Ht|]. intros <-. congruence.
Qed.

Lemma create_all_creates (l : list (string * list string)) :
  forall (conn : schema) (n : string) (cs : list string),
    In (n, cs) l -> is_Some (create_all l conn !! n).
Proof.
  induction l as [|[n' cs'] l IH]; intros conn n cs Hin; [destruct Hin|].
  cbn [create_all foldl fst snd]. destruct Hin as [[= -> ->] | Hin].
  - unfold create_table_if_not_exists.
    destruct (conn !! n) as [cols|] eqn:Hn.
    + exists cols. apply create_all_keeps, Hn.
    + exists cs. apply create_all_keeps, lookup_insert_eq.
  - apply (IH _ n cs Hin).
Qed.

Lemma create_all_exists (l : list (string * list string)) :
  forall conn : schema,
    Forall (fun t => is_Some (conn !! t.1)) l -> create_all l conn = conn.
Proof.
  induction l as [|[n cs] l IH]; intros conn H; [reflexivity|].
  inversion H as [|? ? [cols Hn] Hl]; subst. cbn [fst] in Hn.
  cbn [create_all foldl fst snd]. unfold create_table_if_not_exists.
  rewrite Hn. apply IH, Hl.
Qed.

Lemma create_all_new (l : list (string * list string)) :
  forall (conn : schema) (t : string) (cs : list string),
    conn !! t = None -> NoDup (map fst l) -> In (t, cs) l ->
    create_all l conn !! t = Some cs.
Proof.
  induction l as [|[n cs'] l IH]; intros conn t cs Ht Hnd Hin;
    [destruct Hin|].
  cbn [map fst] in Hnd. apply NoDup_cons in Hnd as [Hn Hnd].
  cbn [create_all foldl fst snd]. destruct Hin as [[= -> ->] | Hin].
  - unfold create_table_if_not_exists. rewrite Ht.
    apply create_all_keeps, lookup_insert_eq.
  - assert (Hne : n <> t).
    { intros ->. apply Hn. apply list_elem_of_In.
      apply (in_map fst) in Hin. exact Hin. }
    apply (IH _ t cs); [|exact Hnd|exact Hin].
    unfold create_table_if_not_exists.
    destruct (conn !! n); [exact Ht|].
    rewrite lookup_insert_ne by exact Hne. exact Ht.
Qed.

Lemma column_exists_migrate_all (l : list (string * string * string)) :
  forall (conn : schema) (t c : string),
    column_exists conn t c = true ->
    column_exists (migrate_all l conn) t c = true.
Proof.
  induction l as [|m l IH]; intros conn t c H; [exact H|].
  cbn [migrate_all foldl]. apply IH, column_exists_migrate, H.
Qed.

(** What [migrate_schema] names is a column of the [CREATE TABLE]
    statement of its table, and only [id] is a primary key. *)
Lemma migrations_declared (t c d : string) :
  In (t, c, d) migrations ->
  (exists cs, In (t, cs) tables /\ existsb (String.eqb c) cs = true)
  /\ (c <> "id" -> contains "primary key" (lower d) = false).
Proof.
  unfold migrations. cbn [In]. intros Hin.
  repeat (destruct Hin as [[= <- <- <-] | Hin];
          [split;
           [eexists; split; [unfold tables; cbn [In]; eauto 10|reflexivity]
           |intros Hc; first [reflexivity | contradiction]]|]).
  destruct Hin.
Qed.

Lemma init_db_keeps_tables (conn : schema) (t : string) :
  is_Some (create_tables conn !! t) -> is_Some (init_db conn !! t).
Proof.
  intros [cols Ht]. unfold init_db, migrate_schema.
  destruct (migrate_all_additive migrations _ t cols Ht) as (more & H & _).
  eexists. exact H.
Qed.
End SchemaFacts.

(** X12.  Schema initialisation only adds.  A table that exists when
    [init_db] starts keeps its columns, in their order; [init_db] may
    append columns to [products], [customers] and [orders], and leaves
    every other table, [product_variants] and [line_items] among them,
    exactly as it found it. *)
Theorem init_db_only_adds_columns (conn : Schema.schema) (t : string)
    (cols : list string) :
  conn !! t = Some cols ->
  exists more,
    Schema.init_db conn !! t = Some (cols ++ more)%list
    /\ (t <> "products" -> t <> "customers" -> t <> "orders" -> more = []).
Proof.
  intros Ht. unfold Schema.init_db, Schema.migrate_schema.
  pose proof (create_all_keeps Schema.tables conn t cols Ht) as Hc.
  destruct (migrate_all_additive Schema.migrations _ t cols Hc)
    as (more & H & Hn).
  exists more. split; [exact H|].
  intros Hp Hcu Ho. apply Hn.
  unfold Schema.migrations. repeat constructor; cbn [fst]; assumption.
Qed.

(** X12, for an old file whose tables lack columns: [products] gets the
    missing ones after those it has, [line_items] is not repaired. *)
Lemma init_db_only_adds_columns_witness :
  let old : Schema.schema :=
    {[ "products" := ["id"; "Title"; "handle"];
       "line_items" := ["id"; "order_id"] ]} in
  exists more,
    Schema.init_db old !! "line_items" = Some (["id"; "order_id"] ++ more)%list
    /\ ("line_items" <> "products" -> "line_items" <> "customers" ->
        "line_items" <> "orders" -> more = []).
Proof.
  cbv zeta.
  apply (init_db_only_adds_columns _ "line_items" ["id"; "order_id"]).
  vm_compute. reflexivity.
Defined.

(** X13.  Schema initialisation is idempotent: running [init_db] on a
    file it has initialised changes nothing, whatever the file was
    before. *)
Theorem init_db_is_idempotent (conn : Schema.schema) :
  Schema.init_db (Schema.init_db conn) = Schema.init_db conn.
Proof.
  unfold Schema.init_db at 1.
  assert (Hc : Schema.create_tables (Schema.init_db conn)
               = Schema.init_db conn).
  { apply create_all_exists. apply Forall_forall. intros [n cs] Hin.
    cbn [fst]. apply init_db_keeps_tables.
    apply (create_all_creates Schema.tables conn n cs).
    apply list_elem_of_In, Hin. }
  rewrite Hc. apply migrate_all_settled.
  unfold Schema.init_db, Schema.migrate_schema. apply migrate_all_settles.
Qed.

(** X14.  After [init_db] the three tables it migrates have, up to the
    case of the name, every column that [migrate_schema] names, with one
    exception: the [id] column, a primary key, cannot be added to a table
    that exists without it.  On a new file the six tables are created
    with exactly the columns of the [CREATE TABLE] statements. *)
Theorem init_db_completes_columns (conn : Schema.schema) (t c d : string) :
  In (t, c, d) Schema.migrations ->
  (c <> "id" -> Schema.has_column (Schema.init_db conn) t c = true)
  /\ (conn !! t = None ->
      Schema.column_exists (Schema.init_db conn) t c = true)
  /\ Schema.init_db ∅ = list_to_map Schema.tables.
Proof.
  intros Hin.
  destruct (migrations_declared t c d Hin) as [(cs & Hcs & Hc) Hpk].
  unfold Schema.init_db, Schema.migrate_schema, Schema.create_tables.
  split; [|split].
  - intros Hid. apply (migrate_all_has_column _ _ t c d Hin).
    + apply (create_all_creates Schema.tables conn t cs Hcs).
    + apply Hpk, Hid.
  - intros Hnone. apply column_exists_migrate_all.
    unfold Schema.column_exists, Schema.table_info.
    rewrite (create_all_new Schema.tables conn t cs Hnone); [exact Hc| |exact Hcs].
    apply (bool_decide_unpack _). vm_compute. reflexivity.
  - vm_compute. reflexivity.
Qed.

(** X14, for an old [orders] table without [currency]: the column is
    there after [init_db]. *)
Lemma init_db_completes_columns_witness :
  Schema.has_column
    (Schema.init_db {[ "orders" := ["id"; "order_number"; "Email"] ]})
    "orders" "currency" = true.
Proof.
  apply (proj1 (init_db_completes_columns
                  {[ "orders" := ["id"; "order_number"; "Email"] ]}
                  "orders" "currency" "TEXT" ltac:(cbn; tauto))).
  discriminate.
Defined.

(* ===================================================================== *)
(** ** Further properties of the passes *)
(* ===================================================================== *)

(** A relation that every turn of a loop respects holds between the start
    and the end of the loop. *)
Lemma for_each_rel {A S} (body : A -> S -> pyres S) (R : S -> S -> Prop)
    (l : list A) :
  (forall s, R s s) ->
  (forall a b c, R a b -> R b c -> R a c) ->
  (forall x s s', In x l -> body x s = Ok s' -> R s s') ->
  forall s s', for_each body l s = Ok s' -> R s s'.
Proof.
  intros Hrefl Htrans. induction l as [|x l IH]; intros Hstep s s'.
  - cbn. intros [= <-]. apply Hrefl.
  - cbn [for_each]. destruct (body x s) as [s1|e] eqn:Hx; [|discriminate].
    cbn [pbind]. intros Hl. apply (Htrans _ s1).
    + apply (Hstep x); [left; reflexivity|exact Hx].
    + apply IH; [|exact Hl]. intros y a b Hy. apply Hstep. right. exact Hy.
Qed.

Section StoreSteps.
Context `{RT : Runtime}.

(** The turns of the loops, when they end normally. *)
Lemma store_variant_ok (pid : option Z) (v : variant) (st st' : loop_vars) :
  store_variant pid v st = Ok st' ->
  exists (k : Z) (vid : option Z),
    pid = Some k /\ getitem (v_id v) = Ok vid
    /\ st' = execute (set_product_variants
                        (insert_or_replace vid (variant_row_of k v)))
               (count_child st).
Proof.
  unfold store_variant.
  destruct (getitem (v_id v)) as [vid|e]; [|discriminate].
  destruct pid as [k|]; [|discriminate].
  cbn. intros [= <-]. exists k, vid. repeat split.
Qed.

Lemma store_product_ok (p : product) (st st' : loop_vars) :
  store_product p st = Ok st' ->
  exists (pid : option Z) (vs : list variant) (st1 : loop_vars),
    getitem (p_id p) = Ok pid
    /\ iter (get_default (p_variants p) []) = Ok vs
    /\ for_each (store_variant pid) vs
         (execute (set_products (insert_or_replace pid (product_row_of p)))
            (count_saved st)) = Ok st1
    /\ st' = set_max_updated
               (track_max_updated (p_updated_at p) (max_updated st1)) st1.
Proof.
  unfold store_product.
  destruct (getitem (p_id p)) as [pid|e]; [|discriminate].
  destruct (iter (get_default (p_variants p) [])) as [vs|e]; [|discriminate].
  cbn [pbind].
  destruct (for_each (store_variant pid) vs _) as [st1|e] eqn:Hvs;
    [|discriminate].
  cbn [pbind]. intros [= <-]. exists pid, vs, st1. repeat split. exact Hvs.
Qed.

Lemma store_customer_ok (c : customer) (st st' : loop_vars) :
  store_customer c st = Ok st' ->
  exists cid : option Z,
    getitem (c_id c) = Ok cid
    /\ st' = let st1 := execute (set_customers
                                   (insert_or_replace cid (customer_row_of c)))
                          (count_saved st) in
             set_max_updated
               (track_max_updated (c_updated_at c) (max_updated st1)) st1.
Proof.
  unfold store_customer.
  destruct (getitem (c_id c)) as [cid|e]; [|discriminate].
  cbn. intros [= <-]. exists cid. repeat split.
Qed.

Lemma store_line_item_ok (oid : option Z) (li : line_item)
    (st st' : loop_vars) :
  store_line_item oid li st = Ok st' ->
  exists k : Z,
    oid = Some k
    /\ st' = execute (set_line_items
                        (insert_or_replace (get (li_id li))
                           (line_item_row_of k li)))
               (count_child st).
Proof.
  unfold store_line_item. destruct oid as [k|]; [|discriminate].
  cbn. intros [= <-]. exists k. repeat split.
Qed.

Lemma store_order_ok (o : order) (st st' : loop_vars) :
  store_order o st = Ok st' ->
  exists (oid : option Z) (lis : list line_item) (st1 : loop_vars),
    getitem (o_id o) = Ok oid
    /\ iter (get_default (o_line_items o) []) = Ok lis
    /\ for_each (store_line_item oid) lis
         (execute (set_orders (insert_or_replace oid (order_row_of o)))
            (count_saved st)) = Ok st1
    /\ st' = set_max_updated
               (track_max_updated (o_updated_at o) (max_updated st1)) st1.
Proof.
  unfold store_order.
  destruct (getitem (o_id o)) as [oid|e]; [|discriminate].
  destruct (iter (get_default (o_line_items o) [])) as [lis|e];
    [|discriminate].
  cbn [pbind].
  destruct (for_each (store_line_item oid) lis _) as [st1|e] eqn:Hlis;
    [|discriminate].
  cbn [pbind]. intros [= <-]. exists oid, lis, st1. repeat split. exact Hlis.
Qed.

Lemma store_item_ok {A} (store : A -> loop_vars -> pyres loop_vars)
    (x : fetched A) (st st' : loop_vars) :
  store_item store x st = Ok st' ->
  exists a, x = Item a /\ store a st = Ok st'.
Proof.
  destruct x as [a|d]; cbn.
  - intros H. exists a. auto.
  - destruct (dict_get "id" d); discriminate.
Qed.

(** The counter of a pass counts the turns of its loop. *)
Lemma store_loop_saved {A} (store : A -> loop_vars -> pyres loop_vars)
    (items : list (fetched A)) :
  (forall a st st', store a st = Ok st' -> saved st' = saved st + 1) ->
  forall st st',
    for_each (store_item store) items st = Ok st' ->
    saved st' = saved st + Z.of_nat (length items).
Proof.
  intros Hstore. induction items as [|x items IH]; intros st st'.
  - cbn. intros [= <-]. lia.
  - cbn [for_each].
    destruct (store_item store x st) as [st1|e] eqn:Hx; [|discriminate].
    cbn [pbind]. intros Hl.
    destruct (store_item_ok _ _ _ _ Hx) as (a & -> & Ha).
    rewrite (IH _ _ Hl), (Hstore _ _ _ Ha). cbn [length]. lia.
Qed.

Lemma store_variants_saved (pid : option Z) (vs : list variant)
    (st st' : loop_vars) :
  for_each (store_variant pid) vs st = Ok st' -> saved st' = saved st.
Proof.
  apply (for_each_rel _ (fun a b => saved b = saved a)); [reflexivity| |].
  - intros a b c H1 H2. congruence.
  - intros v s s' _ H.
    destruct (store_variant_ok _ _ _ _ H) as (k & vid & _ & _ & ->).
    reflexivity.
Qed.

Lemma store_line_items_saved (oid : option Z) (lis : list line_item)
    (st st' : loop_vars) :
  for_each (store_line_item oid) lis st = Ok st' -> saved st' = saved st.
Proof.
  apply (for_each_rel _ (fun a b => saved b = saved a)); [reflexivity| |].
  - intros a b c H1 H2. congruence.
  - intros v s s' _ H.
    destruct (store_line_item_ok _ _ _ _ H) as (k & _ & ->).
    reflexivity.
Qed.

Lemma store_product_saved (p : product) (st st' : loop_vars) :
  store_product p st = Ok st' -> saved st' = saved st + 1.
Proof.
  intros H.
  destruct (store_product_ok _ _ _ H) as (pid & vs & st1 & _ & _ & Hvs & ->).
  apply store_variants_saved in Hvs. exact Hvs.
Qed.

Lemma store_customer_saved (c : customer) (st st' : loop_vars) :
  store_customer c st = Ok st' -> saved st' = saved st + 1.
Proof.
  intros H. destruct (store_customer_ok _ _ _ H) as (cid & _ & ->).
  reflexivity.
Qed.

Lemma store_order_saved (o : order) (st st' : loop_vars) :
  store_order o st = Ok st' -> saved st' = saved st + 1.
Proof.
  intros H.
  destruct (store_order_ok _ _ _ H) as (oid & lis & st1 & _ & _ & Hl & ->).
  apply store_line_items_saved in Hl. exact Hl.
Qed.

Lemma store_pass_count {A} (store : A -> loop_vars -> pyres loop_vars)
    (key : string) (items : list (fetched A)) (w : world) (n : Z) :
  (forall a st st', store a st = Ok st' -> saved st' = saved st + 1) ->
  (store_pass store key items w).1 = Ok n ->
  n = Z.of_nat (length items).
Proof.
  intros Hstore. rewrite store_pass_run.
  destruct (for_each (store_item store) items (loop_start (db w)))
    as [st|e] eqn:Hloop; [|discriminate].
  cbn [fst]. intros [= <-].
  rewrite (store_loop_saved store items Hstore _ _ Hloop). reflexivity.
Qed.
End StoreSteps.

(** X15.  The count a pass returns.  A store step that completes returns
    the number of records it was given, whether or not some of them share
    an [id] and so share a row; the nested variants and line items are not
    counted. *)
Theorem pass_counts_fetched_records `{RT : Runtime} (w : world) (n : Z) :
  (forall items : list (fetched product),
     (store_products items w).1 = Ok n -> n = Z.of_nat (length items))
  /\ (forall items : list (fetched customer),
        (store_customers items w).1 = Ok n -> n = Z.of_nat (length items))
  /\ (forall items : list (fetched order),
        (store_orders items w).1 = Ok n -> n = Z.of_nat (length items)).
Proof.
  repeat split; intros items.
  - apply store_pass_count, store_product_saved.
  - apply store_pass_count, store_customer_saved.
  - apply store_pass_count, store_order_saved.
Qed.

(** X15, for a customer fetched twice: the count is 2, the table has one
    row. *)
Lemma pass_counts_fetched_records_witness :
  let c := {| c_id := Val 7; c_first_name := Some "Ada";
              c_last_name := None; c_email := None; c_phone := None;
              c_created_at := None; c_updated_at := None |} in
  2 = Z.of_nat (length [Item c; Item c])
  /\ size (customers (db (store_customers (RT := reference_runtime)
                            [Item c; Item c] empty_world).2)) = 1%nat.
Proof.
  cbv zeta. split.
  - apply (proj1 (proj2 (pass_counts_fetched_records
                           (RT := reference_runtime) empty_world 2))).
    vm_compute. reflexivity.
  - vm_compute. reflexivity.
Defined.

(** The rowid of a row inserted with a [NULL] key is above every rowid
    in use. *)
Lemma max_rowid_bound {R} (t : gmap Z R) (k : Z) :
  is_Some (t !! k) -> exists m, max_rowid t = Some m /\ k <= m.
Proof.
  unfold max_rowid. revert k.
  apply (map_fold_weak_ind
           (fun (r : option Z) (m : gmap Z R) =>
              forall k, is_Some (m !! k) -> exists mx, r = Some mx /\ k <= mx)).
  - intros k [x Hx]. rewrite lookup_empty in Hx. discriminate.
  - intros i x m r Hi IH k Hk.
    destruct (decide (k = i)) as [-> | Hne].
    + eexists. split; [reflexivity|]. destruct r; cbn; lia.
    + rewrite lookup_insert_ne in Hk by congruence.
      destruct (IH k Hk) as (mx & -> & Hle).
      eexists. split; [reflexivity|]. cbn. lia.
Qed.

Lemma next_rowid_fresh {R} (t : gmap Z R) : t !! next_rowid t = None.
Proof.
  destruct (t !! next_rowid t) as [x|] eqn:E; [|reflexivity].
  destruct (max_rowid_bound t (next_rowid t)) as (m & Hm & Hle);
    [eexists; exact E|].
  unfold next_rowid in Hle. rewrite Hm in Hle. cbn in Hle. lia.
Qed.

Lemma insert_or_replace_keeps {R} (id : option Z) (row : R) (t : gmap Z R) :
  keeps_rows t (insert_or_replace id row t).
Proof.
  intros k Hk. unfold insert_or_replace.
  destruct (decide (default (next_rowid t) id = k)) as [<- | Hne].
  - rewrite lookup_insert_eq. eexists. reflexivity.
  - rewrite lookup_insert_ne by exact Hne. exact Hk.
Qed.

(** A row stays as it is under a write to another [id], and under a
    write without [id]. *)
Lemma insert_or_replace_other {R} (id : option Z) (row : R) (t : gmap Z R)
    (k : Z) :
  is_Some (t !! k) -> id <> Some k ->
  insert_or_replace id row t !! k = t !! k.
Proof.
  intros Hk Hid. unfold insert_or_replace.
  apply lookup_insert_ne. destruct id as [j|]; cbn.
  - congruence.
  - intros <-. rewrite next_rowid_fresh in Hk. destruct Hk. discriminate.
Qed.

Lemma keeps_rows_refl {K} `{Countable K} {R} (t : gmap K R) :
  keeps_rows t t.
Proof. intros k Hk. exact Hk. Qed.

Lemma keeps_rows_trans {K} `{Countable K} {R} (a b c : gmap K R) :
  keeps_rows a b -> keeps_rows b c -> keeps_rows a c.
Proof. intros H1 H2 k Hk. apply H2, H1, Hk. Qed.

Lemma keeps_all_rows_refl (d : database) : keeps_all_rows d d.
Proof. repeat split; apply keeps_rows_refl. Qed.

Lemma keeps_all_rows_trans (a b c : database) :
  keeps_all_rows a b -> keeps_all_rows b c -> keeps_all_rows a c.
Proof.
  intros (H1 & H2 & H3 & H4 & H5 & H6) (G1 & G2 & G3 & G4 & G5 & G6).
  repeat split; eapply keeps_rows_trans; eassumption.
Qed.

Section StoreFrames.
Context `{RT : Runtime}.

(** What the loop of each pass does to the connection: rows are kept, and
    the tables of the other passes and the watermarks are not written. *)
Lemma store_variants_conn (pid : option Z) (vs : list variant)
    (st st' : loop_vars) :
  for_each (store_variant pid) vs st = Ok st' ->
  keeps_rows (product_variants (conn st)) (product_variants (conn st'))
  /\ products (conn st') = products (conn st)
  /\ customers (conn st') = customers (conn st)
  /\ orders (conn st') = orders (conn st)
  /\ line_items (conn st') = line_items (conn st)
  /\ metadata (conn st') = metadata (conn st).
Proof.
  apply (for_each_rel _
           (fun a b =>
              keeps_rows (product_variants (conn a)) (product_variants (conn b))
              /\ products (conn b) = products (conn a)
              /\ customers (conn b) = customers (conn a)
              /\ orders (conn b) = orders (conn a)
              /\ line_items (conn b) = line_items (conn a)
              /\ metadata (conn b) = metadata (conn a))).
  - intros s. repeat split. apply keeps_rows_refl.
  - intros a b c (H1 & H2 & H3 & H4 & H5 & H6) (G1 & G2 & G3 & G4 & G5 & G6).
    repeat split; try congruence. eapply keeps_rows_trans; eassumption.
  - intros v s s' _ H.
    destruct (store_variant_ok _ _ _ _ H) as (k & vid & _ & _ & ->).
    repeat split. apply insert_or_replace_keeps.
Qed.

Lemma store_line_items_conn (oid : option Z) (lis : list line_item)
    (st st' : loop_vars) :
  for_each (store_line_item oid) lis st = Ok st' ->
  keeps_rows (line_items (conn st)) (line_items (conn st'))
  /\ products (conn st') = products (conn st)
  /\ product_variants (conn st') = product_variants (conn st)
  /\ customers (conn st') = customers (conn st)
  /\ orders (conn st') = orders (conn st)
  /\ metadata (conn st') = metadata (conn st).
Proof.
  apply (for_each_rel _
           (fun a b =>
              keeps_rows (line_items (conn a)) (line_items (conn b))
              /\ products (conn b) = products (conn a)
              /\ product_variants (conn b) = product_variants (conn a)
              /\ customers (conn b) = customers (conn a)
              /\ orders (conn b) = orders (conn a)
              /\ metadata (conn b) = metadata (conn a))).
  - intros s. repeat split. apply keeps_rows_refl.
  - intros a b c (H1 & H2 & H3 & H4 & H5 & H6) (G1 & G2 & G3 & G4 & G5 & G6).
    repeat split; try congruence. eapply keeps_rows_trans; eassumption.
  - intros v s s' _ H.
    destruct (store_line_item_ok _ _ _ _ H) as (k & _ & ->).
    repeat split. apply insert_or_replace_keeps.
Qed.

Lemma store_product_conn (p : product) (st st' : loop_vars) :
  store_product p st = Ok st' ->
  keeps_rows (products (conn st)) (products (conn st'))
  /\ keeps_rows (product_variants (conn st)) (product_variants (conn st'))
  /\ customers (conn st') = customers (conn st)
  /\ orders (conn st') = orders (conn st)
  /\ line_items (conn st') = line_items (conn st)
  /\ metadata (conn st') = metadata (conn st).
Proof.
  intros H.
  destruct (store_product_ok _ _ _ H) as (pid & vs & st1 & _ & _ & Hvs & ->).
  destruct (store_variants_conn _ _ _ _ Hvs) as (H1 & H2 & H3 & H4 & H5 & H6).
  cbn [set_max_updated conn] in *.
  repeat split; try assumption.
  rewrite H2. apply insert_or_replace_keeps.
Qed.

Lemma store_customer_conn (c : customer) (st st' : loop_vars) :
  store_customer c st = Ok st' ->
  keeps_rows (customers (conn st)) (customers (conn st'))
  /\ products (conn st') = products (conn st)
  /\ product_variants (conn st') = product_variants (conn st)
  /\ orders (conn st') = orders (conn st)
  /\ line_items (conn st') = line_items (conn st)
  /\ metadata (conn st') = metadata (conn st).
Proof.
  intros H. destruct (store_customer_ok _ _ _ H) as (cid & _ & ->).
  repeat split. apply insert_or_replace_keeps.
Qed.

Lemma store_order_conn (o : order) (st st' : loop_vars) :
  store_order o st = Ok st' ->
  keeps_rows (orders (conn st)) (orders (conn st'))
  /\ keeps_rows (line_items (conn st)) (line_items (conn st'))
  /\ products (conn st') = products (conn st)
  /\ product_variants (conn st') = product_variants (conn st)
  /\ customers (conn st') = customers (conn st)
  /\ metadata (conn st') = metadata (conn st).
Proof.
  intros H.
  destruct (store_order_ok _ _ _ H) as (oid & lis & st1 & _ & _ & Hl & ->).
  destruct (store_line_items_conn _ _ _ _ Hl) as (H1 & H2 & H3 & H4 & H5 & H6).
  cbn [set_max_updated conn] in *.
  repeat split; try assumption.
  rewrite H5. apply insert_or_replace_keeps.
Qed.

(** A relation on the connection that every turn respects holds between
    the store before the pass and the rows the pass commits. *)
Lemma store_loop_rel {A} (store : A -> loop_vars -> pyres loop_vars)
    (R : database -> database -> Prop) (items : list (fetched A)) :
  (forall d, R d d) ->
  (forall a b c, R a b -> R b c -> R a c) ->
  (forall a st st', store a st = Ok st' -> R (conn st) (conn st')) ->
  forall st st',
    for_each (store_item store) items st = Ok st' -> R (conn st) (conn st').
Proof.
  intros Hrefl Htrans Hstore.
  apply (for_each_rel _ (fun a b => R (conn a) (conn b))).
  - intros s. apply Hrefl.
  - intros a b c. apply Htrans.
  - intros x s s' _ Hx.
    destruct (store_item_ok _ _ _ _ Hx) as (a & -> & Ha).
    apply (Hstore _ _ _ Ha).
Qed.

(** The world after a store step, by the connection it commits. *)
Lemma store_pass_world {A} (store : A -> loop_vars -> pyres loop_vars)
    (key : string) (items : list (fetched A)) (w : world) :
  let w' := (store_pass store key items w).2 in
  w' = w
  \/ exists st,
       for_each (store_item store) items (loop_start (db w)) = Ok st
       /\ products (db w') = products (conn st)
       /\ product_variants (db w') = product_variants (conn st)
       /\ customers (db w') = customers (conn st)
       /\ orders (db w') = orders (conn st)
       /\ line_items (db w') = line_items (conn st)
       /\ (metadata (db w') = metadata (conn st)
           \/ exists v, metadata (db w') = <[key := v]> (metadata (conn st)))
       /\ products_api w' = products_api w
       /\ customers_api w' = customers_api w
       /\ orders_api w' = orders_api w
       /\ events w' = events w.
Proof.
  cbv zeta. rewrite store_pass_run.
  destruct (for_each (store_item store) items (loop_start (db w)))
    as [st|e] eqn:Hloop; [|left; reflexivity].
  right. exists st. split; [reflexivity|].
  cbn [snd]. destruct (max_updated st) as [m|]; cbn;
    repeat split; try (left; reflexivity).
  right. eexists. reflexivity.
Qed.
End StoreFrames.

Section PassInvariants.
Context `{RT : Runtime}.

(** A relation on stores that the three store steps respect holds between
    the store before a pass, or before a run, and the store after it,
    however the pass or the run ends. *)
Lemma pass_rel {A} (R : database -> database -> Prop)
    (fetch : M world (list (fetched A)))
    (store : list (fetched A) -> M world Z) (w : world) :
  (forall r1 w1, fetch w = (r1, w1) -> db w1 = db w) ->
  (forall items w1, R (db w1) (db (store items w1).2)) ->
  (forall d, R d d) ->
  R (db w) (db (bind fetch store w).2).
Proof.
  intros Hframe Hstore Hrefl. rewrite pass_run.
  destruct (fetch w) as [[items|e] w1] eqn:Hf;
    rewrite <- (Hframe _ _ eq_refl).
  - apply Hstore.
  - apply Hrefl.
Qed.

Lemma run_full_sync_rel (R : database -> database -> Prop)
    (incremental : bool) (w : world) :
  (forall d, R d d) ->
  (forall a b c, R a b -> R b c -> R a c) ->
  (forall items w1, R (db w1) (db (store_products items w1).2)) ->
  (forall items w1, R (db w1) (db (store_customers items w1).2)) ->
  (forall items w1, R (db w1) (db (store_orders items w1).2)) ->
  R (db w) (db (run_full_sync incremental w).2).
Proof.
  intros Hrefl Htrans Hp Hc Ho. rewrite run_full_sync_run.
  assert (H1 : R (db w) (db (fetch_and_store_products incremental w).2)).
  { unfold fetch_and_store_products. apply pass_rel; [|exact Hp|exact Hrefl].
    intros r1 w1 Hf. apply (fetch_products_frame _ _ _ _ Hf). }
  destruct (fetch_and_store_products incremental w) as [[p|e] w1];
    cbn [snd] in H1 |- *; [|exact H1].
  assert (H2 : R (db w1) (db (fetch_and_store_customers incremental w1).2)).
  { unfold fetch_and_store_customers. apply pass_rel; [|exact Hc|exact Hrefl].
    intros r1 w2 Hf. apply (fetch_customers_frame _ _ _ _ Hf). }
  destruct (fetch_and_store_customers incremental w1) as [[c|e] w2];
    cbn [snd] in H2 |- *; [|exact (Htrans _ _ _ H1 H2)].
  assert (H3 : R (db w2) (db (fetch_and_store_orders incremental "any" w2).2)).
  { unfold fetch_and_store_orders. apply pass_rel; [|exact Ho|exact Hrefl].
    intros r1 w3 Hf. apply (fetch_orders_frame _ _ _ _ _ Hf). }
  destruct (fetch_and_store_orders incremental "any" w2) as [[o|e] w3];
    cbn [snd] in H3 |- *; exact (Htrans _ _ _ (Htrans _ _ _ H1 H2) H3).
Qed.

Lemma store_pass_keeps_rows {A} (store : A -> loop_vars -> pyres loop_vars)
    (key : string) (items : list (fetched A)) (w : world) :
  (forall a st st',
     store a st = Ok st' -> keeps_all_rows (conn st) (conn st')) ->
  keeps_all_rows (db w) (db (store_pass store key items w).2).
Proof.
  intros Hstore.
  destruct (store_pass_world store key items w)
    as [-> | (st & Hloop & H1 & H2 & H3 & H4 & H5 & H6 & _)];
    [apply keeps_all_rows_refl|].
  pose proof (store_loop_rel store keeps_all_rows items keeps_all_rows_refl
                keeps_all_rows_trans Hstore _ _ Hloop)
    as (G1 & G2 & G3 & G4 & G5 & G6).
  cbn [loop_start conn] in *.
  unfold keeps_all_rows. rewrite H1, H2, H3, H4, H5.
  repeat split; try assumption.
  destruct H6 as [-> | [v ->]]; [exact G6|].
  intros k Hk. destruct (decide (key = k)) as [<- | Hne].
  - rewrite lookup_insert_eq. eexists. reflexivity.
  - rewrite lookup_insert_ne by exact Hne. apply G6, Hk.
Qed.

Lemma store_product_keeps (p : product) (st st' : loop_vars) :
  store_product p st = Ok st' -> keeps_all_rows (conn st) (conn st').
Proof.
  intros H.
  destruct (store_product_conn _ _ _ H) as (H1 & H2 & H3 & H4 & H5 & H6).
  unfold keeps_all_rows. rewrite H3, H4, H5, H6.
  repeat split; try assumption; apply keeps_rows_refl.
Qed.

Lemma store_customer_keeps (c : customer) (st st' : loop_vars) :
  store_customer c st = Ok st' -> keeps_all_rows (conn st) (conn st').
Proof.
  intros H.
  destruct (store_customer_conn _ _ _ H) as (H1 & H2 & H3 & H4 & H5 & H6).
  unfold keeps_all_rows. rewrite H2, H3, H4, H5, H6.
  repeat split; try assumption; apply keeps_rows_refl.
Qed.

Lemma store_order_keeps (o : order) (st st' : loop_vars) :
  store_order o st = Ok st' -> keeps_all_rows (conn st) (conn st').
Proof.
  intros H.
  destruct (store_order_conn _ _ _ H) as (H1 & H2 & H3 & H4 & H5 & H6).
  unfold keeps_all_rows. rewrite H3, H4, H5, H6.
  repeat split; try assumption; apply keeps_rows_refl.
Qed.

(** The frame of a store step, from the frame of its turns. *)
Lemma store_pass_frame {A} (store : A -> loop_vars -> pyres loop_vars)
    (key : string) (items : list (fetched A)) (w : world)
    (R : database -> database -> Prop) :
  (forall d, R d d) ->
  (forall a b c, R a b -> R b c -> R a c) ->
  (forall a st st',
     store a st = Ok st'
     -> R (conn st) (conn st') /\ metadata (conn st') = metadata (conn st)) ->
  (forall d d' md,
     R d d' ->
     R d {| products := products d'; product_variants := product_variants d';
            customers := customers d'; orders := orders d';
            line_items := line_items d'; metadata := md |}) ->
  let w' := (store_pass store key items w).2 in
  R (db w) (db w') /\ store_step_frame key w w'.
Proof.
  intros Hrefl Htrans Hstore Hmd. cbv zeta.
  destruct (store_pass_world store key items w)
    as [-> | (st & Hloop & H1 & H2 & H3 & H4 & H5 & H6 & H7 & H8 & H9 & H10)].
  { split; [apply Hrefl|]. repeat split. }
  pose proof (store_loop_rel store
                (fun a b => R a b /\ metadata b = metadata a) items) as Hrel.
  destruct (Hrel (fun d => conj (Hrefl d) eq_refl)
              ltac:(intros a b c [X1 X2] [Y1 Y2]; split;
                    [exact (Htrans _ _ _ X1 Y1)|congruence])
              Hstore _ _ Hloop) as [HR Hm].
  cbn [loop_start conn] in HR, Hm.
  split.
  - pose proof (Hmd _ _ (metadata (db (store_pass store key items w).2)) HR)
      as HR'.
    rewrite <- H1, <- H2, <- H3, <- H4, <- H5 in HR'.
    destruct (db (store_pass store key items w).2). exact HR'.
  - repeat split; try assumption.
    intros k Hk. destruct H6 as [-> | [v ->]].
    + rewrite Hm. reflexivity.
    + rewrite lookup_insert_ne by congruence. rewrite Hm. reflexivity.
Qed.
End PassInvariants.

(** X16.  A store step writes its own tables only.  The products pass
    leaves the rows of customers, orders and line items as they are, the
    customers pass those of the four other tables, the orders pass those
    of products, variants and customers; each pass leaves the watermarks
    of the two other passes as they are, asks nothing of the API and adds
    nothing to the trace. *)
Theorem pass_writes_only_its_own_tables `{RT : Runtime} (w : world) :
  (forall items : list (fetched product),
     let w' := (store_products items w).2 in
     customers (db w') = customers (db w)
     /\ orders (db w') = orders (db w)
     /\ line_items (db w') = line_items (db w)
     /\ store_step_frame "products_last_sync" w w')
  /\ (forall items : list (fetched customer),
        let w' := (store_customers items w).2 in
        products (db w') = products (db w)
        /\ product_variants (db w') = product_variants (db w)
        /\ orders (db w') = orders (db w)
        /\ line_items (db w') = line_items (db w)
        /\ store_step_frame "customers_last_sync" w w')
  /\ (forall items : list (fetched order),
        let w' := (store_orders items w).2 in
        products (db w') = products (db w)
        /\ product_variants (db w') = product_variants (db w)
        /\ customers (db w') = customers (db w)
        /\ store_step_frame "orders_last_sync" w w').
Proof.
  split; [|split]; intros items w'; subst w'.
  - destruct (store_pass_frame store_product "products_last_sync" items w
                (fun d d' => customers d' = customers d
                             /\ orders d' = orders d
                             /\ line_items d' = line_items d))
      as [(H1 & H2 & H3) Hf].
    + intros d. repeat split.
    + intros a b c (X1 & X2 & X3) (Y1 & Y2 & Y3). repeat split; congruence.
    + intros a st st' H.
      destruct (store_product_conn _ _ _ H) as (_ & _ & G3 & G4 & G5 & G6).
      repeat split; assumption.
    + intros d d' md H. exact H.
    + repeat (split; [assumption|]). exact Hf.
  - destruct (store_pass_frame store_customer "customers_last_sync" items w
                (fun d d' => products d' = products d
                             /\ product_variants d' = product_variants d
                             /\ orders d' = orders d
                             /\ line_items d' = line_items d))
      as [(H1 & H2 & H3 & H4) Hf].
    + intros d. repeat split.
    + intros a b c (X1 & X2 & X3 & X4) (Y1 & Y2 & Y3 & Y4).
      repeat split; congruence.
    + intros a st st' H.
      destruct (store_customer_conn _ _ _ H) as (_ & G2 & G3 & G4 & G5 & G6).
      repeat split; assumption.
    + intros d d' md H. exact H.
    + repeat (split; [assumption|]). exact Hf.
  - destruct (store_pass_frame store_order "orders_last_sync" items w
                (fun d d' => products d' = products d
                             /\ product_variants d' = product_variants d
                             /\ customers d' = customers d))
      as [(H1 & H2 & H3) Hf].
    + intros d. repeat split.
    + intros a b c (X1 & X2 & X3) (Y1 & Y2 & Y3). repeat split; congruence.
    + intros a st st' H.
      destruct (store_order_conn _ _ _ H) as (_ & _ & G3 & G4 & G5 & G6).
      repeat split; assumption.
    + intros d d' md H. exact H.
    + repeat (split; [assumption|]). exact Hf.
Qed.

(** X17.  A run never deletes.  Whatever the API answers and however the
    run ends, every row that is in one of the five tables before
    [run_full_sync] is there, under the same [id], after it, and so is
    every key of the metadata table: a record that has disappeared from
    the shop stays in the store. *)
Theorem sync_never_deletes_rows `{RT : Runtime} (incremental : bool)
    (w : world) :
  keeps_all_rows (db w) (db (run_full_sync incremental w).2).
Proof.
  apply run_full_sync_rel.
  - apply keeps_all_rows_refl.
  - apply keeps_all_rows_trans.
  - intros items w1. apply store_pass_keeps_rows, store_product_keeps.
  - intros items w1. apply store_pass_keeps_rows, store_customer_keeps.
  - intros items w1. apply store_pass_keeps_rows, store_order_keeps.
Qed.

Section ParentLinks.
Context `{RT : Runtime}.






End ParentLinks.



Section LastWins.
Context `{RT : Runtime}.

Lemma store_loop_other {A R} (tbl : database -> gmap Z R)
    (store : A -> loop_vars -> pyres loop_vars) (idf : A -> field Z)
    (k : Z) (items : list (fetched A)) :
  (forall a st st',
     store a st = Ok st' -> has_key k (idf a) = false ->
     is_Some (tbl (conn st) !! k) ->
     tbl (conn st') !! k = tbl (conn st) !! k) ->
  forallb (item_holds (fun q => negb (has_key k (idf q)))) items = true ->
  forall st st',
    for_each (store_item store) items st = Ok st' ->
    is_Some (tbl (conn st) !! k) ->
    tbl (conn st') !! k = tbl (conn st) !! k.
Proof.
  intros Hother. induction items as [|x items IH]; intros Hall st st'.
  - cbn. intros [= <-] _. reflexivity.
  - cbn [forallb] in Hall. apply andb_prop in Hall as [Hx Hall].
    cbn [for_each].
    destruct (store_item store x st) as [st1|e] eqn:Hstep; [|discriminate].
    cbn [pbind]. intros Hloop Hk.
    destruct (store_item_ok _ _ _ _ Hstep) as (a & -> & Ha).
    cbn [item_holds] in Hx. apply negb_true_iff in Hx.
    pose proof (Hother _ _ _ Ha Hx Hk) as H1.
    rewrite (IH Hall _ _ Hloop) by (rewrite H1; exact Hk).
    exact H1.
Qed.

Lemma store_pass_last_wins {A R} (tbl : database -> gmap Z R)
    (store : A -> loop_vars -> pyres loop_vars) (idf : A -> field Z)
    (rowf : A -> R) (key : string) (pre post : list (fetched A)) (a : A)
    (k n : Z) (w w' : world) :
  (forall f d, tbl (set_metadata f d) = tbl d) ->
  (forall a st st',
     store a st = Ok st' -> idf a = Val k ->
     tbl (conn st') !! k = Some (rowf a)) ->
  (forall a st st',
     store a st = Ok st' -> has_key k (idf a) = false ->
     is_Some (tbl (conn st) !! k) ->
     tbl (conn st') !! k = tbl (conn st) !! k) ->
  store_pass store key (pre ++ Item a :: post) w = (Ok n, w') ->
  idf a = Val k ->
  forallb (item_holds (fun q => negb (has_key k (idf q)))) post = true ->
  tbl (db w') !! k = Some (rowf a).
Proof.
  intros Hmd Hwrites Hother. rewrite store_pass_run, for_each_app.
  destruct (for_each (store_item store) pre (loop_start (db w)))
    as [st0|e]; [|discriminate].
  cbn [pbind for_each store_item].
  destruct (store a st0) as [st1|e] eqn:Ha; [|discriminate].
  cbn [pbind].
  destruct (for_each (store_item store) post st1) as [st2|e] eqn:Hpost;
    [|discriminate].
  intros [= _ <-] Hid Hall. cbn [db set_db].
  pose proof (Hwrites _ _ _ Ha Hid) as H1.
  assert (H2 : tbl (conn st2) !! k = Some (rowf a)).
  { rewrite (store_loop_other tbl store idf k post Hother Hall _ _ Hpost);
      [exact H1|]. rewrite H1. eexists. reflexivity. }
  destruct (max_updated st2); [rewrite Hmd|]; exact H2.
Qed.

Lemma getitem_has_key (f : field Z) (id : option Z) (k : Z) :
  getitem f = Ok id -> has_key k f = false -> id <> Some k.
Proof.
  destruct f as [| |z]; cbn; [discriminate| |].
  - intros [= <-] _. discriminate.
  - intros [= <-] Hz [= ->]. rewrite Z.eqb_refl in Hz. discriminate.
Qed.

Lemma store_product_writes (p : product) (st st' : loop_vars) (k : Z) :
  store_product p st = Ok st' -> p_id p = Val k ->
  products (conn st') !! k = Some (product_row_of p).
Proof.
  intros H Hid.
  destruct (store_product_ok _ _ _ H) as (pid & vs & st1 & Hp & _ & Hvs & ->).
  rewrite Hid in Hp. injection Hp as <-.
  destruct (store_variants_conn _ _ _ _ Hvs) as (_ & H2 & _).
  cbn [set_max_updated conn]. rewrite H2. apply lookup_insert_eq.
Qed.

Lemma store_product_other (p : product) (st st' : loop_vars) (k : Z) :
  store_product p st = Ok st' -> has_key k (p_id p) = false ->
  is_Some (products (conn st) !! k) ->
  products (conn st') !! k = products (conn st) !! k.
Proof.
  intros H Hid Hk.
  destruct (store_product_ok _ _ _ H) as (pid & vs & st1 & Hp & _ & Hvs & ->).
  destruct (store_variants_conn _ _ _ _ Hvs) as (_ & H2 & _).
  cbn [set_max_updated conn]. rewrite H2.
  apply insert_or_replace_other; [exact Hk|].
  apply (getitem_has_key _ _ _ Hp Hid).
Qed.

Lemma store_customer_writes (c : customer) (st st' : loop_vars) (k : Z) :
  store_customer c st = Ok st' -> c_id c = Val k ->
  customers (conn st') !! k = Some (customer_row_of c).
Proof.
  intros H Hid. destruct (store_customer_ok _ _ _ H) as (cid & Hc & ->).
  rewrite Hid in Hc. injection Hc as <-. apply lookup_insert_eq.
Qed.

Lemma store_customer_other (c : customer) (st st' : loop_vars) (k : Z) :
  store_customer c st = Ok st' -> has_key k (c_id c) = false ->
  is_Some (customers (conn st) !! k) ->
  customers (conn st') !! k = customers (conn st) !! k.
Proof.
  intros H Hid Hk. destruct (store_customer_ok _ _ _ H) as (cid & Hc & ->).
  apply insert_or_replace_other; [exact Hk|].
  apply (getitem_has_key _ _ _ Hc Hid).
Qed.

Lemma store_order_writes (o : order) (st st' : loop_vars) (k : Z) :
  store_order o st = Ok st' -> o_id o = Val k ->
  orders (conn st') !! k = Some (order_row_of o).
Proof.
  intros H Hid.
  destruct (store_order_ok _ _ _ H) as (oid & lis & st1 & Ho & _ & Hl & ->).
  rewrite Hid in Ho. injection Ho as <-.
  destruct (store_line_items_conn _ _ _ _ Hl) as (_ & _ & _ & _ & H5 & _).
  cbn [set_max_updated conn]. rewrite H5. apply lookup_insert_eq.
Qed.

Lemma store_order_other (o : order) (st st' : loop_vars) (k : Z) :
  store_order o st = Ok st' -> has_key k (o_id o) = false ->
  is_Some (orders (conn st) !! k) ->
  orders (conn st') !! k = orders (conn st) !! k.
Proof.
  intros H Hid Hk.
  destruct (store_order_ok _ _ _ H) as (oid & lis & st1 & Ho & _ & Hl & ->).
  destruct (store_line_items_conn _ _ _ _ Hl) as (_ & _ & _ & _ & H5 & _).
  cbn [set_max_updated conn]. rewrite H5.
  apply insert_or_replace_other; [exact Hk|].
  apply (getitem_has_key _ _ _ Ho Hid).
Qed.
End LastWins.

(** X19.  The last record of an [id] is the one stored.  After a store
    step that completes, the row under an [id] is the row of the last
    fetched record that carries this [id], with the fields of that record:
    records fetched before it with the same [id] are overwritten, and
    records fetched after it, with other [id]s or with none, leave the row
    as it is. *)
Theorem last_record_of_an_id_is_stored `{RT : Runtime} (k n : Z)
    (w w' : world) :
  (forall (pre post : list (fetched product)) (p : product),
     store_products (pre ++ Item p :: post) w = (Ok n, w') ->
     p_id p = Val k ->
     forallb (item_holds (fun q => negb (has_key k (p_id q)))) post = true ->
     products (db w') !! k = Some (product_row_of p))
  /\ (forall (pre post : list (fetched customer)) (c : customer),
        store_customers (pre ++ Item c :: post) w = (Ok n, w') ->
        c_id c = Val k ->
        forallb (item_holds (fun q => negb (has_key k (c_id q)))) post = true ->
        customers (db w') !! k = Some (customer_row_of c))
  /\ (forall (pre post : list (fetched order)) (o : order),
        store_orders (pre ++ Item o :: post) w = (Ok n, w') ->
        o_id o = Val k ->
        forallb (item_holds (fun q => negb (has_key k (o_id q)))) post = true ->
        orders (db w') !! k = Some (order_row_of o)).
Proof.
  split; [|split].
  - intros pre post p.
    apply (store_pass_last_wins products store_product p_id product_row_of).
    + reflexivity.
    + intros a st st'. apply store_product_writes.
    + intros a st st'. apply store_product_other.
  - intros pre post c.
    apply (store_pass_last_wins customers store_customer c_id customer_row_of).
    + reflexivity.
    + intros a st st'. apply store_customer_writes.
    + intros a st st'. apply store_customer_other.
  - intros pre post o.
    apply (store_pass_last_wins orders store_order o_id order_row_of).
    + reflexivity.
    + intros a st st'. apply store_order_writes.
    + intros a st st'. apply store_order_other.
Qed.

(** X19, for a product fetched twice, renamed in between, and followed by
    a product without [id]. *)
Lemma last_record_of_an_id_is_stored_witness :
  let p1 := a_product (Val 7) None in
  let p2 := {| p_id := Val 7; p_title := Some "renamed"; p_vendor := None;
               p_product_type := None; p_created_at := None;
               p_updated_at := None; p_variants := Absent |} in
  let p3 := a_product Null None in
  products (db (store_products (RT := reference_runtime)
                  ([Item p1] ++ Item p2 :: [Item p3]) empty_world).2) !! 7
  = Some (product_row_of p2).
Proof.
  intros p1 p2 p3.
  apply (proj1 (last_record_of_an_id_is_stored (RT := reference_runtime)
                  7 3 empty_world
                  (store_products (RT := reference_runtime)
                     ([Item p1] ++ Item p2 :: [Item p3]) empty_world).2)
           [Item p1] [Item p3] p2).
  - vm_compute. reflexivity.
  - reflexivity.
  - reflexivity.
Defined.

(** X20.  A record the loop cannot read aborts the pass.  A product, a
    customer or an order without the key [id] raises [KeyError], and so
    does a variant without it; a product whose [variants], or an order
    whose [line_items], is [null] raises [TypeError].  In each case the
    store is as it was before the pass: the rows of the records stored
    before the fault are not committed, the watermark is not advanced,
    and the records after the fault are not reached. *)
Theorem unreadable_record_aborts_pass `{RT : Runtime} (w : world)
    (st : loop_vars) :
  (forall (pre post : list (fetched product)) (bad : product),
     for_each (store_item store_product) pre (loop_start (db w)) = Ok st ->
     (p_id bad = Absent ->
      store_products (pre ++ Item bad :: post) w = (Raise KeyError, w))
     /\ (forall v vs,
           p_id bad <> Absent -> p_variants bad = Val (v :: vs) ->
           v_id v = Absent ->
           store_products (pre ++ Item bad :: post) w = (Raise KeyError, w))
     /\ (p_id bad <> Absent -> p_variants bad = Null ->
         store_products (pre ++ Item bad :: post) w = (Raise TypeError, w)))
  /\ (forall (pre post : list (fetched customer)) (bad : customer),
        for_each (store_item store_customer) pre (loop_start (db w)) = Ok st ->
        c_id bad = Absent ->
        store_customers (pre ++ Item bad :: post) w = (Raise KeyError, w))
  /\ (forall (pre post : list (fetched order)) (bad : order),
        for_each (store_item store_order) pre (loop_start (db w)) = Ok st ->
        (o_id bad = Absent ->
         store_orders (pre ++ Item bad :: post) w = (Raise KeyError, w))
        /\ (o_id bad <> Absent -> o_line_items bad = Null ->
            store_orders (pre ++ Item bad :: post) w = (Raise TypeError, w))).
Proof.
  split; [|split].
  - intros pre post bad Hpre.
    unfold store_products. rewrite store_pass_run, for_each_app, Hpre.
    cbn [pbind for_each store_item]. unfold store_product.
    split; [|split].
    + intros ->. reflexivity.
    + intros v vs Hid -> Hv.
      destruct (p_id bad); [contradiction| |];
        cbn [getitem pbind get_default iter for_each];
        unfold store_variant; rewrite Hv; reflexivity.
    + intros Hid ->. destruct (p_id bad); [contradiction| |]; reflexivity.
  - intros pre post bad Hpre Hid.
    unfold store_customers. rewrite store_pass_run, for_each_app, Hpre.
    cbn [pbind for_each store_item]. unfold store_customer.
    rewrite Hid. reflexivity.
  - intros pre post bad Hpre.
    unfold store_orders. rewrite store_pass_run, for_each_app, Hpre.
    cbn [pbind for_each store_item]. unfold store_order.
    split.
    + intros ->. reflexivity.
    + intros Hid ->. destruct (o_id bad); [contradiction| |]; reflexivity.
Qed.

(** X20, on three orders of which the second has no [id]. *)
Lemma unreadable_record_aborts_pass_witness :
  store_orders (RT := reference_runtime)
    ([Item (an_order (Val 1) Absent None Absent)]
     ++ Item (an_order Absent Absent None Absent)
        :: [Item (an_order (Val 3) Absent None Absent)])
    empty_world
  = (Raise KeyError, empty_world).
Proof.
  refine (proj1 (proj2 (proj2
            (unreadable_record_aborts_pass (RT := reference_runtime)
               empty_world _))
            [Item (an_order (Val 1) Absent None Absent)]
            [Item (an_order (Val 3) Absent None Absent)]
            (an_order Absent Absent None Absent) _) _); reflexivity.
Defined.
